(** * Chameleon [tal.py]: clause parsers and the repeat runtime

    A shallow embedding of [src/chameleon/tal.py] and the verification of
    its specification.

    Conventions of the embedding.
    - A Python [str] is a [string] whose characters are the code points
      below 256; [\s], [\d], [\w], [str.strip()] and [str.lower()]
      follow the Unicode tables of [str] and of the [re] module for
      [str] patterns, on these code points.
    - A Python exception is a value of [exn]; a call that can raise
      returns a [result].
    - A [dict] or [OrderedDict] whose order is observable is an
      association list in insertion order; [RepeatDict], whose order is
      not, is a [gmap].
    - Objects with identity (cursors, [RepeatItem]s) live in a heap and
      are referred to by address. *)

From Stdlib Require Import ZArith Ascii String.
From stdpp Require Import base option list gmap strings.

Local Open Scope Z_scope.
Set Warnings "-register-all".

(** ** Exceptions and results *)

Inductive exn :=
| TypeError (msg : string)
| ValueError (msg : string)
| KeyError (key : string)
| AttributeError (name : string)
| ZeroDivisionError
| StopIteration
| NotImplementedError (msg : string)
| LanguageError (msg arg : string).

Inductive result (A : Type) :=
| Ok (a : A)
| Raise (e : exn).
Arguments Ok {A} a.
Arguments Raise {A} e.

Definition bind {A B} (m : result A) (f : A -> result B) : result B :=
  match m with
  | Ok a => f a
  | Raise e => Raise e
  end.

Notation "'try!' x ':=' m 'in' k" := (bind m (fun x => k))
  (at level 10, x pattern, m at level 100, k at level 200).

(** ** Python string primitives *)

Module Str.

Definition NUL : ascii := "000"%char.

(** [c.isspace()]: the whitespace of [str.strip()] and of [\s], the
    code points 9 to 13, 28 to 32, 133 and 160. *)
Definition isspace (c : ascii) : bool :=
  match c with
  | "009" | "010" | "011" | "012" | "013"
  | "028" | "029" | "030" | "031" | " "
  | "133" | "160" => true
  | _ => false
  end%char.

Definition in_range (lo hi c : ascii) : bool :=
  (nat_of_ascii lo <=? nat_of_ascii c)%nat && (nat_of_ascii c <=? nat_of_ascii hi)%nat.

(** The digits of the range [0-9]; below 256 they are all that [\d]
    matches. *)
Definition digit09 (c : ascii) : bool := in_range "0" "9" c.

(** The letters of the ranges [a-zA-Z]. *)
Definition letter_az (c : ascii) : bool := in_range "a" "z" c || in_range "A" "Z" c.

(** [c.isalnum()]: the ASCII letters and digits and, above them, the
    code points 170, 178, 179, 181, 185, 186, 188 to 190, 192 to 214,
    216 to 246 and 248 to 255. *)
Definition isalnum (c : ascii) : bool :=
  letter_az c || digit09 c
  || in_range "170" "170" c || in_range "178" "179" c || in_range "181" "181" c
  || in_range "185" "186" c || in_range "188" "190" c
  || in_range "192" "214" c || in_range "216" "246" c || in_range "248" "255" c.

Definition char_is (a c : ascii) : bool := bool_decide (a = c).

Fixpoint mem (c : ascii) (s : string) : bool :=
  match s with
  | EmptyString => false
  | String d s' => char_is d c || mem c s'
  end.

Fixpoint startswith (p s : string) : bool :=
  match p, s with
  | EmptyString, _ => true
  | String a p', String b s' => char_is a b && startswith p' s'
  | String _ _, EmptyString => false
  end.

(** [s.replace(old, new)] for a non-empty [old]: leftmost occurrences,
    not overlapping.  [skip] counts the characters of an occurrence
    already replaced that are still to be passed over. *)
Fixpoint replace_from (old new : string) (skip : nat) (s : string) : string :=
  match s with
  | EmptyString => EmptyString
  | String c s' =>
      match skip with
      | S k => replace_from old new k s'
      | O =>
          if startswith old s
          then new +:+ replace_from old new (String.length old - 1) s'
          else String c (replace_from old new 0 s')
      end
  end.

Definition replace (old new s : string) : string := replace_from old new 0 s.

(** [s.split(sep)] for a one-character separator. *)
Fixpoint split (sep : ascii) (s : string) : list string :=
  match s with
  | EmptyString => [EmptyString]
  | String c s' =>
      if char_is sep c then EmptyString :: split sep s'
      else match split sep s' with
           | p :: ps => String c p :: ps
           | [] => [String c EmptyString]
           end
  end.

Fixpoint lstrip_by (p : ascii -> bool) (s : string) : string :=
  match s with
  | EmptyString => EmptyString
  | String c s' => if p c then lstrip_by p s' else s
  end.

Fixpoint rstrip_by (p : ascii -> bool) (s : string) : string :=
  match s with
  | EmptyString => EmptyString
  | String c s' =>
      match rstrip_by p s' with
      | EmptyString => if p c then EmptyString else String c EmptyString
      | r => String c r
      end
  end.

Definition strip_by (p : ascii -> bool) (s : string) : string :=
  rstrip_by p (lstrip_by p s).

(** [s.strip()] and [s.strip(chars)]. *)
Definition strip (s : string) : string := strip_by isspace s.
Definition strip_chars (chars s : string) : string :=
  strip_by (fun c => mem c chars) s.

Definition is_empty (s : string) : bool :=
  match s with EmptyString => true | _ => false end.

(** [s.count(c)] for a character, and its sum over a list of strings. *)
Fixpoint count (c : ascii) (s : string) : nat :=
  match s with
  | EmptyString => 0
  | String d s' => (if char_is c d then 1 else 0) + count c s'
  end.

Fixpoint count_all (c : ascii) (parts : list string) : nat :=
  match parts with
  | [] => 0
  | p :: parts' => count c p + count_all c parts'
  end.

(** [r * n] *)
Fixpoint repeat (r : string) (n : nat) : string :=
  match n with
  | O => EmptyString
  | S n' => r +:+ repeat r n'
  end.

End Str.

(** The one-character string ["\0"]. *)
Abbreviation nul := (String Str.NUL EmptyString) (only parsing).

(** ** A backtracking matcher for the [re] patterns of the module

    [hits r s] lists every way [r] can match a prefix of [s], in the
    order the backtracking engine tries them; [Pattern.match] takes the
    first. *)

Module Re.

Inductive regex :=
| Eps
| Cls (p : ascii -> bool)
| Cat (r1 r2 : regex)
| Alt (r1 r2 : regex)
| Star (r : regex)
| Grp (i : nat) (r : regex)
| EndZ.

Record hit := Hit {
  consumed : string;
  rest : string;
  caps : list (nat * string)
}.

Definition then_hit (h1 h2 : hit) : hit :=
  Hit (consumed h1 +:+ consumed h2) (rest h2) (caps h2 ++ caps h1).

Definition empty_hit (s : string) : hit := Hit EmptyString s [].

(** Greedy iteration: one more round first, then stop.  A round that
    consumes nothing is not repeated. *)
Fixpoint star_hits (step : string -> list hit) (fuel : nat) (s : string)
  : list hit :=
  match fuel with
  | O => [empty_hit s]
  | S fuel' =>
      flat_map (fun h1 =>
                  if (String.length (rest h1) <? String.length s)%nat
                  then map (then_hit h1) (star_hits step fuel' (rest h1))
                  else [])
               (step s)
      ++ [empty_hit s]
  end.

Fixpoint hits (r : regex) (s : string) : list hit :=
  match r with
  | Eps => [empty_hit s]
  | Cls p =>
      match s with
      | String c s' => if p c then [Hit (String c EmptyString) s' []] else []
      | EmptyString => []
      end
  | Cat r1 r2 =>
      flat_map (fun h1 => map (then_hit h1) (hits r2 (rest h1))) (hits r1 s)
  | Alt r1 r2 => hits r1 s ++ hits r2 s
  | Star r1 => star_hits (hits r1) (String.length s) s
  | Grp i r1 =>
      map (fun h => Hit (consumed h) (rest h) ((i, consumed h) :: caps h))
          (hits r1 s)
  | EndZ =>
      match s with
      | EmptyString => [empty_hit s]
      | String _ _ => []
      end
  end.

(** [pattern.match(s)] *)
Definition rmatch (r : regex) (s : string) : option hit := head (hits r s).

(** [m.group(i)]: [None] when the group took no part in the match. *)
Fixpoint group (i : nat) (cs : list (nat * string)) : option string :=
  match cs with
  | [] => None
  | (j, w) :: cs' => if (i =? j)%nat then Some w else group i cs'
  end.

(** Derived forms. *)
Definition Chr (a : ascii) : regex := Cls (Str.char_is a).
Definition Opt (r : regex) : regex := Alt r Eps.
Definition Plus (r : regex) : regex := Cat r (Star r).

Fixpoint Lit (s : string) : regex :=
  match s with
  | EmptyString => Eps
  | String c s' => Cat (Chr c) (Lit s')
  end.

(** [r{0,n}] *)
Fixpoint Upto (r : regex) (n : nat) : regex :=
  match n with
  | O => Eps
  | S n' => Opt (Cat r (Upto r n'))
  end.

(** [r{lo,lo+extra}] *)
Fixpoint Rep (r : regex) (lo extra : nat) : regex :=
  match lo with
  | O => Upto r extra
  | S lo' => Cat r (Rep r lo' extra)
  end.

(** [pattern.sub(template, s)] for a pattern that matches no empty
    string: leftmost matches, not overlapping. *)
Fixpoint sub_from (r : regex) (template : hit -> string) (skip : nat)
  (s : string) : string :=
  match s with
  | EmptyString => EmptyString
  | String c s' =>
      match skip with
      | S k => sub_from r template k s'
      | O =>
          match rmatch r s with
          | Some h =>
              template h +:+ sub_from r template (String.length (consumed h) - 1) s'
          | None => String c (sub_from r template 0 s')
          end
      end
  end.

Definition sub (r : regex) (template : hit -> string) (s : string) : string :=
  sub_from r template 0 s.

(** [pattern.search(s)] reduced to whether there is a match. *)
Fixpoint found (r : regex) (s : string) : bool :=
  match rmatch r s with
  | Some _ => true
  | None =>
      match s with
      | EmptyString => false
      | String _ s' => found r s'
      end
  end.

(** The words a pattern denotes, apart from the position [EndZ] asks
    for. *)
Inductive matches : regex -> string -> Prop :=
| M_eps : matches Eps EmptyString
| M_cls p c : p c = true -> matches (Cls p) (String c EmptyString)
| M_cat r1 r2 w1 w2 :
    matches r1 w1 -> matches r2 w2 -> matches (Cat r1 r2) (w1 +:+ w2)
| M_alt_l r1 r2 w : matches r1 w -> matches (Alt r1 r2) w
| M_alt_r r1 r2 w : matches r2 w -> matches (Alt r1 r2) w
| M_star_nil r : matches (Star r) EmptyString
| M_star_cons r w1 w2 :
    matches r w1 -> matches (Star r) w2 -> matches (Star r) (w1 +:+ w2)
| M_grp i r w : matches r w -> matches (Grp i r) w
| M_endz : matches EndZ EmptyString.

Fixpoint no_endz (r : regex) : bool :=
  match r with
  | Eps | Cls _ => true
  | Cat r1 r2 | Alt r1 r2 => no_endz r1 && no_endz r2
  | Star r1 | Grp _ r1 => no_endz r1
  | EndZ => false
  end.

(** A pattern without capture groups. *)
Fixpoint no_grp (r : regex) : bool :=
  match r with
  | Eps | Cls _ | EndZ => true
  | Cat r1 r2 | Alt r1 r2 => no_grp r1 && no_grp r2
  | Star r1 => no_grp r1
  | Grp _ _ => false
  end.

(** What a hit of [r] on [s] must satisfy. *)
Definition sound_hit (r : regex) (s : string) (h : hit) : Prop :=
  s = consumed h +:+ rest h /\ matches r (consumed h).

(** Every character of [s] is in the class [p]. *)
Fixpoint all_in (p : ascii -> bool) (s : string) : bool :=
  match s with
  | EmptyString => true
  | String c s' => p c && all_in p s'
  end.

(** The character classes of a [str] pattern: [\s], [[^\s]], [\d],
    [\w], and [.] under [re.S]. *)
Definition space : ascii -> bool := Str.isspace.
Definition nonspace (c : ascii) : bool := negb (Str.isspace c).
Definition digit : ascii -> bool := Str.digit09.
Definition word (c : ascii) : bool := Str.isalnum c || Str.char_is "_" c.
Definition any (c : ascii) : bool := true.

End Re.

(** ** The patterns of [tal.py] *)

Import Re.

(** [NAME = "[a-zA-Z_][-a-zA-Z0-9_]*"] *)
Definition name_start (c : ascii) : bool := Str.letter_az c || Str.char_is "_" c.
Definition name_char (c : ascii) : bool :=
  Str.char_is "-" c || Str.letter_az c || Str.digit09 c || Str.char_is "_" c.
Definition NAME : regex := Cat (Cls name_start) (Star (Cls name_char)).

(** [DEFINE_RE], with [(?s)]: optional whitespace; optionally group 1,
    [global|local], and whitespace; group 2, a [NAME] or a parenthesised
    list of [NAME]s separated by a comma and optional whitespace;
    whitespace; group 3, any characters; end of string. *)
Definition DEFINE_RE : regex :=
  Cat (Star (Cls space))
 (Cat (Opt (Cat (Grp 1 (Alt (Lit "global") (Lit "local"))) (Plus (Cls space))))
 (Cat (Grp 2 (Alt NAME
                  (Cat (Chr "(")
                  (Cat NAME
                  (Cat (Star (Cat (Chr ",") (Cat (Star (Cls space)) NAME)))
                       (Chr ")"))))))
 (Cat (Plus (Cls space))
 (Cat (Grp 3 (Star (Cls any)))
      EndZ)))).

(** [ATTR_RE], with [re.S]: optional whitespace; group 1, one or more
    non-whitespace characters; whitespace; group 2, a non-whitespace
    character and then any characters; end of string. *)
Definition ATTR_RE : regex :=
  Cat (Star (Cls space))
 (Cat (Grp 1 (Plus (Cls nonspace)))
 (Cat (Plus (Cls space))
 (Cat (Grp 2 (Cat (Cls nonspace) (Star (Cls any))))
      EndZ))).

(** [ENTITY_RE]: group 1 is the whole match: an ampersand; group 2, an
    optional [#]; group 3, an optional [x]; group 4, [\d{1,5}] or
    [\w{1,8}]; a semicolon. *)
Definition ENTITY_RE : regex :=
  Grp 1 (Cat (Chr "&")
        (Cat (Grp 2 (Opt (Chr "#")))
        (Cat (Grp 3 (Opt (Chr "x")))
        (Cat (Grp 4 (Alt (Rep (Cls digit) 1 4) (Rep (Cls word) 1 7)))
             (Chr ";"))))).

(** The characters between the ampersand and the semicolon of a match
    of [ENTITY_RE]. *)
Definition entity_char (c : ascii) : bool := Str.char_is "#" c || word c.

(** ** [split_parts] *)

(** The template [r'\1;']. *)
Definition entity_template (h : hit) : string :=
  default EmptyString (group 1 (caps h)) +:+ ";".

Definition split_parts (arg : string) : list string :=
  let arg := Re.sub ENTITY_RE entity_template arg in
  let arg := Str.replace ";;" nul arg in
  let parts := Str.split ";" arg in
  let parts := map (Str.replace nul ";") parts in
  if (1 <? length parts)%nat && Str.is_empty (Str.strip (List.last parts EmptyString))
  then removelast parts
  else parts.

(** The list [parts] of [split_parts] before its last element is looked
    at, and the deletion of a blank last element. *)
Definition raw_parts (arg : string) : list string :=
  map (Str.replace nul ";")
      (Str.split ";" (Str.replace ";;" nul (Re.sub ENTITY_RE entity_template arg))).

Definition drop_blank_last (parts : list string) : list string :=
  if (1 <? length parts)%nat && Str.is_empty (Str.strip (List.last parts EmptyString))
  then removelast parts
  else parts.

(** The parts of a text that is cut in two at a place where no part
    ends: the last part of what is before, [mid], and the first part of
    what is after make one part. *)
Definition glue (mid : string) (before after : list string) : list string :=
  removelast before
  ++ (List.last before EmptyString +:+ mid +:+ hd EmptyString after) :: tl after.

(** The parts of several pieces of a text, glued one after the other. *)
Fixpoint glue_all (mid : string) (pieces : list (list string)) : list string :=
  match pieces with
  | [] => []
  | [P] => P
  | P :: pieces' => glue mid P (glue_all mid pieces')
  end.

(** ** [parse_attributes] *)

(** A [dict] in insertion order. *)
Abbreviation odict V := (list (string * V)) (only parsing).

Fixpoint od_get {V} (d : odict V) (k : string) : option V :=
  match d with
  | [] => None
  | (k', v) :: d' => if bool_decide (k = k') then Some v else od_get d' k
  end.

(** [d[k] = v]: an existing key keeps its place, a new one goes last. *)
Fixpoint od_set {V} (d : odict V) (k : string) (v : V) : odict V :=
  match d with
  | [] => [(k, v)]
  | (k', v') :: d' =>
      if bool_decide (k = k') then (k, v) :: d' else (k', v') :: od_set d' k v
  end.

Definition od_mem {V} (d : odict V) (k : string) : bool :=
  match od_get d k with Some _ => true | None => false end.

Definition group_str (i : nat) (m : hit) : string :=
  default EmptyString (group i (caps m)).

Fixpoint parse_attributes_loop (clause : string) (parts : list string)
  (attrs : odict string) : result (odict string) :=
  match parts with
  | [] => Ok attrs
  | part :: parts' =>
      match rmatch ATTR_RE part with
      | None => Raise (LanguageError "Bad syntax in attributes." clause)
      | Some m =>
          let name := group_str 1 m in
          let expr := group_str 2 m in
          if od_mem attrs name
          then Raise (LanguageError "Duplicate attribute name in attributes." part)
          else parse_attributes_loop clause parts' (od_set attrs name expr)
      end
  end.

Definition parse_attributes (clause : string) : result (odict string) :=
  parse_attributes_loop clause (split_parts clause) [].

(** The name and the expression [ATTR_RE] finds in a part. *)
Definition attr_pair (part : string) : option (string * string) :=
  match rmatch ATTR_RE part with
  | Some m => Some (group_str 1 m, group_str 2 m)
  | None => None
  end.

(** The parts and, one for one, the pairs found in them. *)
Abbreviation parts_pairs :=
  (Forall2 (fun (part : string) (pr : string * string) => attr_pair part = Some pr))
  (only parsing).

(** The grammar of a part as [ATTR_RE] has it: optional whitespace, a
    name of non-whitespace characters, whitespace, an expression that
    begins with a character that is not whitespace, to the end. *)
Definition attr_shape (part name expr : string) : Prop :=
  exists ws ws' : string,
    part = ws +:+ name +:+ ws' +:+ expr /\
    all_in space ws = true /\
    name <> EmptyString /\ all_in nonspace name = true /\
    ws' <> EmptyString /\ all_in space ws' = true /\
    (exists c r, expr = String c r /\ nonspace c = true).

(** The grammar in the words of the specification, which asks of the
    expression only that it is not empty. *)
Definition attr_shape_spec (part name expr : string) : Prop :=
  exists ws ws' : string,
    part = ws +:+ name +:+ ws' +:+ expr /\
    all_in space ws = true /\
    name <> EmptyString /\ all_in nonspace name = true /\
    ws' <> EmptyString /\ all_in space ws' = true /\
    expr <> EmptyString.

(** [";".join(parts)], by which a clause is written from its parts. *)
Fixpoint join (parts : list string) : string :=
  match parts with
  | [] => EmptyString
  | [p] => p
  | p :: parts' => p +:+ ";" +:+ join parts'
  end.

(** A part as a clause is written with: not empty, and free of
    semicolon, NUL and ampersand. *)
Definition plain_part (p : string) : Prop :=
  p <> EmptyString /\ Str.mem ";" p = false /\ Str.mem Str.NUL p = false
  /\ Str.mem "&" p = false.

(** A name and an expression as an attributes clause is written with:
    the name without whitespace, the expression not beginning with it,
    both not empty and plain. *)
Definition plain_attr (pair : string * string) : Prop :=
  plain_part (fst pair) /\ all_in nonspace (fst pair) = true /\
  plain_part (snd pair) /\ Str.lstrip_by Str.isspace (snd pair) = snd pair.

(** The part [name expr] of an attributes clause. *)
Definition attr_part (pair : string * string) : string :=
  fst pair +:+ " " +:+ snd pair.

(** ** [parse_substitution] *)

(** [SUBST_RE], with [re.S]: optional whitespace; optionally group 1,
    [text|structure], and whitespace; group 2, any characters; end of
    string. *)
Definition SUBST_RE : regex :=
  Cat (Star (Cls space))
 (Cat (Opt (Cat (Grp 1 (Alt (Lit "text") (Lit "structure"))) (Plus (Cls space))))
 (Cat (Grp 2 (Star (Cls any)))
      EndZ)).

(** The pieces of [SUBST_RE] after the leading whitespace. *)
Abbreviation KEYWORD := (Alt (Lit "text") (Lit "structure")) (only parsing).
Abbreviation KEYWORD_PART := (Cat (Grp 1 KEYWORD) (Plus (Cls space))) (only parsing).
Abbreviation EXPRESSION_PART := (Cat (Grp 2 (Star (Cls any))) EndZ) (only parsing).

Definition parse_substitution (clause : string) : result (string * string) :=
  match rmatch SUBST_RE clause with
  | None => Raise (LanguageError "Invalid content substitution syntax." clause)
  | Some m =>
      let key := group 1 (caps m) in
      let expression := group_str 2 m in
      let key :=
        match key with
        | Some k => if Str.is_empty k then "text" else k
        | None => "text"
        end in
      Ok (key, expression)
  end.

(** ** [parse_defines] *)

(** The names of a definition are a tuple on one path of the code and a
    list on the other; Python's [==] tells them apart. *)
Inductive pyseq :=
| PyTuple (l : list string)
| PyList (l : list string).

Definition seq_items (q : pyseq) : list string :=
  match q with PyTuple l | PyList l => l end.

Abbreviation define := (string * pyseq * string)%type (only parsing).

Definition define_of_match (m : hit) : define :=
  let context :=
    match group 1 (caps m) with
    | Some c => if Str.is_empty c then "local" else c
    | None => "local"
    end in
  let name := group_str 2 m in
  let expr := group_str 3 m in
  let names :=
    if Str.startswith "(" name
    then PyList (map Str.strip (Str.split "," (Str.strip_chars "()" name)))
    else PyTuple [name] in
  (context, names, expr).

(** [None] is Python's [None], returned by the bare [return]. *)
Fixpoint parse_defines_loop (parts : list string) (defines : list define)
  : option (list define) :=
  match parts with
  | [] => Some defines
  | part :: parts' =>
      match rmatch DEFINE_RE part with
      | None => None
      | Some m => parse_defines_loop parts' (defines ++ [define_of_match m])
      end
  end.

Definition parse_defines (clause : string) : option (list define) :=
  parse_defines_loop (split_parts clause) [].

(** The triple [DEFINE_RE] and the code make of a part. *)
Definition define_of_part (part : string) : option define :=
  match rmatch DEFINE_RE part with
  | Some m => Some (define_of_match m)
  | None => None
  end.

(** The parts and, one for one, the triples made of them. *)
Abbreviation parts_defines :=
  (Forall2 (fun (part : string) (d : define) => define_of_part part = Some d))
  (only parsing).

(** The alternatives of group 2 of [DEFINE_RE]. *)
Definition NAME_LIST : regex :=
  Cat (Chr "(")
 (Cat NAME
 (Cat (Star (Cat (Chr ",") (Cat (Star (Cls space)) NAME)))
      (Chr ")"))).

(** The text of the further names of a parenthesised list: each a
    comma, whitespace [ws] and a name [n]. *)
Fixpoint name_tail (items : list (string * string)) : string :=
  match items with
  | [] => EmptyString
  | (ws, n) :: items' => "," +:+ ws +:+ n +:+ name_tail items'
  end.

(** A string that [strip] leaves as it is. *)
Definition trimmed (s : string) : Prop := Str.strip s = s.

(** A define as a clause is written with: the scope keyword, the name,
    and an expression that is plain or empty and does not begin with
    whitespace. *)
Definition plain_define (d : string * string * string) : Prop :=
  let '(scope, name, expr) := d in
  (scope = "global" \/ scope = "local") /\
  (exists c r, name = String c r /\ name_start c = true /\ all_in name_char r = true) /\
  Str.mem ";" expr = false /\ Str.mem Str.NUL expr = false /\ Str.mem "&" expr = false /\
  Str.lstrip_by Str.isspace expr = expr.

(** The part [scope name expr] of a define clause, and the triple
    [parse_defines] makes of it. *)
Definition define_part (d : string * string * string) : string :=
  let '(scope, name, expr) := d in scope +:+ " " +:+ name +:+ " " +:+ expr.

Definition define_triple (d : string * string * string) : define :=
  let '(scope, name, expr) := d in (scope, PyTuple [name], expr).

(** ** [prepare_attributes] *)

(** An attribute record of the tokenizer. *)
Record attribute := Attribute {
  attr_name : string;
  attr_value : string;
  attr_quote : string;
  attr_space : string;
  attr_eq : string
}.

(** The 5-tuple [(text, quote, space, eq, expr)]. *)
Record prepared := Prepared {
  p_text : option string;
  p_quote : string;
  p_space : string;
  p_eq : string;
  p_expr : option string
}.

(** The one-character string holding a double quote. *)
Definition dquote : string := String (ascii_of_nat 34) EmptyString.

Section PrepareAttributes.

(** [XMLNS_NS] is imported from [chameleon.namespaces]. *)
Variable XMLNS_NS : string.

Definition dropped (drop_ns : gset string) (pair : attribute * (string * string))
  : bool :=
  let '(attribute, (ns, value)) := pair in
  bool_decide (ns ∈ drop_ns)
  || (bool_decide (ns = XMLNS_NS) && bool_decide (attr_value attribute ∈ drop_ns)).

Definition drop_set (attrs : list attribute)
  (ns_attributes : list (string * string)) (drop_ns : gset string)
  : gset string :=
  list_to_set
    (map (fun pair => attr_name (fst pair))
         (List.filter (dropped drop_ns) (zip attrs ns_attributes))).

Fixpoint static_loop (drop : gset string) (attrs : list attribute)
  (attributes : odict prepared) : odict prepared :=
  match attrs with
  | [] => attributes
  | attribute :: attrs' =>
      let name := attr_name attribute in
      if bool_decide (name ∈ drop) then static_loop drop attrs' attributes
      else
        static_loop drop attrs'
          (od_set attributes name
             (Prepared (Some (attr_value attribute)) (attr_quote attribute)
                (attr_space attribute) (attr_eq attribute) None))
  end.

Fixpoint dynamic_loop (items : list (string * string))
  (attributes : odict prepared) : odict prepared :=
  match items with
  | [] => attributes
  | (name, expr) :: items' =>
      let entry :=
        match od_get attributes name with
        | Some (Prepared text quote space eq _) =>
            Prepared text quote space eq (Some expr)
        | None => Prepared None dquote " " "=" (Some expr)
        end in
      dynamic_loop items' (od_set attributes name entry)
  end.

(** [dyn_attributes] is given by its [items()]. *)
Definition prepare_attributes (attrs : list attribute)
  (dyn_attributes : list (string * string))
  (ns_attributes : list (string * string)) (drop_ns : gset string)
  : odict prepared :=
  let drop := drop_set attrs ns_attributes drop_ns in
  let attributes := static_loop drop attrs [] in
  dynamic_loop dyn_attributes attributes.

End PrepareAttributes.

(** A kept static attribute as an entry of the result, the test that
    keeps it, and what a dynamic expression makes of the entry it
    finds. *)
Definition static_entry (a : attribute) : string * prepared :=
  (attr_name a,
   Prepared (Some (attr_value a)) (attr_quote a) (attr_space a) (attr_eq a) None).

Definition kept (drop : gset string) (a : attribute) : bool :=
  negb (bool_decide (attr_name a ∈ drop)).

Definition with_expr (old : option prepared) (expr : string) : prepared :=
  match old with
  | Some (Prepared text quote space eq _) => Prepared text quote space eq (Some expr)
  | None => Prepared None dquote " " "=" (Some expr)
  end.

(** ** The repeat runtime: values, cursors and the heap *)

(** The values a template can hand to [repeat]. *)
Inductive value :=
| VNone
| VInt (z : Z)
| VStr (s : string)
| VSeq (items : list value).

(** [type(v).__name__] *)
Definition type_name (v : value) : string :=
  match v with
  | VNone => "NoneType"
  | VInt _ => "int"
  | VStr _ => "str"
  | VSeq _ => "list"
  end.

(** [repr] of a string without quotes or escapes in it. *)
Definition repr_str (s : string) : string := "'" +:+ s +:+ "'".

Fixpoint chars (s : string) : list value :=
  match s with
  | EmptyString => []
  | String c s' => VStr (String c EmptyString) :: chars s'
  end.

(** [tuple(v)] *)
Definition py_tuple (v : value) : result (list value) :=
  match v with
  | VSeq items => Ok items
  | VStr s => Ok (chars s)
  | VNone | VInt _ =>
      Raise (TypeError (repr_str (type_name v) +:+ " object is not iterable"))
  end.

Abbreviation addr := nat (only parsing).

(** The iterator of a tuple: the tuple and the index of the next element. *)
Record tupleiterator := TupleIterator {
  it_seq : list value;
  it_index : nat
}.

Module RepeatItem.
(** [__slots__ = "length", "_iterator"] *)
Record t := Make {
  length : Z;
  _iterator : addr
}.
End RepeatItem.

Inductive obj :=
| OIter (it : tupleiterator)
| OItem (item : RepeatItem.t).

(** Allocation appends: the address of a new object is the size of the
    heap before it. *)
Abbreviation heap := (list obj) (only parsing).

Definition alloc (h : heap) (o : obj) : addr * heap := (List.length h, h ++ [o]).

(** [next(cursor)], the step by which the render loop advances a cursor. *)
Definition cursor_next (h : heap) (a : addr) : result value * heap :=
  match h !! a with
  | Some (OIter it) =>
      match it_seq it !! it_index it with
      | Some v => (Ok v, <[a := OIter (TupleIterator (it_seq it) (S (it_index it)))]> h)
      | None => (Raise StopIteration, h)
      end
  | _ => (Raise (TypeError "object is not an iterator"), h)
  end.

(** [cursor.__len__()] or [cursor.__length_hint__()]: the elements left. *)
Definition cursor_len (h : heap) (a : addr) : result Z :=
  match h !! a with
  | Some (OIter it) => Ok (Z.of_nat (List.length (it_seq it) - it_index it))
  | _ => Raise (AttributeError "__len__")
  end.

(** ** [RepeatItem] *)

(** Modelled from the spec: [descriptorint] and [descriptorstr] of
    [chameleon.utils] are not in the source; the specification treats
    them as producing the wrapped method's value, behaving as an int or
    a string. *)
Definition descriptorint {A} (f : A) : A := f.
Definition descriptorstr {A} (f : A) : A := f.

(** [chr(n)] for the code points of the model; [letter] and [Letter]
    stay below 123. *)
Definition chr (n : Z) : result ascii :=
  if (0 <=? n) && (n <? 256) then Ok (ascii_of_nat (Z.to_nat n))
  else Raise (ValueError "chr() arg not in range(256)").

Definition ord (c : ascii) : Z := Z.of_nat (nat_of_ascii c).

Definition lower_char (c : ascii) : ascii :=
  if Str.in_range "A" "Z" c || Str.in_range "192" "214" c || Str.in_range "216" "222" c
  then ascii_of_nat (nat_of_ascii c + 32) else c.

Fixpoint lower (s : string) : string :=
  match s with
  | EmptyString => EmptyString
  | String c s' => String (lower_char c) (lower s')
  end.

Section RepeatItemMethods.

Variable h : heap.
Variable self : RepeatItem.t.

Definition index : result Z :=
  try! remaining := cursor_len h (RepeatItem._iterator self) in
  Ok (RepeatItem.length self - remaining - 1).

Definition start : result bool :=
  try! i := index in Ok (i =? 0).

Definition end_ : result bool :=
  try! i := index in Ok (i =? RepeatItem.length self - 1).

Definition number : result Z :=
  descriptorint (try! i := index in Ok (i + 1)).

Definition odd : result string :=
  descriptorstr (try! i := index in Ok (if i mod 2 =? 1 then "odd" else "")).

Definition even : result string :=
  descriptorstr (try! i := index in Ok (if i mod 2 =? 0 then "even" else "")).

Definition next : result value :=
  Raise (NotImplementedError "Method not implemented (can't update local variable).").

(** The [while 1] loop of [_letter]; [None] when the fuel is used up
    before the loop returns. *)
Fixpoint letter_loop (fuel : nat) (base radix index : Z) (s : string)
  : option (result string) :=
  match fuel with
  | O => None
  | S fuel' =>
      if radix =? 0 then Some (Raise ZeroDivisionError)
      else
        let off := index mod radix in
        let index := index / radix in
        match chr (base + off) with
        | Raise e => Some (Raise e)
        | Ok c =>
            let s := String c s in
            if index =? 0 then Some (Ok s)
            else letter_loop fuel' base radix index s
        end
  end.

(** [None]: the loop does not return (a radix of 1, say); with the
    radix of the callers, 26, it always does. *)
Definition _letter (base radix : Z) : option (result string) :=
  match index with
  | Raise e => Some (Raise e)
  | Ok index =>
      if index <? 0 then Some (Raise (TypeError "No iteration position"))
      else letter_loop (S (Z.to_nat index)) base radix index EmptyString
  end.

Definition letter : option (result string) :=
  descriptorstr (_letter (ord "a") 26).

Definition Letter : option (result string) :=
  descriptorstr (_letter (ord "A") 26).

Definition rnvalues : list (Z * string) :=
  [(1000, "M"); (900, "CM"); (500, "D"); (400, "CD");
   (100, "C"); (90, "XC"); (50, "L"); (40, "XL");
   (10, "X"); (9, "IX"); (5, "V"); (4, "IV"); (1, "I")].

Fixpoint roman_loop (rnvalues : list (Z * string)) (n : Z) (s : string) : string :=
  match rnvalues with
  | [] => s
  | (v, r) :: rnvalues' =>
      let rct := n / v in
      let n := n mod v in
      roman_loop rnvalues' n (s +:+ Str.repeat r (Z.to_nat rct))
  end.

Definition Roman : result string :=
  descriptorstr (try! i := index in Ok (roman_loop rnvalues (i + 1) EmptyString)).

Definition roman : result string :=
  descriptorstr (try! s := Roman in Ok (lower s)).

End RepeatItemMethods.

(** The number a label of [letter] or [Letter] stands for: its
    characters are digits in base 26, counted from [base]. *)
Fixpoint letter_value (base : Z) (acc : Z) (s : string) : Z :=
  match s with
  | EmptyString => acc
  | String c s' => letter_value base (acc * 26 + (ord c - base)) s'
  end.

(** The number a Roman numeral stands for: a symbol smaller than the
    one after it is subtracted. *)
Definition roman_symbol (c : ascii) : Z :=
  match c with
  | "I" => 1 | "V" => 5 | "X" => 10 | "L" => 50
  | "C" => 100 | "D" => 500 | "M" => 1000
  | _ => 0
  end%char.

Fixpoint roman_value (s : string) : Z :=
  match s with
  | EmptyString => 0
  | String c s' =>
      match s' with
      | String d _ =>
          if roman_symbol c <? roman_symbol d
          then roman_value s' - roman_symbol c
          else roman_value s' + roman_symbol c
      | EmptyString => roman_symbol c
      end
  end.

(** The render loop: [n] calls of [next] on a cursor; the values they
    gave, until one raised, and the heap. *)
Fixpoint advance (n : nat) (h : heap) (it : addr) : list value * heap :=
  match n with
  | O => ([], h)
  | S n' =>
      match cursor_next h it with
      | (Ok v, h') => let '(vs, h'') := advance n' h' it in (v :: vs, h'')
      | (Raise _, h') => ([], h')
      end
  end.

(** ** [RepeatDict] *)

(** The entry [(iterator, length, repeat)]; [repeat] is [None] until the
    first lookup. *)
Abbreviation entry := (addr * Z * option addr)%type (only parsing).

Record state := State {
  st_heap : heap;
  st_dict : gmap string entry
}.

(** [RepeatDict.__call__] *)
Definition __call__ (st : state) (key : string) (iterable : value)
  : result (addr * Z) * state :=
  let coerced :=
    match py_tuple iterable with
    | Ok items => Ok items
    | Raise (TypeError _) =>
        match iterable with
        | VNone => Ok []
        | _ =>
            Raise (TypeError (repr_str (type_name iterable)
                              +:+ " object is not iterable"))
        end
    | Raise e => Raise e
    end in
  match coerced with
  | Raise e => (Raise e, st)
  | Ok items =>
      let length := Z.of_nat (List.length items) in
      let '(iterator, h) := alloc (st_heap st) (OIter (TupleIterator items 0)) in
      (Ok (iterator, length),
       State h (<[key := (iterator, length, None)]> (st_dict st)))
  end.

(** [RepeatDict.__getitem__], also [__getattr__] *)
Definition __getitem__ (st : state) (key : string) : result addr * state :=
  match st_dict st !! key with
  | None => (Raise (KeyError key), st)
  | Some (iterator, length, Some repeat) => (Ok repeat, st)
  | Some (iterator, length, None) =>
      let '(repeat, h) := alloc (st_heap st) (OItem (RepeatItem.Make length iterator)) in
      (Ok repeat, State h (<[key := (iterator, length, Some repeat)]> (st_dict st)))
  end.

(** [RepeatDict.get]; the default is an address or nothing. *)
Definition get (st : state) (key : string) (default : option addr)
  : result (option addr) * state :=
  match st_dict st !! key with
  | None => (Ok default, st)
  | Some _ =>
      let '(r, st') := __getitem__ st key in
      (try! a := r in Ok (Some a), st')
  end.

Definition empty_state : state := State [] ∅.

(** What a registration makes of a value it accepts: the elements of an
    iterable, nothing for [None]. *)
Definition registers (v : value) (items : list value) : Prop :=
  py_tuple v = Ok items \/ (v = VNone /\ items = []).

(** A state as the operations keep it: the cursor of an entry is in the
    heap, over as many elements as the entry says and not beyond them;
    the item of an entry, if there is one, is in the heap with the
    entry's length and cursor. *)
Definition wf_entry (h : heap) (e : entry) : Prop :=
  let '(iterator, length, repeat) := e in
  (exists (items : list value) (pos : nat),
     h !! iterator = Some (OIter (TupleIterator items pos)) /\
     length = Z.of_nat (List.length items) /\ (pos <= List.length items)%nat) /\
  match repeat with
  | Some a => h !! a = Some (OItem (RepeatItem.Make length iterator))
  | None => True
  end.

Definition wf_state (st : state) : Prop :=
  forall (key : string) (e : entry),
    st_dict st !! key = Some e -> wf_entry (st_heap st) e.

(** The [RepeatItem] stored at an address. *)
Definition item_at (h : heap) (a : addr) : option RepeatItem.t :=
  match h !! a with
  | Some (OItem item) => Some item
  | _ => None
  end.

(** * Verification *)

(** ** Strings *)

Lemma sapp_nil_l (s : string) : EmptyString +:+ s = s.
Proof. reflexivity. Qed.

Lemma sapp_cons (c : ascii) (s t : string) : String c s +:+ t = String c (s +:+ t).
Proof. reflexivity. Qed.

Lemma sapp_nil_r (s : string) : s +:+ EmptyString = s.
Proof. induction s as [|c s IH]; [done|]. by rewrite sapp_cons, IH. Qed.

Lemma sapp_assoc (s t u : string) : (s +:+ t) +:+ u = s +:+ (t +:+ u).
Proof. induction s as [|c s IH]; [done|]. by rewrite !sapp_cons, IH. Qed.

Lemma slength_app (s t : string) :
  String.length (s +:+ t) = (String.length s + String.length t)%nat.
Proof. induction s as [|c s IH]; [done|]. rewrite sapp_cons. simpl. by rewrite IH. Qed.

Lemma sapp_inv_head (s t u : string) : s +:+ t = s +:+ u -> t = u.
Proof. induction s as [|c s IH]; [done|]. rewrite !sapp_cons. intros [= H]. auto. Qed.

Lemma all_in_app (p : ascii -> bool) (s t : string) :
  all_in p (s +:+ t) = all_in p s && all_in p t.
Proof.
  induction s as [|c s IH]; [done|]. rewrite sapp_cons. simpl.
  by rewrite IH, andb_assoc.
Qed.

(** ** The matcher *)

Module ReFacts.

Lemma star_hits_sound (r : regex) (step : string -> list hit) :
  (forall s h, In h (step s) -> sound_hit r s h) ->
  forall fuel s h, In h (star_hits step fuel s) -> sound_hit (Star r) s h.
Proof.
  intros Hstep fuel.
  induction fuel as [|fuel IH]; intros s h; simpl.
  - intros [<-|[]]. split; [done|constructor].
  - intros Hin. apply in_app_or in Hin as [Hin|[<-|[]]];
      [|split; [done|constructor]].
    apply in_flat_map in Hin as (h1 & Hh1 & Hin).
    destruct (String.length (rest h1) <? String.length s)%nat; [|done].
    apply in_map_iff in Hin as (h2 & <- & Hh2).
    destruct (Hstep _ _ Hh1) as [E1 M1], (IH _ _ Hh2) as [E2 M2].
    split; simpl.
    + by rewrite sapp_assoc, <- E2.
    + by constructor.
Qed.

(** Every hit splits the subject into what it consumed and what it left,
    and what it consumed is a word of the pattern. *)
Lemma hits_sound (r : regex) : forall s h, In h (hits r s) -> sound_hit r s h.
Proof.
  induction r as [|p|r1 IH1 r2 IH2|r1 IH1 r2 IH2|r IH|i r IH|]; intros s h; simpl.
  - intros [<-|[]]. split; [done|constructor].
  - destruct s as [|c s]; [done|]. destruct (p c) eqn:E; [|done].
    intros [<-|[]]. split; [done|by constructor].
  - intros Hin. apply in_flat_map in Hin as (h1 & Hh1 & Hin).
    apply in_map_iff in Hin as (h2 & <- & Hh2).
    destruct (IH1 _ _ Hh1) as [E1 M1], (IH2 _ _ Hh2) as [E2 M2].
    split; simpl.
    + by rewrite sapp_assoc, <- E2.
    + by constructor.
  - intros Hin. apply in_app_or in Hin as [Hin|Hin].
    + destruct (IH1 _ _ Hin). split; [done|by apply M_alt_l].
    + destruct (IH2 _ _ Hin). split; [done|by apply M_alt_r].
  - apply star_hits_sound, IH.
  - intros Hin. apply in_map_iff in Hin as (h1 & <- & Hh1).
    destruct (IH _ _ Hh1). split; [done|by constructor].
  - destruct s; [|done]. intros [<-|[]]. split; [done|constructor].
Qed.

Lemma rmatch_sound (r : regex) (s : string) (h : hit) :
  rmatch r s = Some h -> sound_hit r s h.
Proof.
  unfold rmatch. intros H. apply hits_sound.
  destruct (hits r s) as [|h0 l]; [done|]. injection H as ->. by left.
Qed.

(** Beyond the size of the subject the fuel of an iteration is idle. *)
Lemma star_hits_fuel (step : string -> list hit) :
  forall fuel1 fuel2 s,
    (String.length s <= fuel1)%nat -> (String.length s <= fuel2)%nat ->
    star_hits step fuel1 s = star_hits step fuel2 s.
Proof.
  assert (Hnil : forall fuel s, String.length s = 0%nat ->
            star_hits step fuel s = [empty_hit s]).
  { intros [|fuel] s Hs; simpl; [done|].
    rewrite Hs.
    induction (step s) as [|a l IHl]; [done|]. simpl. exact IHl. }
  induction fuel1 as [|fuel1 IH]; intros fuel2 s H1 H2.
  - rewrite (Hnil fuel2) by lia. done.
  - destruct fuel2 as [|fuel2]; [rewrite (Hnil (S fuel1)) by lia; done|].
    simpl. f_equal. apply flat_map_ext. intros h1.
    destruct (String.length (rest h1) <? String.length s)%nat eqn:E; [|done].
    apply Nat.ltb_lt in E. f_equal. apply IH; lia.
Qed.

(** A word of the pattern at the head of the subject is found by some
    hit, whatever follows it. *)
Lemma hits_complete (r : regex) (w : string) :
  matches r w -> no_endz r = true ->
  forall t, exists h, In h (hits r (w +:+ t)) /\ consumed h = w /\ rest h = t.
Proof.
  induction 1 as [|p c Hp|r1 r2 w1 w2 _ IH1 _ IH2|r1 r2 w _ IH|r1 r2 w _ IH
                 |r|r w1 w2 _ IH1 _ IH2|i r w _ IH|]; simpl; intros Hz t.
  - eexists. split; [by left|done].
  - rewrite Hp. eexists. split; [by left|done].
  - apply andb_true_iff in Hz as [Hz1 Hz2].
    destruct (IH1 Hz1 (w2 +:+ t)) as (h1 & Hin1 & Hc1 & Hr1).
    destruct (IH2 Hz2 t) as (h2 & Hin2 & Hc2 & Hr2).
    exists (then_hit h1 h2). rewrite sapp_assoc. split; [|by simpl; subst].
    apply in_flat_map. exists h1. split; [done|].
    apply in_map. by rewrite Hr1.
  - apply andb_true_iff in Hz as [Hz1 Hz2].
    destruct (IH Hz1 t) as (h & Hin & Hc & Hr).
    exists h. split; [|done]. apply in_or_app. by left.
  - apply andb_true_iff in Hz as [Hz1 Hz2].
    destruct (IH Hz2 t) as (h & Hin & Hc & Hr).
    exists h. split; [|done]. apply in_or_app. by right.
  - exists (empty_hit t). split; [|done].
    rewrite sapp_nil_l.
    destruct (String.length t); simpl; [by left|].
    apply in_or_app. right. by left.
  - destruct (IH2 Hz t) as (h2 & Hin2 & Hc2 & Hr2). simpl in Hin2.
    destruct w1 as [|c w1]; [by exists h2|].
    destruct (IH1 Hz (w2 +:+ t)) as (h1 & Hin1 & Hc1 & Hr1).
    exists (then_hit h1 h2). rewrite sapp_assoc.
    split; [|simpl; by rewrite Hc1, Hc2, Hr2].
    rewrite sapp_cons in *. simpl. apply in_or_app. left.
    apply in_flat_map. exists h1. split; [done|].
    rewrite Hr1.
    replace (String.length (w2 +:+ t) <? S (String.length (w1 +:+ w2 +:+ t)))%nat
      with true.
    2:{ symmetry. apply Nat.ltb_lt. rewrite !slength_app. lia. }
    apply in_map.
    rewrite (star_hits_fuel _ _ (String.length (w2 +:+ t))); [done| |done].
    rewrite !slength_app. lia.
  - destruct (IH Hz t) as (h & Hin & Hc & Hr).
    eexists. split; [apply in_map_iff; exists h; split; [reflexivity|done]|].
    by simpl.
  - done.
Qed.

End ReFacts.

(** ** Heap lemmas *)

Lemma lookup_alloc (h : heap) (o : obj) :
  (h ++ [o]) !! List.length h = Some o.
Proof. by rewrite list_lookup_middle. Qed.

Lemma lookup_alloc_old (h : heap) (o : obj) (a : addr) :
  (a < List.length h)%nat -> (h ++ [o]) !! a = h !! a.
Proof. intros. by rewrite lookup_app_l. Qed.

Lemma insert_alloc (h : heap) (o o' : obj) :
  <[List.length h := o']> (h ++ [o]) = h ++ [o'].
Proof.
  rewrite insert_app_r_alt by lia.
  by rewrite Nat.sub_diag.
Qed.

Lemma cursor_len_alloc (h : heap) (seq : list value) (pos : nat) :
  cursor_len (h ++ [OIter (TupleIterator seq pos)]) (List.length h)
  = Ok (Z.of_nat (List.length seq - pos)).
Proof. unfold cursor_len. by rewrite lookup_alloc. Qed.

Lemma cursor_next_alloc (h : heap) (seq : list value) (pos : nat) (v : value) :
  seq !! pos = Some v ->
  cursor_next (h ++ [OIter (TupleIterator seq pos)]) (List.length h)
  = (Ok v, h ++ [OIter (TupleIterator seq (S pos))]).
Proof.
  intros Hv. unfold cursor_next. rewrite lookup_alloc. simpl.
  rewrite Hv. by rewrite insert_alloc.
Qed.

Lemma index_alloc (h : heap) (seq : list value) (pos : nat) (len : Z) :
  index (h ++ [OIter (TupleIterator seq pos)]) (RepeatItem.Make len (List.length h))
  = Ok (len - Z.of_nat (List.length seq - pos) - 1).
Proof. unfold index. simpl. by rewrite cursor_len_alloc. Qed.
(** ** [RepeatItem] *)

(** The letter loop returns once the fuel exceeds the index, whatever
    the string built so far, for a radix of 2 or more and a base that
    keeps every digit a character. *)
Lemma letter_loop_returns (base radix : Z) :
  2 <= radix -> 0 <= base -> base + radix <= 256 ->
  forall (fuel : nat) (i : Z) (s : string),
    0 <= i -> (Z.to_nat i < fuel)%nat ->
    exists s', letter_loop fuel base radix i s = Some (Ok s').
Proof.
  intros Hr Hb Hbr fuel. induction fuel as [|fuel IH]; intros i s Hi Hf; [lia|].
  simpl. destruct (radix =? 0) eqn:E; [lia|].
  pose proof (Z.mod_pos_bound i radix ltac:(lia)) as Hm.
  unfold chr.
  replace ((0 <=? base + i mod radix) && (base + i mod radix <? 256)) with true
    by (symmetry; apply andb_true_iff; split; lia).
  destruct (i / radix =? 0) eqn:E0; [eauto|].
  apply IH.
  - apply Z.div_pos; lia.
  - assert (i / radix < i).
    { apply Z.div_lt; [|lia]. destruct (Z.eq_dec i 0) as [->|]; [|lia].
      rewrite Z.div_0_l in E0 by lia. lia. }
    assert (0 <= i / radix) by (apply Z.div_pos; lia). lia.
Qed.

(** Reading [letter] or [Letter] always returns or raises: the loop
    never runs out of fuel. *)
Lemma letter_total (h : heap) (self : RepeatItem.t) :
  (exists r, letter h self = Some r) /\ (exists r, Letter h self = Some r).
Proof.
  unfold letter, Letter, descriptorstr, _letter.
  destruct (index h self) as [i|e]; [|eauto].
  destruct (i <? 0) eqn:E; [eauto|].
  split.
  - destruct (letter_loop_returns (ord "a") 26 ltac:(lia) ltac:(vm_compute; congruence)
      ltac:(vm_compute; congruence) (S (Z.to_nat i)) i EmptyString ltac:(lia) ltac:(lia))
      as [s' ->]. eauto.
  - destruct (letter_loop_returns (ord "A") 26 ltac:(lia) ltac:(vm_compute; congruence)
      ltac:(vm_compute; congruence) (S (Z.to_nat i)) i EmptyString ltac:(lia) ltac:(lia))
      as [s' ->]. eauto.
Qed.

(** A cursor that has not been advanced, or an empty sequence, gives the
    index -1. *)
Lemma index_not_advanced (h : heap) (seq : list value) :
  index (h ++ [OIter (TupleIterator seq 0)])
        (RepeatItem.Make (Z.of_nat (List.length seq)) (List.length h)) = Ok (-1).
Proof. rewrite index_alloc. f_equal. lia. Qed.

(** C2, as the code has it: with a negative index, reading [letter] or
    [Letter] raises [TypeError] with the message [No iteration
    position]. *)
Theorem letter_negative_index_TypeError (h : heap) (self : RepeatItem.t) (i : Z) :
  index h self = Ok i -> i < 0 ->
  letter h self = Some (Raise (TypeError "No iteration position")) /\
  Letter h self = Some (Raise (TypeError "No iteration position")).
Proof.
  intros Hi Hneg. unfold letter, Letter, descriptorstr, _letter. rewrite Hi.
  by replace (i <? 0) with true by lia.
Qed.

Lemma letter_negative_index_TypeError_witness :
  let h := [OIter (TupleIterator [] 0)] in
  let self := RepeatItem.Make 0 0%nat in
  letter h self = Some (Raise (TypeError "No iteration position")) /\
  Letter h self = Some (Raise (TypeError "No iteration position")).
Proof.
  apply (letter_negative_index_TypeError _ _ (-1)); [reflexivity | lia].
Defined.

(** C2 as stated fails: over an empty sequence the index is -1 and
    [letter] raises [TypeError], not [ValueError]; so it does for a
    cursor over three elements that has not been advanced. *)
Lemma letter_negative_index_not_ValueError :
  (let h := [OIter (TupleIterator [] 0)] in
   let self := RepeatItem.Make 0 0%nat in
   index h self = Ok (-1) /\
   ~ (exists msg, letter h self = Some (Raise (ValueError msg))) /\
   ~ (exists msg, Letter h self = Some (Raise (ValueError msg)))) /\
  (let h := [OIter (TupleIterator [VInt 1; VInt 2; VInt 3] 0)] in
   let self := RepeatItem.Make 3 0%nat in
   index h self = Ok (-1) /\
   ~ (exists msg, letter h self = Some (Raise (ValueError msg))) /\
   ~ (exists msg, Letter h self = Some (Raise (ValueError msg)))).
Proof.
  repeat split; try reflexivity; intros [msg H]; vm_compute in H; congruence.
Qed.

(** The cursor of a fresh tuple advanced [n] times by the render loop. *)
Lemma cursor_advance (h : heap) (seq : list value) (pos : nat) (v : value) :
  seq !! pos = Some v ->
  snd (cursor_next (h ++ [OIter (TupleIterator seq pos)]) (List.length h))
  = h ++ [OIter (TupleIterator seq (S pos))].
Proof. intros Hv. by rewrite (cursor_next_alloc _ _ _ v). Qed.

(** [index] is [length - remaining - 1], read from the cursor as it is
    in the heap at the moment of the read. *)
Lemma index_recomputed (h : heap) (self : RepeatItem.t) (remaining : Z) :
  cursor_len h (RepeatItem._iterator self) = Ok remaining ->
  index h self = Ok (RepeatItem.length self - remaining - 1).
Proof. intros H. unfold index. by rewrite H. Qed.

(** C3: a [RepeatItem] over a 4-element sequence, its cursor advanced by
    [next] from outside.  After one step: index 0, start, not end,
    number 1, odd empty, even [even], letter [a], Roman [I].  After four
    steps: index 3, end, letter [d], Roman [IV].  An item whose index is
    26 has letter [ba].  Each read takes the cursor's remaining count
    from the heap: the same item gives index [k - 1] after [k] steps. *)
Theorem repeat_item_four_elements (h : heap) (v1 v2 v3 v4 : value) :
  let seq := [v1; v2; v3; v4] in
  let '(it, h0) := alloc h (OIter (TupleIterator seq 0)) in
  let self := RepeatItem.Make 4 it in
  let step h := snd (cursor_next h it) in
  let h1 := step h0 in
  let h4 := step (step (step h1)) in
  (index h1 self = Ok 0 /\ start h1 self = Ok true /\ end_ h1 self = Ok false /\
   number h1 self = Ok 1 /\ odd h1 self = Ok "" /\ even h1 self = Ok "even" /\
   letter h1 self = Some (Ok "a") /\ Roman h1 self = Ok "I") /\
  (index h4 self = Ok 3 /\ end_ h4 self = Ok true /\
   letter h4 self = Some (Ok "d") /\ Roman h4 self = Ok "IV") /\
  (index h0 self = Ok (-1) /\ index (step h1) self = Ok 1 /\
   index (step (step h1)) self = Ok 2) /\
  (forall (seq' : list value) (pos : nat),
     let h' := h ++ [OIter (TupleIterator seq' pos)] in
     let self' := RepeatItem.Make (Z.of_nat (List.length seq' - pos) + 27) it in
     index h' self' = Ok 26 /\ letter h' self' = Some (Ok "ba")) /\
  (forall (seq' : list value) (pos : nat) (len : Z),
     index (h ++ [OIter (TupleIterator seq' pos)]) (RepeatItem.Make len it)
     = Ok (len - Z.of_nat (List.length seq' - pos) - 1)) /\
  (forall (h' : heap) (self' : RepeatItem.t) (remaining : Z),
     cursor_len h' (RepeatItem._iterator self') = Ok remaining ->
     index h' self' = Ok (RepeatItem.length self' - remaining - 1)).
Proof.
  simpl.
  rewrite (cursor_advance h [v1; v2; v3; v4] 0 v1 eq_refl).
  rewrite (cursor_advance h [v1; v2; v3; v4] 1 v2 eq_refl).
  rewrite (cursor_advance h [v1; v2; v3; v4] 2 v3 eq_refl).
  rewrite (cursor_advance h [v1; v2; v3; v4] 3 v4 eq_refl).
  assert (Hprops : forall pos len i,
    len - Z.of_nat (4 - pos) - 1 = i ->
    index (h ++ [OIter (TupleIterator [v1; v2; v3; v4] pos)])
          (RepeatItem.Make len (List.length h)) = Ok i).
  { intros pos len i <-. by rewrite index_alloc. }
  assert (H0 := Hprops 0%nat 4 (-1) eq_refl).
  assert (H1 := Hprops 1%nat 4 0 eq_refl).
  assert (H2 := Hprops 2%nat 4 1 eq_refl).
  assert (H3 := Hprops 3%nat 4 2 eq_refl).
  assert (H4 := Hprops 4%nat 4 3 eq_refl).
  unfold start, end_, number, odd, even, letter, Letter, Roman, _letter,
    descriptorint, descriptorstr.
  rewrite H0, H1, H2, H3, H4.
  repeat split; try reflexivity.
  - rewrite index_alloc. f_equal. lia.
  - rewrite index_alloc.
    replace (Z.of_nat (List.length seq' - pos) + 27
             - Z.of_nat (List.length seq' - pos) - 1) with 26 by lia.
    reflexivity.
  - apply index_alloc.
  - apply index_recomputed.
Qed.

(** ** [RepeatDict] *)

(** A successful registration stores a fresh cursor at the end of the
    heap and the entry [(cursor, length, None)] under the key. *)
Lemma call_ok (st : state) (key : string) (v : value) (it : addr) (len : Z)
  (st1 : state) :
  __call__ st key v = (Ok (it, len), st1) ->
  exists items,
    it = List.length (st_heap st) /\
    len = Z.of_nat (List.length items) /\
    st_heap st1 = st_heap st ++ [OIter (TupleIterator items 0)] /\
    st_dict st1 = <[key := (it, len, None)]> (st_dict st).
Proof.
  unfold __call__.
  destruct v as [|z|s|items]; simpl; intros H; inversion H; subst;
    eexists; repeat split; reflexivity.
Qed.

Lemma item_at_alloc (h : heap) (item : RepeatItem.t) :
  item_at (h ++ [OItem item]) (List.length h) = Some item.
Proof. unfold item_at. by rewrite lookup_alloc. Qed.

Lemma item_at_fresh (h : heap) (a : addr) :
  (List.length h <= a)%nat -> item_at h a = None.
Proof. intros H. unfold item_at. by rewrite lookup_ge_None_2. Qed.

Lemma item_at_grow (h : heap) (o : obj) (a : addr) (item : RepeatItem.t) :
  item_at h a = Some item -> item_at (h ++ [o]) a = Some item.
Proof.
  unfold item_at. intros H.
  destruct (h !! a) as [x|] eqn:E; [|done].
  by rewrite (lookup_app_l_Some _ _ _ _ E).
Qed.

(** The first lookup after a registration builds the [RepeatItem] at a
    fresh address and stores it in the entry; a lookup that finds it
    stored returns it and changes nothing. *)
Lemma getitem_first (st : state) (key : string) (it : addr) (len : Z) :
  st_dict st !! key = Some (it, len, None) ->
  __getitem__ st key =
    (Ok (List.length (st_heap st)),
     State (st_heap st ++ [OItem (RepeatItem.Make len it)])
           (<[key := (it, len, Some (List.length (st_heap st)))]> (st_dict st))).
Proof. intros H. unfold __getitem__. by rewrite H. Qed.

Lemma getitem_cached (st : state) (key : string) (it : addr) (len : Z) (a : addr) :
  st_dict st !! key = Some (it, len, Some a) ->
  __getitem__ st key = (Ok a, st).
Proof. intros H. unfold __getitem__. by rewrite H. Qed.

(** A registration of a value that is accepted succeeds: it returns
    the fresh cursor, over the elements from their start, and their
    number. *)
Lemma call_registers (st : state) (key : string) (v : value) (items : list value) :
  registers v items ->
  __call__ st key v
  = (Ok (List.length (st_heap st), Z.of_nat (List.length items)),
     State (st_heap st ++ [OIter (TupleIterator items 0)])
           (<[key := (List.length (st_heap st), Z.of_nat (List.length items), None)]>
              (st_dict st))).
Proof.
  intros [Hv|[-> ->]]; [|reflexivity].
  unfold __call__. rewrite Hv. reflexivity.
Qed.

(** C4: a registration of an iterable, or of [None], succeeds; after
    it, the first lookup of the key builds a [RepeatItem] that was not
    there before, from the registered cursor and length; the second
    lookup returns the same address and leaves the state as it is.  A
    new registration of the key succeeds as well and stores
    [(cursor, length, None)] with a new cursor, and the next lookup
    builds another [RepeatItem], at a different address, from the new
    cursor and length; the item built before stays what it was. *)
Theorem repeat_dict_lookup_cached (st : state) (key : string) (v : value)
  (items : list value) :
  registers v items ->
  exists (it : addr) (st1 : state) (a : addr) (st2 : state),
    let len := Z.of_nat (List.length items) in
    __call__ st key v = (Ok (it, len), st1) /\
    st_heap st1 !! it = Some (OIter (TupleIterator items 0)) /\
    __getitem__ st1 key = (Ok a, st2) /\
    __getitem__ st2 key = (Ok a, st2) /\
    item_at (st_heap st1) a = None /\
    item_at (st_heap st2) a = Some (RepeatItem.Make len it) /\
    forall (v' : value) (items' : list value),
      registers v' items' ->
      exists (it' : addr) (st3 : state) (a' : addr) (st4 : state),
        let len' := Z.of_nat (List.length items') in
        __call__ st2 key v' = (Ok (it', len'), st3) /\
        st_dict st3 !! key = Some (it', len', None) /\
        st_heap st3 !! it' = Some (OIter (TupleIterator items' 0)) /\
        it' <> it /\
        __getitem__ st3 key = (Ok a', st4) /\
        __getitem__ st4 key = (Ok a', st4) /\
        a' <> a /\
        item_at (st_heap st3) a' = None /\
        item_at (st_heap st4) a' = Some (RepeatItem.Make len' it') /\
        item_at (st_heap st4) a = Some (RepeatItem.Make len it).
Proof.
  intros Hv. pose proof (call_registers st key v items Hv) as Hcall.
  set (len := Z.of_nat (List.length items)) in *.
  set (it := List.length (st_heap st)) in *.
  set (st1 := State (st_heap st ++ [OIter (TupleIterator items 0)])
                (<[key := (it, len, None)]> (st_dict st))) in *.
  assert (Hk1 : st_dict st1 !! key = Some (it, len, None))
    by apply lookup_insert_eq.
  set (a := List.length (st_heap st1)).
  set (st2 := State (st_heap st1 ++ [OItem (RepeatItem.Make len it)])
                (<[key := (it, len, Some a)]> (st_dict st1))).
  exists it, st1, a, st2. cbv zeta.
  split; [exact Hcall|].
  split; [apply lookup_alloc|].
  split; [apply (getitem_first _ _ _ _ Hk1)|].
  split; [apply (getitem_cached _ _ it len); apply lookup_insert_eq|].
  split; [apply item_at_fresh; subst a; lia|].
  split; [apply item_at_alloc|].
  intros v' items' Hv'.
  pose proof (call_registers st2 key v' items' Hv') as Hcall'.
  set (len' := Z.of_nat (List.length items')) in *.
  set (it' := List.length (st_heap st2)) in *.
  set (st3 := State (st_heap st2 ++ [OIter (TupleIterator items' 0)])
                (<[key := (it', len', None)]> (st_dict st2))) in *.
  assert (Hk3 : st_dict st3 !! key = Some (it', len', None))
    by apply lookup_insert_eq.
  set (a' := List.length (st_heap st3)).
  set (st4 := State (st_heap st3 ++ [OItem (RepeatItem.Make len' it')])
                (<[key := (it', len', Some a')]> (st_dict st3))).
  exists it', st3, a', st4.
  split; [exact Hcall'|].
  split; [exact Hk3|].
  split; [apply lookup_alloc|].
  split; [subst it' it st2 st1; simpl; rewrite !length_app; simpl; lia|].
  split; [apply (getitem_first _ _ _ _ Hk3)|].
  split; [apply (getitem_cached _ _ it' len'); apply lookup_insert_eq|].
  split; [subst a' a st3 st2; simpl; rewrite !length_app; simpl; lia|].
  split; [apply item_at_fresh; subst a'; lia|].
  split; [apply item_at_alloc|].
  subst st4 st3 st2. simpl. do 2 apply item_at_grow. apply item_at_alloc.
Qed.

Lemma repeat_dict_lookup_cached_witness :
  exists (it : addr) (st1 : state) (a : addr) (st2 : state)
         (it' : addr) (st3 : state) (a' : addr) (st4 : state),
    __call__ empty_state "x" (VSeq [VInt 1; VInt 2; VInt 3]) = (Ok (it, 3), st1) /\
    __getitem__ st1 "x" = (Ok a, st2) /\
    __getitem__ st2 "x" = (Ok a, st2) /\
    item_at (st_heap st2) a = Some (RepeatItem.Make 3 it) /\
    __call__ st2 "x" (VStr "ab") = (Ok (it', 2), st3) /\
    st_dict st3 !! "x" = Some (it', 2, None) /\
    it' <> it /\
    __getitem__ st3 "x" = (Ok a', st4) /\
    __getitem__ st4 "x" = (Ok a', st4) /\
    a' <> a /\
    item_at (st_heap st4) a' = Some (RepeatItem.Make 2 it') /\
    item_at (st_heap st4) a = Some (RepeatItem.Make 3 it).
Proof.
  destruct (repeat_dict_lookup_cached empty_state "x" (VSeq [VInt 1; VInt 2; VInt 3])
              [VInt 1; VInt 2; VInt 3] (or_introl eq_refl))
    as (it & st1 & a & st2 & H1 & _ & H2 & H3 & _ & H4 & Hre).
  destruct (Hre (VStr "ab") [VStr "a"; VStr "b"] (or_introl eq_refl))
    as (it' & st3 & a' & st4 & R1 & R2 & _ & R3 & R4 & R5 & R6 & _ & R7 & R8).
  exists it, st1, a, st2, it', st3, a', st4.
  repeat split; assumption.
Defined.

(** C9: registering a value that is neither iterable nor [None] raises
    [TypeError] and leaves the state as it was: the dictionary, the
    heap, and so every later lookup, of this key or another. *)
Theorem repeat_dict_call_not_iterable (st : state) (key : string) (v : value)
  (e : exn) :
  py_tuple v = Raise e -> v <> VNone ->
  __call__ st key v
  = (Raise (TypeError (repr_str (type_name v) +:+ " object is not iterable")), st) /\
  (forall k : string,
     st_dict (snd (__call__ st key v)) !! k = st_dict st !! k /\
     __getitem__ (snd (__call__ st key v)) k = __getitem__ st k) /\
  (forall (it : addr) (len : Z) (a : addr),
     st_dict st !! key = Some (it, len, Some a) ->
     __getitem__ (snd (__call__ st key v)) key = (Ok a, st)).
Proof.
  intros Hv Hnone.
  assert (Hc : __call__ st key v
    = (Raise (TypeError (repr_str (type_name v) +:+ " object is not iterable")), st)).
  { unfold __call__. destruct v; simpl in *; congruence. }
  rewrite Hc. simpl. repeat split.
  intros it len a H. by apply (getitem_cached _ _ it len).
Qed.

Lemma repeat_dict_call_not_iterable_witness :
  let st := State [OIter (TupleIterator [VInt 1] 0); OItem (RepeatItem.Make 1 0%nat)]
              {[ "x" := (0%nat, 1, Some 1%nat) ]} in
  __call__ st "x" (VInt 7) = (Raise (TypeError "'int' object is not iterable"), st) /\
  (forall k : string,
     st_dict (snd (__call__ st "x" (VInt 7))) !! k = st_dict st !! k /\
     __getitem__ (snd (__call__ st "x" (VInt 7))) k = __getitem__ st k) /\
  (forall (it : addr) (len : Z) (a : addr),
     st_dict st !! "x" = Some (it, len, Some a) ->
     __getitem__ (snd (__call__ st "x" (VInt 7))) "x" = (Ok a, st)).
Proof.
  apply (repeat_dict_call_not_iterable _ "x" (VInt 7)
           (TypeError "'int' object is not iterable")); [reflexivity | discriminate].
Defined.

(** [None] is registered as the empty sequence. *)
Lemma repeat_dict_call_none (st : state) (key : string) :
  __call__ st key VNone
  = (Ok (List.length (st_heap st), 0),
     State (st_heap st ++ [OIter (TupleIterator [] 0)])
           (<[key := (List.length (st_heap st), 0, None)]> (st_dict st))).
Proof. reflexivity. Qed.

(** ** [prepare_attributes] *)

Section OrderedDict.
Context {V : Type}.
Implicit Types (d : odict V) (k : string) (v : V).

Lemma od_get_set_eq d k v : od_get (od_set d k v) k = Some v.
Proof.
  induction d as [|[k' v'] d IH]; simpl.
  - by rewrite bool_decide_eq_true_2.
  - destruct (bool_decide (k = k')) eqn:E; simpl.
    + by rewrite bool_decide_eq_true_2.
    + by rewrite E.
Qed.

Lemma od_get_set_ne d k k' v : k <> k' -> od_get (od_set d k v) k' = od_get d k'.
Proof.
  intros Hne. induction d as [|[k0 v0] d IH]; simpl.
  - by rewrite bool_decide_eq_false_2 by congruence.
  - destruct (bool_decide (k = k0)) eqn:E; simpl.
    + apply bool_decide_eq_true_1 in E as <-.
      by rewrite !bool_decide_eq_false_2 by congruence.
    + by rewrite IH.
Qed.

Lemma od_get_Some_In d k v : od_get d k = Some v -> In (k, v) d.
Proof.
  induction d as [|[k' v'] d IH]; simpl; [done|].
  destruct (bool_decide (k = k')) eqn:E.
  - apply bool_decide_eq_true_1 in E as <-. intros [= ->]. by left.
  - intros H. right. by apply IH.
Qed.

Lemma od_get_None_keys d k : od_get d k = None -> ~ In k (map fst d).
Proof.
  induction d as [|[k' v'] d IH]; simpl; [tauto|].
  destruct (bool_decide (k = k')) eqn:E; [done|].
  apply bool_decide_eq_false_1 in E. intros H [Heq|Hin]; [congruence|].
  by apply IH.
Qed.

End OrderedDict.

Section PrepareAttributesFacts.

Variable XMLNS_NS : string.
Implicit Types (attrs : list attribute) (dyn : odict string)
  (ns_attributes : list (string * string)) (drop_ns drop : gset string).

(** An attribute paired with a dropped namespace has its name in the
    drop set. *)
Lemma drop_set_elem attrs ns_attributes drop_ns (a : attribute) (ns v : string) :
  In (a, (ns, v)) (zip attrs ns_attributes) ->
  ns ∈ drop_ns \/ (ns = XMLNS_NS /\ attr_value a ∈ drop_ns) ->
  attr_name a ∈ drop_set XMLNS_NS attrs ns_attributes drop_ns.
Proof.
  intros Hin Hns. unfold drop_set.
  apply elem_of_list_to_set, list_elem_of_In.
  apply (in_map (fun pair => attr_name (fst pair)) _ (a, (ns, v))).
  apply filter_In. split; [done|]. simpl.
  destruct Hns as [H|[-> H]].
  - by rewrite (bool_decide_eq_true_2 _ H).
  - rewrite (bool_decide_eq_true_2 (XMLNS_NS = XMLNS_NS)) by done.
    rewrite (bool_decide_eq_true_2 _ H). simpl. apply orb_true_r.
Qed.

(** The static pass never stores under a name of the drop set. *)
Lemma static_loop_dropped drop attrs (acc : odict prepared) (name : string) :
  name ∈ drop -> od_get acc name = None ->
  od_get (static_loop drop attrs acc) name = None.
Proof.
  intros Hdrop. revert acc. induction attrs as [|a attrs IH]; intros acc Hacc; simpl.
  - done.
  - destruct (bool_decide (attr_name a ∈ drop)) eqn:E.
    + by apply IH.
    + apply IH. rewrite od_get_set_ne; [done|].
      apply bool_decide_eq_false_1 in E. congruence.
Qed.

(** The dynamic pass leaves alone the names it is not given. *)
Lemma dynamic_loop_other dyn (acc : odict prepared) (name : string) :
  ~ In name (map fst dyn) ->
  od_get (dynamic_loop dyn acc) name = od_get acc name.
Proof.
  revert acc. induction dyn as [|[n e] dyn IH]; intros acc Hn; simpl; [done|].
  simpl in Hn. rewrite IH by tauto.
  apply od_get_set_ne. tauto.
Qed.

(** A name given to the dynamic pass and absent from the mapping gets
    the default formatting. *)
Lemma dynamic_loop_new dyn (acc : odict prepared) (name expr : string) :
  NoDup (map fst dyn) -> od_get dyn name = Some expr -> od_get acc name = None ->
  od_get (dynamic_loop dyn acc) name
  = Some (Prepared None dquote " " "=" (Some expr)).
Proof.
  revert acc. induction dyn as [|[n e] dyn IH]; intros acc Hnd Hget Hacc; simpl.
  - done.
  - simpl in Hget, Hnd. apply NoDup_cons in Hnd as [Hn Hnd].
    destruct (bool_decide (name = n)) eqn:E.
    + apply bool_decide_eq_true_1 in E as ->. injection Hget as ->.
      rewrite dynamic_loop_other by (by rewrite <- list_elem_of_In).
      rewrite od_get_set_eq. by rewrite Hacc.
    + apply bool_decide_eq_false_1 in E.
      apply IH; [done|done|]. by rewrite od_get_set_ne by congruence.
Qed.

End PrepareAttributesFacts.

(** C1, as the code has it: the static entry of an attribute whose
    namespace is in [drop_ns] (or whose namespace is [XMLNS_NS] and whose
    value is in [drop_ns]) is never emitted.  Its name is absent from the
    result when [dyn_attributes] has no expression for it; when it has
    one, the name is present with that expression, no static text and
    the default quote, space and equals sign. *)
Theorem prepare_attributes_dropped (XMLNS_NS : string) (attrs : list attribute)
  (dyn_attributes : odict string) (ns_attributes : list (string * string))
  (drop_ns : gset string) (a : attribute) (ns v : string) :
  In (a, (ns, v)) (zip attrs ns_attributes) ->
  ns ∈ drop_ns \/ (ns = XMLNS_NS /\ attr_value a ∈ drop_ns) ->
  NoDup (map fst dyn_attributes) ->
  let r := prepare_attributes XMLNS_NS attrs dyn_attributes ns_attributes drop_ns in
  (od_get dyn_attributes (attr_name a) = None -> od_get r (attr_name a) = None) /\
  (forall expr : string,
     od_get dyn_attributes (attr_name a) = Some expr ->
     od_get r (attr_name a) = Some (Prepared None dquote " " "=" (Some expr))).
Proof.
  intros Hin Hns Hnd r. subst r. unfold prepare_attributes.
  pose proof (drop_set_elem XMLNS_NS _ _ _ _ _ _ Hin Hns) as Hdrop.
  pose proof (static_loop_dropped _ attrs [] _ Hdrop eq_refl) as Hstatic.
  split.
  - intros Hdyn. rewrite dynamic_loop_other; [done|].
    by apply od_get_None_keys.
  - intros expr Hdyn. by apply dynamic_loop_new.
Qed.

Lemma prepare_attributes_dropped_witness :
  let attrs := [Attribute "class" "x" "'" "  " " = "; Attribute "id" "y" "'" " " "="] in
  let dyn := [("id", "e1"); ("class", "e2")] in
  let r := prepare_attributes "http://www.w3.org/2000/xmlns/" attrs dyn
             [("ns1", "x"); ("ns2", "y")] {["ns1"]} in
  (od_get dyn "class" = None -> od_get r "class" = None) /\
  (forall expr : string,
     od_get dyn "class" = Some expr ->
     od_get r "class" = Some (Prepared None dquote " " "=" (Some expr))).
Proof.
  apply (prepare_attributes_dropped "http://www.w3.org/2000/xmlns/"
           [Attribute "class" "x" "'" "  " " = "; Attribute "id" "y" "'" " " "="]
           [("id", "e1"); ("class", "e2")] [("ns1", "x"); ("ns2", "y")] {["ns1"]}
           (Attribute "class" "x" "'" "  " " = ") "ns1" "x").
  - simpl. left. reflexivity.
  - left. apply elem_of_singleton. reflexivity.
  - compute_done.
Defined.

(** C1 as stated fails: an attribute in a dropped namespace, and a
    namespace declaration of a dropped namespace, are both in the result
    when [dyn_attributes] has an expression under their names. *)
Lemma prepare_attributes_dropped_not_absent :
  let XMLNS_NS := "http://www.w3.org/2000/xmlns/" in
  let drop_ns : gset string := {["ns1"]} in
  (let attrs := [Attribute "class" "x" "'" "  " " = "] in
   let r := prepare_attributes XMLNS_NS attrs [("class", "e")] [("ns1", "x")] drop_ns in
   "ns1" ∈ drop_ns /\
   od_get r "class" = Some (Prepared None dquote " " "=" (Some "e")) /\
   od_get r "class" <> None) /\
  (let attrs := [Attribute "xmlns:foo" "ns1" "'" "  " " = "] in
   let r := prepare_attributes XMLNS_NS attrs [("xmlns:foo", "e")]
              [(XMLNS_NS, "ns1")] drop_ns in
   "ns1" ∈ drop_ns /\
   od_get r "xmlns:foo" = Some (Prepared None dquote " " "=" (Some "e")) /\
   od_get r "xmlns:foo" <> None).
Proof.
  assert (Hin : "ns1" ∈ ({["ns1"]} : gset string)) by (by apply elem_of_singleton).
  repeat split; try exact Hin; try (vm_compute; congruence).
Qed.

(** ** [split_parts] *)

Module SplitFacts.

Lemma char_is_true (a c : ascii) : Str.char_is a c = true <-> a = c.
Proof. unfold Str.char_is. apply bool_decide_eq_true. Qed.

Lemma char_is_false (a c : ascii) : Str.char_is a c = false <-> a <> c.
Proof. unfold Str.char_is. apply bool_decide_eq_false. Qed.

Lemma mem_app (c : ascii) (s t : string) :
  Str.mem c (s +:+ t) = Str.mem c s || Str.mem c t.
Proof.
  induction s as [|d s IH]; [done|]. rewrite sapp_cons. simpl.
  by rewrite IH, orb_assoc.
Qed.

Lemma mem_cons_false (c d : ascii) (s : string) :
  Str.mem c (String d s) = false -> d <> c /\ Str.mem c s = false.
Proof.
  simpl. intros H. apply orb_false_iff in H as [H1 H2].
  by apply char_is_false in H1.
Qed.

(** *** [replace] *)

(** Replacing one character by a string goes character by character. *)
Lemma replace1_cons (c d : ascii) (new s : string) :
  Str.replace (String c EmptyString) new (String d s)
  = (if Str.char_is c d then new else String d EmptyString)
    +:+ Str.replace (String c EmptyString) new s.
Proof.
  unfold Str.replace. simpl. destruct (Str.char_is c d); simpl; done.
Qed.

Lemma replace1_app (c : ascii) (new s t : string) :
  Str.replace (String c EmptyString) new (s +:+ t)
  = Str.replace (String c EmptyString) new s
    +:+ Str.replace (String c EmptyString) new t.
Proof.
  induction s as [|d s IH]; [done|].
  by rewrite sapp_cons, !replace1_cons, IH, sapp_assoc.
Qed.

Lemma replace1_absent (c : ascii) (new s : string) :
  Str.mem c s = false -> Str.replace (String c EmptyString) new s = s.
Proof.
  induction s as [|d s IH]; [done|]. intros H.
  apply mem_cons_false in H as [Hd Hs].
  rewrite replace1_cons, (IH Hs).
  by replace (Str.char_is c d) with false by (symmetry; apply char_is_false; congruence).
Qed.

(** No NUL is left where every NUL was replaced by a semicolon. *)
Lemma replace_nul_no_nul (s : string) :
  Str.mem Str.NUL (Str.replace nul ";" s) = false.
Proof.
  induction s as [|d s IH]; [done|].
  rewrite replace1_cons, mem_app, IH, orb_false_r.
  destruct (Str.char_is Str.NUL d) eqn:E; [done|].
  simpl. rewrite orb_false_r. apply char_is_false.
  apply char_is_false in E. congruence.
Qed.

(** A stretch without semicolons is passed over by the replacement of
    doubled semicolons. *)
Lemma replace2_pass (new x t : string) :
  Str.mem ";" x = false ->
  Str.replace ";;" new (x +:+ t) = x +:+ Str.replace ";;" new t.
Proof.
  induction x as [|d x IH]; [done|]. intros H.
  apply mem_cons_false in H as [Hd Hx].
  rewrite !sapp_cons. unfold Str.replace in *. simpl.
  replace (Str.char_is ";" d) with false
    by (symmetry; apply char_is_false; congruence).
  simpl. by rewrite (IH Hx).
Qed.

Lemma replace2_absent (new x : string) :
  Str.mem ";" x = false -> Str.replace ";;" new x = x.
Proof.
  intros H. rewrite <- (sapp_nil_r x) at 1.
  by rewrite (replace2_pass _ _ _ H), sapp_nil_r.
Qed.

Lemma replace2_hit (new t : string) :
  Str.replace ";;" new (String ";" (String ";" t)) = new +:+ Str.replace ";;" new t.
Proof. reflexivity. Qed.

Lemma replace2_single (new t : string) :
  Str.startswith ";" t = false ->
  Str.replace ";;" new (String ";" t) = String ";" (Str.replace ";;" new t).
Proof.
  intros H. unfold Str.replace. simpl.
  destruct t as [|c t]; [done|]. simpl in H. rewrite andb_true_r in H.
  by rewrite H.
Qed.

Lemma startswith_semi_absent (t : string) :
  Str.mem ";" t = false -> Str.startswith ";" t = false.
Proof.
  destruct t as [|c t]; [done|]. intros H.
  apply mem_cons_false in H as [Hc _]. simpl.
  rewrite andb_true_r. apply char_is_false. congruence.
Qed.

(** *** [split] *)

Lemma split_not_nil (sep : ascii) (s : string) : Str.split sep s <> [].
Proof.
  destruct s as [|c s]; simpl; [done|].
  destruct (Str.char_is sep c); [done|]. by destruct (Str.split sep s).
Qed.

Lemma split_absent (sep : ascii) (x : string) :
  Str.mem sep x = false -> Str.split sep x = [x].
Proof.
  induction x as [|d x IH]; [done|]. intros H.
  apply mem_cons_false in H as [Hd Hx]. simpl.
  replace (Str.char_is sep d) with false
    by (symmetry; apply char_is_false; congruence).
  by rewrite (IH Hx).
Qed.

Lemma split_pass (sep : ascii) (x t : string) :
  Str.mem sep x = false ->
  Str.split sep (x +:+ String sep t) = x :: Str.split sep t.
Proof.
  induction x as [|d x IH]; intros H.
  - rewrite sapp_nil_l. simpl.
    by replace (Str.char_is sep sep) with true by (symmetry; by apply char_is_true).
  - apply mem_cons_false in H as [Hd Hx]. rewrite sapp_cons. simpl.
    replace (Str.char_is sep d) with false
      by (symmetry; apply char_is_false; congruence).
    by rewrite (IH Hx).
Qed.

(** *** [sub] *)

(** Where the pattern is found nowhere, [sub] changes nothing. *)
Lemma sub_not_found (r : regex) (template : hit -> string) (s : string) :
  found r s = false -> Re.sub r template s = s.
Proof.
  unfold Re.sub. induction s as [|c s IH]; [done|].
  simpl. destruct (rmatch r (String c s)); [done|].
  intros H. by rewrite (IH H).
Qed.

(** What a match has consumed, [sub] passes over. *)
Lemma sub_from_skip (r : regex) (template : hit -> string) (w t : string) :
  sub_from r template (String.length w) (w +:+ t) = sub_from r template 0 t.
Proof.
  induction w as [|c w IH]; [done|].
  rewrite sapp_cons. simpl. exact IH.
Qed.

Lemma sub_hit (r : regex) (template : hit -> string) (c : ascii) (w t : string)
  (h : hit) :
  rmatch r (String c w +:+ t) = Some h -> consumed h = String c w ->
  Re.sub r template (String c w +:+ t) = template h +:+ Re.sub r template t.
Proof.
  intros Hm Hc. unfold Re.sub. rewrite sapp_cons in *. simpl.
  rewrite Hm, Hc. simpl. rewrite Nat.sub_0_r. by rewrite sub_from_skip.
Qed.

Lemma sub_miss (r : regex) (template : hit -> string) (c : ascii) (s : string) :
  rmatch r (String c s) = None ->
  Re.sub r template (String c s) = String c (Re.sub r template s).
Proof. intros Hm. unfold Re.sub. simpl. by rewrite Hm. Qed.

(** *** [ENTITY_RE] *)

Lemma matches_cls_inv (p : ascii -> bool) (w : string) :
  matches (Cls p) w -> exists c, w = String c EmptyString /\ p c = true.
Proof. inversion 1; subst. eauto. Qed.

Lemma matches_chr_inv (a : ascii) (w : string) :
  matches (Chr a) w -> w = String a EmptyString.
Proof.
  intros H. apply matches_cls_inv in H as (c & -> & Hc).
  by apply char_is_true in Hc as ->.
Qed.

Lemma matches_upto_cls (p : ascii -> bool) (n : nat) (w : string) :
  matches (Upto (Cls p) n) w ->
  all_in p w = true /\ (String.length w <= n)%nat.
Proof.
  revert w. induction n as [|n IH]; intros w; simpl.
  - inversion 1; subst. split; [done|simpl; lia].
  - unfold Opt. inversion 1 as [| | |? ? ? Hc|? ? ? He| | | |]; subst.
    + inversion Hc as [| |? ? w1 w2 H1 H2| | | | | |]; subst.
      apply matches_cls_inv in H1 as (c & -> & Hp).
      apply IH in H2 as [Hall Hlen].
      rewrite sapp_cons, sapp_nil_l. simpl. rewrite Hp, Hall. split; [done|lia].
    + inversion He; subst. split; [done|simpl; lia].
Qed.

Lemma matches_rep_cls (p : ascii -> bool) (lo extra : nat) (w : string) :
  matches (Rep (Cls p) lo extra) w ->
  all_in p w = true /\ (lo <= String.length w <= lo + extra)%nat.
Proof.
  revert w. induction lo as [|lo IH]; intros w; simpl.
  - intros H. apply matches_upto_cls in H as [? ?]. split; [done|lia].
  - inversion 1 as [| |? ? w1 w2 H1 H2| | | | | |]; subst.
    apply matches_cls_inv in H1 as (c & -> & Hp).
    apply IH in H2 as [Hall Hlen].
    rewrite sapp_cons, sapp_nil_l. simpl. rewrite Hp, Hall. split; [done|lia].
Qed.

Lemma all_in_impl (p q : ascii -> bool) (s : string) :
  (forall c, p c = true -> q c = true) -> all_in p s = true -> all_in q s = true.
Proof.
  intros Hpq. induction s as [|c s IH]; [done|]. simpl.
  intros H. apply andb_true_iff in H as [H1 H2].
  by rewrite (Hpq _ H1), (IH H2).
Qed.

Lemma all_in_not_mem (p : ascii -> bool) (c : ascii) (s : string) :
  p c = false -> all_in p s = true -> Str.mem c s = false.
Proof.
  intros Hc. induction s as [|d s IH]; [done|]. simpl.
  intros H. apply andb_true_iff in H as [H1 H2].
  rewrite (IH H2), orb_false_r. apply char_is_false. congruence.
Qed.

(** A word of [ENTITY_RE] is an ampersand, characters that are [#] or
    word characters, and a semicolon. *)
Lemma entity_shape (w : string) :
  matches ENTITY_RE w ->
  exists body, w = String "&" (body +:+ ";") /\ all_in entity_char body = true.
Proof.
  unfold ENTITY_RE.
  inversion 1 as [| | | | | | |? ? ? H1|]; subst.
  inversion H1 as [| |? ? wa w2 Ha H2| | | | | |]; subst.
  inversion H2 as [| |? ? wb w3 Hb H3| | | | | |]; subst.
  inversion H3 as [| |? ? wc w4 Hc H4| | | | | |]; subst.
  inversion H4 as [| |? ? wd w5 Hd H5| | | | | |]; subst.
  apply matches_chr_inv in Ha as ->, H5 as ->.
  exists (wb +:+ wc +:+ wd). split.
  { by rewrite sapp_cons, sapp_nil_l, !sapp_assoc. }
  rewrite !all_in_app.
  assert (Hwb : all_in entity_char wb = true).
  { inversion Hb as [| | | | | | |? ? ? Hb'|]; subst.
    inversion Hb' as [| | |? ? ? Hl|? ? ? Hr| | | |]; subst.
    - by apply matches_chr_inv in Hl as ->.
    - by inversion Hr. }
  assert (Hwc : all_in entity_char wc = true).
  { inversion Hc as [| | | | | | |? ? ? Hc'|]; subst.
    inversion Hc' as [| | |? ? ? Hl|? ? ? Hr| | | |]; subst.
    - by apply matches_chr_inv in Hl as ->.
    - by inversion Hr. }
  assert (Hwd : all_in entity_char wd = true).
  { inversion Hd as [| | | | | | |? ? ? Hd'|]; subst.
    inversion Hd' as [| | |? ? ? Hl|? ? ? Hr| | | |]; subst.
    - apply (matches_rep_cls digit 1 4) in Hl as [Hall _].
      revert Hall. apply all_in_impl. intros c Hc'.
      unfold entity_char. replace (word c) with true; [by rewrite orb_true_r|].
      symmetry. revert Hc'.
      destruct c as [[] [] [] [] [] [] [] []]; vm_compute; congruence.
    - apply (matches_rep_cls word 1 7) in Hr as [Hall _].
      revert Hall. apply all_in_impl. intros c Hc'.
      unfold entity_char. by rewrite Hc', orb_true_r. }
  by rewrite Hwb, Hwc, Hwd.
Qed.

Lemma entity_body_clean (body : string) :
  all_in entity_char body = true ->
  Str.mem ";" body = false /\ Str.mem Str.NUL body = false
  /\ Str.mem "&" body = false /\ all_in nonspace body = true.
Proof.
  intros H. repeat split; try (by apply (all_in_not_mem entity_char)).
  revert H. apply all_in_impl. intros c.
  destruct c as [[] [] [] [] [] [] [] []]; vm_compute; congruence.
Qed.

(** The first semicolon of a string is where it is. *)
Lemma first_semicolon_unique (x y r r' : string) :
  Str.mem ";" x = false -> Str.mem ";" y = false ->
  x +:+ String ";" r = y +:+ String ";" r' -> x = y /\ r = r'.
Proof.
  revert y. induction x as [|c x IH]; intros [|d y] Hx Hy; rewrite ?sapp_cons, ?sapp_nil_l.
  - by intros [= ->].
  - intros [= <- _]. apply mem_cons_false in Hy as [Hd _]. done.
  - intros [= -> _]. apply mem_cons_false in Hx as [Hc _]. done.
  - intros [= -> H]. apply mem_cons_false in Hx as [_ Hx], Hy as [_ Hy].
    destruct (IH _ Hx Hy H) as [-> ->]. done.
Qed.

(** At an entity the pattern matches, and the match is the entity,
    whatever follows; the template gives the entity and a semicolon. *)
Lemma entity_match (e t : string) :
  matches ENTITY_RE e ->
  exists h, rmatch ENTITY_RE (e +:+ t) = Some h /\ consumed h = e
            /\ entity_template h = e +:+ ";".
Proof.
  intros He.
  destruct (ReFacts.hits_complete _ _ He eq_refl t) as (h0 & Hin0 & _ & _).
  unfold rmatch. destruct (hits ENTITY_RE (e +:+ t)) as [|h l] eqn:Eh; [done|].
  exists h. split; [done|].
  assert (Hin : In h (hits ENTITY_RE (e +:+ t))) by (rewrite Eh; by left).
  destruct (ReFacts.hits_sound _ _ _ Hin) as [Es Hm].
  apply entity_shape in Hm as (body & Hc & Hb), He as (body0 & -> & Hb0).
  apply entity_body_clean in Hb as (Hb & _), Hb0 as (Hb0 & _).
  assert (Hcons : consumed h = String "&" (body0 +:+ ";")).
  { rewrite Hc in Es |- *. rewrite !sapp_cons, !sapp_assoc in Es.
    injection Es as Es. rewrite !sapp_cons, !sapp_nil_l in Es.
    by destruct (first_semicolon_unique _ _ _ _ Hb0 Hb Es) as [-> _]. }
  split; [done|].
  unfold entity_template. unfold ENTITY_RE in Hin. simpl hits in Hin.
  apply in_map_iff in Hin as (h' & <- & _). simpl in *.
  by rewrite Hcons.
Qed.

Lemma entity_miss (c : ascii) (s : string) :
  c <> "&"%char -> rmatch ENTITY_RE (String c s) = None.
Proof.
  intros Hc. unfold rmatch, ENTITY_RE. simpl.
  by replace (Str.char_is "&" c) with false
    by (symmetry; apply char_is_false; congruence).
Qed.

(** A match of [ENTITY_RE] needs a semicolon. *)
Lemma entity_needs_semicolon (s : string) (h : hit) :
  rmatch ENTITY_RE s = Some h -> Str.mem ";" s = true.
Proof.
  intros H. apply ReFacts.rmatch_sound in H as [-> Hm].
  apply entity_shape in Hm as (body & -> & _).
  rewrite !mem_app. simpl. rewrite mem_app. simpl.
  by rewrite !orb_true_r.
Qed.

Lemma entity_not_found (s : string) :
  Str.mem ";" s = false -> found ENTITY_RE s = false.
Proof.
  induction s as [|c s IH]; intros H.
  - simpl. destruct (rmatch ENTITY_RE EmptyString) eqn:E; [|done].
    apply entity_needs_semicolon in E. done.
  - simpl. destruct (rmatch ENTITY_RE (String c s)) eqn:E.
    + apply entity_needs_semicolon in E. congruence.
    + apply IH. by apply mem_cons_false in H as [_ ?].
Qed.

End SplitFacts.

Import SplitFacts.

Lemma split_parts_from (arg : string) (parts : list string) :
  map (Str.replace (String Str.NUL EmptyString) ";")
      (Str.split ";"
         (Str.replace ";;" (String Str.NUL EmptyString)
            (Re.sub ENTITY_RE entity_template arg))) = parts ->
  split_parts arg
  = if (1 <? length parts)%nat && Str.is_empty (Str.strip (List.last parts EmptyString))
    then removelast parts else parts.
Proof. intros <-. reflexivity. Qed.

Lemma in_removelast {A} (x : A) (l : list A) : In x (removelast l) -> In x l.
Proof.
  induction l as [|y l IH]; [done|]. simpl.
  destruct l as [|z l]; [done|]. intros [->|H]; [by left|right; auto].
Qed.

(** Without a semicolon there is one part: the input with each NUL
    replaced. *)
Lemma split_parts_no_semicolon (s : string) :
  Str.mem ";" s = false ->
  split_parts s = [Str.replace (String Str.NUL EmptyString) ";" s].
Proof.
  intros Hs. rewrite (split_parts_from s [Str.replace (String Str.NUL EmptyString) ";" s]).
  - reflexivity.
  - rewrite sub_not_found by (by apply entity_not_found).
    rewrite replace2_absent by done.
    by rewrite split_absent.
Qed.


(** *** What becomes of the NULs of the input *)

Module CountFacts.

Lemma count_app (c : ascii) (s t : string) :
  Str.count c (s +:+ t) = (Str.count c s + Str.count c t)%nat.
Proof.
  induction s as [|d s IH]; [done|]. rewrite sapp_cons. simpl. rewrite IH. lia.
Qed.

Lemma count_not_mem (c : ascii) (s : string) :
  Str.mem c s = false -> Str.count c s = 0%nat.
Proof.
  induction s as [|d s IH]; [done|]. intros H.
  apply mem_cons_false in H as [Hd Hs]. simpl. rewrite (IH Hs).
  replace (Str.char_is c d) with false; [done|].
  symmetry. apply char_is_false. congruence.
Qed.

(** The template of [split_parts] gives back what was matched, and a
    semicolon. *)
Lemma entity_template_consumed (s : string) (h : hit) :
  rmatch ENTITY_RE s = Some h -> entity_template h = consumed h +:+ ";".
Proof.
  unfold rmatch, ENTITY_RE. simpl hits.
  match goal with |- head (map ?f ?l) = _ -> _ => destruct l as [|h0 l0] end;
    [done|].
  simpl. by intros [= <-].
Qed.

(** [sub] loses no character of its input. *)
Lemma sub_count_ge (c : ascii) (n : nat) :
  forall s, (String.length s <= n)%nat ->
    (Str.count c s <= Str.count c (Re.sub ENTITY_RE entity_template s))%nat.
Proof.
  induction n as [|n IH]; intros [|d s] Hn; simpl in Hn; try done; try lia.
  destruct (rmatch ENTITY_RE (String d s)) as [h|] eqn:E.
  - pose proof (entity_template_consumed _ _ E) as Ht.
    pose proof (ReFacts.rmatch_sound _ _ _ E) as [Es Hm].
    apply entity_shape in Hm as (body & Hc & _).
    assert (Hsub : Re.sub ENTITY_RE entity_template (String d s)
                   = entity_template h +:+ Re.sub ENTITY_RE entity_template (rest h)).
    { rewrite Es at 1. rewrite Hc. apply sub_hit; [|done].
      by rewrite <- Hc, <- Es. }
    rewrite Hsub, Ht, !count_app. rewrite Es at 1. rewrite count_app.
    assert (String.length (rest h) <= n)%nat.
    { apply (f_equal String.length) in Es. rewrite slength_app, Hc in Es.
      simpl in Es. lia. }
    pose proof (IH (rest h) ltac:(done)). lia.
  - rewrite sub_miss by done. simpl.
    pose proof (IH s ltac:(lia)). lia.
Qed.

Lemma replace2_cases (new : string) (c : ascii) (s : string) :
  (exists s', c = ";"%char /\ s = String ";" s' /\
     Str.replace ";;" new (String c s) = new +:+ Str.replace ";;" new s') \/
  Str.replace ";;" new (String c s) = String c (Str.replace ";;" new s).
Proof.
  unfold Str.replace. simpl.
  destruct (Str.char_is ";" c) eqn:Ec; [|by right].
  apply char_is_true in Ec as <-.
  destruct s as [|d s]; [by right|]. simpl.
  destruct (Str.char_is ";" d) eqn:Ed; [|by right].
  apply char_is_true in Ed as <-. left. eauto.
Qed.

(** Replacing doubled semicolons by NUL loses no NUL. *)
Lemma replace2_count_ge (n : nat) :
  forall s, (String.length s <= n)%nat ->
    (Str.count Str.NUL s <= Str.count Str.NUL (Str.replace ";;" nul s))%nat.
Proof.
  induction n as [|n IH]; intros [|c s] Hn; simpl in Hn; try done; try lia.
  destruct (replace2_cases nul c s) as [(s' & -> & -> & ->)| ->].
  - rewrite count_app. simpl in *. pose proof (IH s' ltac:(lia)). lia.
  - simpl. pose proof (IH s ltac:(lia)). lia.
Qed.

(** Splitting keeps every character but the separators. *)
Lemma split_count (c sep : ascii) (s : string) :
  sep <> c -> Str.count_all c (Str.split sep s) = Str.count c s.
Proof.
  intros Hne. induction s as [|d s IH]; [done|]. simpl.
  destruct (Str.char_is sep d) eqn:E.
  - apply char_is_true in E as <-. simpl. rewrite IH.
    by replace (Str.char_is c sep) with false
      by (symmetry; apply char_is_false; congruence).
  - destruct (Str.split sep s) as [|p ps] eqn:Es.
    + by destruct (split_not_nil sep s).
    + simpl in *. lia.
Qed.

Lemma replace_nul_count (p : string) :
  Str.count ";" (Str.replace nul ";" p)
  = (Str.count Str.NUL p + Str.count ";" p)%nat.
Proof.
  induction p as [|d p IH]; [done|].
  rewrite replace1_cons, count_app, IH. simpl.
  destruct (Str.char_is Str.NUL d) eqn:E.
  - apply char_is_true in E as <-. simpl. lia.
  - simpl. lia.
Qed.

Lemma replace_nul_count_all (parts : list string) :
  (Str.count_all Str.NUL parts
   <= Str.count_all ";" (map (Str.replace nul ";") parts))%nat.
Proof.
  induction parts as [|p parts IH]; [done|]. simpl.
  rewrite replace_nul_count. lia.
Qed.

Lemma rstrip_by_empty (p : ascii -> bool) (s : string) :
  Str.rstrip_by p s = EmptyString -> all_in p s = true.
Proof.
  induction s as [|c s IH]; [done|]. simpl.
  destruct (Str.rstrip_by p s); [|done].
  destruct (p c); [|done]. intros _. by rewrite IH.
Qed.

Lemma lstrip_by_all (p : ascii -> bool) (s : string) :
  all_in p (Str.lstrip_by p s) = true -> all_in p s = true.
Proof.
  induction s as [|c s IH]; [done|]. simpl.
  destruct (p c) eqn:E; [done|]. simpl. by rewrite E.
Qed.

(** A part that strips to nothing holds no semicolon. *)
Lemma blank_no_semicolon (s : string) :
  Str.is_empty (Str.strip s) = true -> Str.count ";" s = 0%nat.
Proof.
  intros H. apply count_not_mem, (all_in_not_mem Str.isspace); [done|].
  apply lstrip_by_all, rstrip_by_empty.
  unfold Str.strip, Str.strip_by in H. by destruct (Str.rstrip_by _ _).
Qed.

Lemma count_all_cons (c : ascii) (p : string) (parts : list string) :
  Str.count_all c (p :: parts) = (Str.count c p + Str.count_all c parts)%nat.
Proof. reflexivity. Qed.

Lemma count_all_removelast (c : ascii) (parts : list string) :
  parts <> [] ->
  Str.count_all c parts
  = (Str.count_all c (removelast parts) + Str.count c (List.last parts EmptyString))%nat.
Proof.
  induction parts as [|p parts IH]; [done|]. intros _.
  destruct parts as [|q parts]; [simpl; lia|].
  change (removelast (p :: q :: parts)) with (p :: removelast (q :: parts)).
  change (List.last (p :: q :: parts) EmptyString)
    with (List.last (q :: parts) EmptyString).
  rewrite (count_all_cons c p (q :: parts)).
  rewrite (count_all_cons c p (removelast (q :: parts))).
  rewrite IH by done. lia.
Qed.

(** Every NUL of the input is a semicolon of the parts. *)
Lemma split_parts_nul_count (s : string) :
  (Str.count Str.NUL s <= Str.count_all ";" (split_parts s))%nat.
Proof.
  rewrite (split_parts_from s _ eq_refl).
  set (parts := map _ _).
  assert (Hparts : (Str.count Str.NUL s <= Str.count_all ";" parts)%nat).
  { subst parts.
    etransitivity; [apply (sub_count_ge _ _ s (le_n _))|].
    etransitivity; [apply (replace2_count_ge _ _ (le_n _))|].
    rewrite <- (split_count Str.NUL ";") by done.
    apply replace_nul_count_all. }
  destruct (1 <? length parts)%nat eqn:El; [|done]. simpl.
  destruct (Str.is_empty _) eqn:Eb; [|done].
  rewrite (count_all_removelast ";" parts) in Hparts.
  - rewrite (blank_no_semicolon _ Eb) in Hparts. lia.
  - intros ->. done.
Qed.

End CountFacts.

Import CountFacts.

(** The parts of a clause [a;b] that [sub] has left as it is, NULs
    and all. *)
Lemma parts_two_nul (a b : string) :
  Str.mem ";" a = false -> Str.mem ";" b = false ->
  map (Str.replace nul ";") (Str.split ";" (Str.replace ";;" nul (a +:+ String ";" b)))
  = [Str.replace nul ";" a; Str.replace nul ";" b].
Proof.
  intros Ha Hb.
  rewrite replace2_pass by done.
  rewrite replace2_single by (by apply startswith_semi_absent).
  rewrite replace2_absent by done.
  rewrite split_pass by done. by rewrite split_absent by done.
Qed.







(** The parts of a clause [a;b] or [a;;b] once [sub] has left it as it
    is. *)
Lemma parts_two (a b : string) :
  Str.mem ";" a = false -> Str.mem ";" b = false ->
  Str.mem Str.NUL a = false -> Str.mem Str.NUL b = false ->
  map (Str.replace (String Str.NUL EmptyString) ";")
      (Str.split ";" (Str.replace ";;" (String Str.NUL EmptyString) (a +:+ String ";" b)))
  = [a; b].
Proof.
  intros Ha Hb Hna Hnb.
  rewrite replace2_pass by done.
  rewrite replace2_single by (by apply startswith_semi_absent).
  rewrite replace2_absent by done.
  rewrite split_pass by done. rewrite split_absent by done.
  simpl. by rewrite !replace1_absent by done.
Qed.

Lemma parts_escaped (a b : string) :
  Str.mem ";" a = false -> Str.mem ";" b = false ->
  Str.mem Str.NUL a = false -> Str.mem Str.NUL b = false ->
  map (Str.replace (String Str.NUL EmptyString) ";")
      (Str.split ";" (Str.replace ";;" (String Str.NUL EmptyString)
                        (a +:+ String ";" (String ";" b))))
  = [a +:+ String ";" b].
Proof.
  intros Ha Hb Hna Hnb.
  rewrite replace2_pass by done.
  rewrite replace2_hit. rewrite replace2_absent by done.
  rewrite split_absent.
  2:{ rewrite !mem_app, Ha, Hb. done. }
  simpl. rewrite !replace1_app, (replace1_absent _ _ a), (replace1_absent _ _ b) by done.
  reflexivity.
Qed.

(** C5, as the code has it: for [a] and [b] without semicolon and
    without NUL, and a clause in which [ENTITY_RE] finds no entity:
    [a;b] gives [a] and [b], or [a] alone when [b] is empty or
    whitespace; [a;;b] gives the one part [a;b]; [a;] gives what [a]
    gives, the one part [a]. *)
Theorem split_parts_two (a b : string) :
  Str.mem ";" a = false -> Str.mem ";" b = false ->
  Str.mem Str.NUL a = false -> Str.mem Str.NUL b = false ->
  (found ENTITY_RE (a +:+ ";" +:+ b) = false ->
   split_parts (a +:+ ";" +:+ b)
   = if Str.is_empty (Str.strip b) then [a] else [a; b]) /\
  (found ENTITY_RE (a +:+ ";;" +:+ b) = false ->
   split_parts (a +:+ ";;" +:+ b) = [a +:+ ";" +:+ b]) /\
  (found ENTITY_RE (a +:+ ";") = false ->
   split_parts (a +:+ ";") = split_parts a /\ split_parts a = [a]).
Proof.
  intros Ha Hb Hna Hnb.
  assert (Hone : split_parts a = [a]).
  { rewrite split_parts_no_semicolon by done. by rewrite replace1_absent. }
  split; [|split].
  - intros Hf. rewrite (split_parts_from _ [a; b]).
    + simpl. by destruct (Str.is_empty (Str.strip b)).
    + rewrite sub_not_found by done. by apply parts_two.
  - intros Hf. rewrite (split_parts_from _ [a +:+ ";" +:+ b]).
    + reflexivity.
    + rewrite sub_not_found by done. by apply parts_escaped.
  - intros Hf. split; [|done]. rewrite Hone.
    rewrite (split_parts_from _ [a; EmptyString]).
    + reflexivity.
    + rewrite sub_not_found by done. by apply (parts_two a EmptyString).
Qed.

Lemma split_parts_two_witness :
  (found ENTITY_RE ("a" +:+ ";" +:+ "b") = false ->
   split_parts ("a" +:+ ";" +:+ "b")
   = if Str.is_empty (Str.strip "b") then ["a"] else ["a"; "b"]) /\
  (found ENTITY_RE ("a" +:+ ";;" +:+ "b") = false ->
   split_parts ("a" +:+ ";;" +:+ "b") = ["a" +:+ ";" +:+ "b"]) /\
  (found ENTITY_RE ("a" +:+ ";") = false ->
   split_parts ("a" +:+ ";") = split_parts "a" /\ split_parts "a" = ["a"]).
Proof. apply (split_parts_two "a" "b"); reflexivity. Defined.

(** C5 as stated fails.  With [b] a blank, [a;b] gives [a] alone; with
    [a] an ampersand and a name, which holds no entity, the semicolon of
    [a;b] completes an entity and nothing is split, and then [a;] does
    not give what [a] gives; with [a] a NUL, the first part is a
    semicolon. *)
Lemma split_parts_two_fails :
  (Str.mem ";" nul = false /\ Str.mem ";" "b" = false /\
   found ENTITY_RE nul = false /\ found ENTITY_RE "b" = false /\
   split_parts (nul +:+ ";" +:+ "b") = [";"; "b"] /\
   split_parts (nul +:+ ";" +:+ "b") <> [nul; "b"]) /\
  (Str.mem ";" "a" = false /\ Str.mem ";" " " = false /\
   found ENTITY_RE "a" = false /\ found ENTITY_RE " " = false /\
   split_parts ("a" +:+ ";" +:+ " ") = ["a"] /\
   split_parts ("a" +:+ ";" +:+ " ") <> ["a"; " "]) /\
  (Str.mem ";" "&amp" = false /\ Str.mem ";" "x" = false /\
   found ENTITY_RE "&amp" = false /\ found ENTITY_RE "x" = false /\
   split_parts ("&amp" +:+ ";" +:+ "x") = ["&amp;x"] /\
   split_parts ("&amp" +:+ ";" +:+ "x") <> ["&amp"; "x"]) /\
  (split_parts ("&amp" +:+ ";") = ["&amp;"] /\
   split_parts "&amp" = ["&amp"] /\
   split_parts ("&amp" +:+ ";") <> split_parts "&amp").
Proof. repeat split; try reflexivity; vm_compute; congruence. Qed.

(** A string that begins with a character that is not whitespace does
    not strip to nothing. *)
Lemma strip_head_nonspace (c : ascii) (s : string) :
  Str.isspace c = false -> Str.is_empty (Str.strip (String c s)) = false.
Proof.
  intros Hc. unfold Str.strip, Str.strip_by. simpl. rewrite Hc. simpl.
  destruct (Str.rstrip_by Str.isspace s); [by rewrite Hc|done].
Qed.




(** ** Captures *)

Module CapFacts.

Lemma in_hits_cat (r1 r2 : regex) (s : string) (h : hit) :
  In h (hits (Cat r1 r2) s) ->
  exists h1 h2, In h1 (hits r1 s) /\ In h2 (hits r2 (rest h1)) /\ h = then_hit h1 h2.
Proof.
  simpl. intros Hin. apply in_flat_map in Hin as (h1 & Hh1 & Hin).
  apply in_map_iff in Hin as (h2 & <- & Hh2). eauto.
Qed.

Lemma in_hits_grp (i : nat) (r : regex) (s : string) (h : hit) :
  In h (hits (Grp i r) s) ->
  exists h1, In h1 (hits r s) /\
             h = Hit (consumed h1) (rest h1) ((i, consumed h1) :: caps h1).
Proof. simpl. intros Hin. apply in_map_iff in Hin as (h1 & <- & Hh1). eauto. Qed.

Lemma in_hits_alt (r1 r2 : regex) (s : string) (h : hit) :
  In h (hits (Alt r1 r2) s) -> In h (hits r1 s) \/ In h (hits r2 s).
Proof. simpl. apply in_app_or. Qed.

Lemma in_hits_endz (s : string) (h : hit) :
  In h (hits EndZ s) -> s = EmptyString /\ h = empty_hit EmptyString.
Proof. simpl. destruct s; [|done]. by intros [<-|[]]. Qed.

Lemma star_hits_no_caps (step : string -> list hit) :
  (forall s h, In h (step s) -> caps h = []) ->
  forall fuel s h, In h (star_hits step fuel s) -> caps h = [].
Proof.
  intros Hstep fuel. induction fuel as [|fuel IH]; intros s h; simpl.
  - by intros [<-|[]].
  - intros Hin. apply in_app_or in Hin as [Hin|[<-|[]]]; [|done].
    apply in_flat_map in Hin as (h1 & Hh1 & Hin).
    destruct (String.length (rest h1) <? String.length s)%nat; [|done].
    apply in_map_iff in Hin as (h2 & <- & Hh2). simpl.
    by rewrite (Hstep _ _ Hh1), (IH _ _ Hh2).
Qed.

(** A pattern without groups captures nothing. *)
Lemma hits_no_caps (r : regex) :
  no_grp r = true -> forall s h, In h (hits r s) -> caps h = [].
Proof.
  induction r as [|p|r1 IH1 r2 IH2|r1 IH1 r2 IH2|r IH|i r IH|]; simpl; intros Hg s h.
  - by intros [<-|[]].
  - destruct s as [|c s]; [done|]. destruct (p c); [|done]. by intros [<-|[]].
  - apply andb_true_iff in Hg as [Hg1 Hg2].
    intros Hin. apply in_flat_map in Hin as (h1 & Hh1 & Hin).
    apply in_map_iff in Hin as (h2 & <- & Hh2). simpl.
    by rewrite (IH1 Hg1 _ _ Hh1), (IH2 Hg2 _ _ Hh2).
  - apply andb_true_iff in Hg as [Hg1 Hg2].
    intros Hin. apply in_app_or in Hin as [Hin|Hin];
      [by apply (IH1 Hg1 s)|by apply (IH2 Hg2 s)].
  - apply star_hits_no_caps. exact (IH Hg).
  - done.
  - destruct s; [|done]. by intros [<-|[]].
Qed.

Lemma rmatch_in (r : regex) (s : string) (h : hit) :
  rmatch r s = Some h -> In h (hits r s).
Proof.
  unfold rmatch. destruct (hits r s) as [|h0 l]; [done|].
  intros [= ->]. by left.
Qed.

Lemma matches_star_cls (p : ascii -> bool) (w : string) :
  matches (Star (Cls p)) w -> all_in p w = true.
Proof.
  intros H. remember (Star (Cls p)) as r eqn:Er.
  induction H as [| | | | | |r0 w1 w2 H1 _ H2 IH2| |]; try done.
  injection Er as ->.
  apply SplitFacts.matches_cls_inv in H1 as (c & -> & Hc).
  rewrite sapp_cons, sapp_nil_l. simpl. by rewrite Hc, IH2.
Qed.

Lemma matches_plus_cls (p : ascii -> bool) (w : string) :
  matches (Plus (Cls p)) w -> all_in p w = true /\ w <> EmptyString.
Proof.
  unfold Plus. inversion 1 as [| |? ? w1 w2 H1 H2| | | | | |]; subst.
  apply SplitFacts.matches_cls_inv in H1 as (c & -> & Hc).
  apply matches_star_cls in H2.
  rewrite sapp_cons, sapp_nil_l. simpl. by rewrite Hc, H2.
Qed.

Lemma matches_lit (l w : string) : matches (Lit l) w -> w = l.
Proof.
  revert w. induction l as [|c l IH]; intros w; simpl.
  - by inversion 1.
  - inversion 1 as [| |? ? w1 w2 H1 H2| | | | | |]; subst.
    apply SplitFacts.matches_chr_inv in H1 as ->. by rewrite (IH _ H2).
Qed.

End CapFacts.

Import CapFacts.

(** ** [parse_defines] *)

(** *** [strip] *)

Lemma rstrip_by_idempotent (p : ascii -> bool) (s : string) :
  Str.rstrip_by p (Str.rstrip_by p s) = Str.rstrip_by p s.
Proof.
  induction s as [|c s IH]; [done|]. simpl.
  destruct (Str.rstrip_by p s) as [|d r] eqn:E.
  - destruct (p c) eqn:Ec; [done|]. simpl. by rewrite Ec.
  - change (Str.rstrip_by p (String c (String d r)))
      with (match Str.rstrip_by p (String d r) with
            | EmptyString => if p c then EmptyString else String c EmptyString
            | r' => String c r'
            end).
    by rewrite IH.
Qed.

Lemma rstrip_by_head (p : ascii -> bool) (c : ascii) (s : string) :
  p c = false -> exists r, Str.rstrip_by p (String c s) = String c r.
Proof.
  intros Hc. simpl. destruct (Str.rstrip_by p s); [rewrite Hc|]; eauto.
Qed.

Lemma lstrip_by_head (p : ascii -> bool) (s : string) :
  Str.lstrip_by p s = EmptyString
  \/ exists c r, Str.lstrip_by p s = String c r /\ p c = false.
Proof.
  induction s as [|c s IH]; [by left|]. simpl.
  destruct (p c) eqn:E; [done|]. right. eauto.
Qed.

(** Stripping twice is stripping once. *)
Lemma strip_by_idempotent (p : ascii -> bool) (s : string) :
  Str.strip_by p (Str.strip_by p s) = Str.strip_by p s.
Proof.
  unfold Str.strip_by.
  destruct (lstrip_by_head p s) as [->|(c & r & -> & Hc)]; [done|].
  destruct (rstrip_by_head p c r Hc) as [r' Hr]. rewrite Hr.
  simpl Str.lstrip_by. rewrite Hc, <- Hr. apply rstrip_by_idempotent.
Qed.

Lemma strip_trimmed (s : string) : trimmed (Str.strip s).
Proof. apply strip_by_idempotent. Qed.

Lemma strip_by_none (p : ascii -> bool) (s : string) :
  all_in (fun c => negb (p c)) s = true -> Str.strip_by p s = s.
Proof.
  intros H. unfold Str.strip_by.
  assert (Hl : Str.lstrip_by p s = s).
  { destruct s as [|c s]; [done|]. simpl in *.
    apply andb_true_iff in H as [Hc _]. apply negb_true_iff in Hc. by rewrite Hc. }
  rewrite Hl. induction s as [|c s IH]; [done|]. simpl in *.
  apply andb_true_iff in H as [Hc Hs]. apply negb_true_iff in Hc.
  assert (Hl' : Str.lstrip_by p s = s).
  { destruct s as [|d s]; [done|]. simpl in *.
    apply andb_true_iff in Hs as [Hd _]. apply negb_true_iff in Hd. by rewrite Hd. }
  rewrite (IH Hs Hl'). destruct s; [by rewrite Hc|done].
Qed.

(** *** [DEFINE_RE] *)

Lemma name_char_nonspace (c : ascii) : name_char c = true -> nonspace c = true.
Proof. destruct c as [[] [] [] [] [] [] [] []]; vm_compute; congruence. Qed.

Lemma name_start_char (c : ascii) : name_start c = true -> name_char c = true.
Proof. unfold name_start, name_char. intros H. apply orb_true_iff in H as [->| ->];
  by rewrite ?orb_true_r. Qed.

(** A word of [NAME] is an identifier character that is no digit and no
    hyphen, then identifier characters. *)
Lemma matches_NAME (w : string) :
  matches NAME w ->
  exists c r, w = String c r /\ name_start c = true /\ all_in name_char r = true.
Proof.
  unfold NAME. inversion 1 as [| |? ? w1 w2 H1 H2| | | | | |]; subst.
  apply SplitFacts.matches_cls_inv in H1 as (c & -> & Hc).
  apply matches_star_cls in H2. exists c, w2. by rewrite sapp_cons, sapp_nil_l.
Qed.

Lemma matches_NAME_trimmed (w : string) : matches NAME w -> trimmed w.
Proof.
  intros H. apply matches_NAME in H as (c & r & -> & Hc & Hr).
  apply strip_by_none. simpl. fold (nonspace c).
  rewrite (name_char_nonspace _ (name_start_char _ Hc)). simpl.
  revert Hr. apply SplitFacts.all_in_impl. apply name_char_nonspace.
Qed.

(** What a match of [DEFINE_RE] is made of: the expression, the name or
    the list of names, and the keyword if there is one. *)
Lemma define_re_match (part : string) (m : hit) :
  rmatch DEFINE_RE part = Some m ->
  exists (name expr : string) (kw : list (nat * string)),
    caps m = (3%nat, expr) :: (2%nat, name) :: kw /\
    (kw = [] \/ kw = [(1%nat, "global")] \/ kw = [(1%nat, "local")]) /\
    (matches NAME name \/ matches NAME_LIST name).
Proof.
  intros Hm. apply rmatch_in in Hm. unfold DEFINE_RE in Hm.
  apply in_hits_cat in Hm as (h1 & t2 & Hh1 & Ht2 & ->).
  apply in_hits_cat in Ht2 as (o & t3 & Ho & Ht3 & ->).
  apply in_hits_cat in Ht3 as (g2 & t4 & Hg2 & Ht4 & ->).
  apply in_hits_cat in Ht4 as (h4 & t5 & Hh4 & Ht5 & ->).
  apply in_hits_cat in Ht5 as (g3 & h6 & Hg3 & Hh6 & ->).
  apply in_hits_grp in Hg2 as (n & Hn & ->).
  apply in_hits_grp in Hg3 as (e & He & ->).
  unfold then_hit in *. cbn [rest consumed caps] in *.
  apply in_hits_endz in Hh6 as [_ ->].
  assert (C1 := hits_no_caps (Star (Cls space)) eq_refl _ _ Hh1).
  assert (Cn := hits_no_caps (Alt NAME NAME_LIST) eq_refl _ _ Hn).
  assert (C4 := hits_no_caps (Plus (Cls space)) eq_refl _ _ Hh4).
  assert (Ce := hits_no_caps (Star (Cls any)) eq_refl _ _ He).
  destruct (ReFacts.hits_sound _ _ _ Hn) as [_ Mn].
  exists (consumed n), (consumed e), (caps o).
  split; [by rewrite C1, Cn, C4, Ce, app_nil_r|].
  split.
  - unfold Opt in Ho. apply in_hits_alt in Ho as [Ho|Ho].
    + apply in_hits_cat in Ho as (g1 & p & Hg1 & Hp & ->).
      apply in_hits_grp in Hg1 as (k & Hk & ->).
      unfold then_hit in *. cbn [rest consumed caps] in *.
      assert (Cp := hits_no_caps (Plus (Cls space)) eq_refl _ _ Hp).
      assert (Ck := hits_no_caps (Alt (Lit "global") (Lit "local")) eq_refl _ _ Hk).
      destruct (ReFacts.hits_sound _ _ _ Hk) as [_ Mk].
      rewrite Cp, Ck. simpl.
      inversion Mk as [| | |? ? ? Hl|? ? ? Hr| | | |]; subst.
      * apply (matches_lit "global") in Hl as ->. by right; left.
      * apply (matches_lit "local") in Hr as ->. by right; right.
    + simpl in Ho. destruct Ho as [<-|[]]. by left.
  - inversion Mn as [| | |? ? ? Hl|? ? ? Hr| | | |]; subst; [by left|by right].
Qed.

(** *** The names of a parenthesised list *)

Lemma matches_name_tail (w : string) :
  matches (Star (Cat (Chr ",") (Cat (Star (Cls space)) NAME))) w ->
  exists items : list (string * string),
    w = name_tail items /\
    Forall (fun item => all_in space (fst item) = true /\ matches NAME (snd item))
           items.
Proof.
  intros H. remember (Star (Cat (Chr ",") (Cat (Star (Cls space)) NAME))) as r eqn:Er.
  induction H as [| | | | | |r0 w1 w2 H1 _ H2 IH2| |]; try done.
  - exists []. by split.
  - injection Er as ->. destruct (IH2 eq_refl) as (items & -> & HF).
    inversion H1 as [| |? ? wa wb Ha Hb| | | | | |]; subst.
    inversion Hb as [| |? ? ws n Hws Hn| | | | | |]; subst.
    apply SplitFacts.matches_chr_inv in Ha as ->.
    apply matches_star_cls in Hws.
    exists ((ws, n) :: items). split.
    + simpl. by rewrite !sapp_assoc.
    + by constructor.
Qed.

Lemma matches_NAME_LIST (name : string) :
  matches NAME_LIST name ->
  exists (n1 : string) (items : list (string * string)),
    name = "(" +:+ n1 +:+ name_tail items +:+ ")" /\
    matches NAME n1 /\
    Forall (fun item => all_in space (fst item) = true /\ matches NAME (snd item))
           items.
Proof.
  unfold NAME_LIST.
  inversion 1 as [| |? ? w1 t1 H1 Ht1| | | | | |]; subst.
  inversion Ht1 as [| |? ? n1 t2 Hn1 Ht2| | | | | |]; subst.
  inversion Ht2 as [| |? ? w3 w4 H3 H4| | | | | |]; subst.
  apply SplitFacts.matches_chr_inv in H1 as ->, H4 as ->.
  apply matches_name_tail in H3 as (items & -> & HF).
  exists n1, items. done.
Qed.

Lemma name_char_facts (c : ascii) :
  name_char c = true ->
  Str.isspace c = false /\ Str.mem c "()" = false /\ c <> ","%char.
Proof. destruct c as [[] [] [] [] [] [] [] []]; vm_compute; try done; intros _; repeat split; congruence. Qed.

Lemma matches_NAME_chars (n : string) :
  matches NAME n ->
  n <> EmptyString /\ all_in name_char n = true.
Proof.
  intros H. apply matches_NAME in H as (c & r & -> & Hc & Hr).
  split; [done|]. simpl. by rewrite (name_start_char _ Hc), Hr.
Qed.

(** The text after the first name of a list ends with a name character,
    and so does the first name. *)
Lemma rstrip_by_keep (p : ascii -> bool) (s : string) (c : ascii) :
  p c = false -> Str.rstrip_by p (s +:+ String c EmptyString) = s +:+ String c EmptyString.
Proof.
  intros Hc. induction s as [|d s IH]; simpl.
  - by rewrite Hc.
  - rewrite sapp_cons. simpl. rewrite IH.
    destruct s; by rewrite ?sapp_cons.
Qed.

Lemma rstrip_by_drop (p : ascii -> bool) (s : string) (c d : ascii) :
  p c = false -> p d = true ->
  Str.rstrip_by p ((s +:+ String c EmptyString) +:+ String d EmptyString)
  = s +:+ String c EmptyString.
Proof.
  intros Hc Hd. induction s as [|e s IH].
  - simpl. by rewrite Hd, Hc.
  - rewrite !sapp_cons. simpl. rewrite IH. destruct s; by rewrite ?sapp_cons.
Qed.

Lemma last_char (s : string) :
  s <> EmptyString -> exists t c, s = t +:+ String c EmptyString.
Proof.
  induction s as [|d s IH]; [done|]. intros _.
  destruct s as [|e s].
  - by exists EmptyString, d.
  - destruct (IH ltac:(done)) as (t & c & ->). exists (String d t), c.
    by rewrite sapp_cons.
Qed.

Lemma all_in_last (p : ascii -> bool) (t : string) (c : ascii) :
  all_in p (t +:+ String c EmptyString) = true -> p c = true.
Proof.
  rewrite all_in_app. simpl. intros H.
  apply andb_true_iff in H as [_ H]. by apply andb_true_iff in H as [? _].
Qed.

Lemma name_tail_last (n1 : string) (items : list (string * string)) :
  matches NAME n1 ->
  Forall (fun item => all_in space (fst item) = true /\ matches NAME (snd item))
         items ->
  exists t c, n1 +:+ name_tail items = t +:+ String c EmptyString
              /\ name_char c = true.
Proof.
  intros Hn HF. revert n1 Hn. induction HF as [|[ws n] items [_ Hn'] _ IH]; intros n1 Hn.
  - simpl. rewrite sapp_nil_r.
    apply matches_NAME_chars in Hn as [Hne Hall].
    destruct (last_char _ Hne) as (t & c & ->). exists t, c. split; [done|].
    by apply all_in_last in Hall.
  - simpl in *. destruct (IH n Hn') as (t & c & E & Hc).
    exists (n1 +:+ "," +:+ ws +:+ t), c. split; [|done].
    by rewrite !sapp_assoc, <- E.
Qed.

(** [strip('()')] takes the parentheses off a list of names. *)
Lemma strip_parens (n1 : string) (items : list (string * string)) :
  matches NAME n1 ->
  Forall (fun item => all_in space (fst item) = true /\ matches NAME (snd item))
         items ->
  Str.strip_chars "()" ("(" +:+ n1 +:+ name_tail items +:+ ")")
  = n1 +:+ name_tail items.
Proof.
  intros Hn HF. unfold Str.strip_chars, Str.strip_by.
  destruct (name_tail_last _ _ Hn HF) as (t & c & E & Hc).
  rewrite <- (sapp_assoc n1), E.
  apply matches_NAME in Hn as (c1 & r1 & En & Hc1 & _).
  assert (Hl : Str.lstrip_by (fun c0 => Str.mem c0 "()")
                 ("(" +:+ (t +:+ String c EmptyString) +:+ ")")
               = (t +:+ String c EmptyString) +:+ ")").
  { rewrite sapp_cons, sapp_nil_l. simpl.
    assert (Hh : exists c0 r0, t +:+ String c EmptyString = String c0 r0
                               /\ name_char c0 = true).
    { subst n1. destruct t as [|c0 t0].
      - rewrite sapp_nil_l in *. eauto.
      - rewrite sapp_cons in E |- *. injection E as <- _.
        exists c1, (t0 +:+ String c EmptyString). split; [done|].
        by apply name_start_char. }
    destruct Hh as (c0 & r0 & -> & Hc0). rewrite sapp_cons. simpl.
    destruct (name_char_facts _ Hc0) as (_ & Hm & _). simpl in Hm. by rewrite Hm. }
  rewrite Hl. apply rstrip_by_drop; [|done].
  by destruct (name_char_facts _ Hc) as (_ & Hm & _).
Qed.

Lemma all_in_no_comma (n : string) :
  all_in name_char n = true -> Str.mem "," n = false.
Proof.
  intros H. apply (all_in_not_mem name_char); [done|done].
Qed.

Lemma space_no_comma (ws : string) :
  all_in space ws = true -> Str.mem "," ws = false.
Proof. intros H. by apply (all_in_not_mem space). Qed.

(** Splitting the list at its commas gives the first name, and each
    further name with the whitespace before it. *)
Lemma split_names (n1 : string) (items : list (string * string)) :
  matches NAME n1 ->
  Forall (fun item => all_in space (fst item) = true /\ matches NAME (snd item))
         items ->
  Str.split "," (n1 +:+ name_tail items)
  = n1 :: map (fun item => fst item +:+ snd item) items.
Proof.
  intros Hn HF. revert n1 Hn.
  induction HF as [|[ws n] items [Hws Hn'] _ IH]; intros n1 Hn.
  - simpl. rewrite sapp_nil_r. apply split_absent, all_in_no_comma.
    by apply matches_NAME_chars in Hn as [_ ?].
  - simpl name_tail. rewrite sapp_cons, sapp_nil_l.
    rewrite split_pass.
    2:{ apply all_in_no_comma. by apply matches_NAME_chars in Hn as [_ ?]. }
    simpl in *.
    assert (Hwn : matches NAME n) by done.
    destruct (matches_NAME_chars _ Hn') as [_ Hall].
    rewrite <- sapp_assoc.
    clear Hn. revert IH. generalize (name_tail items) as tl. intros tl IH.
    f_equal.
    assert (Hgen : forall x, Str.mem "," x = false ->
              Str.split "," (x +:+ n +:+ tl)
              = match Str.split "," (n +:+ tl) with
                | p :: ps => (x +:+ p) :: ps
                | [] => []
                end).
    { intros x Hx. induction x as [|d x IHx].
      - rewrite sapp_nil_l. destruct (Str.split "," (n +:+ tl)) eqn:Es; [|done].
        by destruct (split_not_nil "," (n +:+ tl)).
      - apply mem_cons_false in Hx as [Hd Hx]. rewrite sapp_cons. simpl.
        replace (Str.char_is "," d) with false
          by (symmetry; apply char_is_false; congruence).
        rewrite (IHx Hx).
        destruct (Str.split "," (n +:+ tl)) eqn:Es; [|done].
        by destruct (split_not_nil "," (n +:+ tl)). }
    rewrite sapp_assoc, (Hgen ws (space_no_comma _ Hws)), (IH n Hwn). done.
Qed.

Lemma lstrip_by_pass (p : ascii -> bool) (ws s : string) :
  all_in p ws = true -> Str.lstrip_by p (ws +:+ s) = Str.lstrip_by p s.
Proof.
  induction ws as [|c ws IH]; [done|]. intros H. simpl in H.
  apply andb_true_iff in H as [Hc Hws]. rewrite sapp_cons. simpl.
  by rewrite Hc, IH.
Qed.

(** Stripping such a piece leaves the name. *)
Lemma strip_name_piece (ws n : string) :
  all_in space ws = true -> matches NAME n -> Str.strip (ws +:+ n) = n.
Proof.
  intros Hws Hn. pose proof (matches_NAME_trimmed _ Hn) as Ht.
  unfold trimmed, Str.strip, Str.strip_by in *.
  by rewrite lstrip_by_pass.
Qed.

(** The names made of a parenthesised list are its identifiers, in
    order. *)
Lemma names_of_list (name : string) :
  matches NAME_LIST name ->
  exists (n1 : string) (items : list (string * string)),
    name = "(" +:+ n1 +:+ name_tail items +:+ ")" /\
    Forall (fun item => all_in space (fst item) = true) items /\
    Forall (matches NAME) (n1 :: map snd items) /\
    map Str.strip (Str.split "," (Str.strip_chars "()" name))
    = n1 :: map snd items.
Proof.
  intros H. apply matches_NAME_LIST in H as (n1 & items & -> & Hn & HF).
  exists n1, items. split; [done|].
  split; [by eapply Forall_impl; [exact HF|intros ? [? _]]|].
  split.
  { constructor; [done|]. apply Forall_forall. intros x Hx.
    apply list_elem_of_In, in_map_iff in Hx as ([ws n] & <- & Hin).
    rewrite Forall_forall in HF. apply list_elem_of_In in Hin.
    by destruct (HF _ Hin). }
  rewrite (strip_parens _ _ Hn HF), (split_names _ _ Hn HF). simpl.
  f_equal.
  - apply (strip_name_piece EmptyString n1 eq_refl Hn).
  - rewrite map_map. apply map_ext_in. intros [ws n] Hin. simpl.
    rewrite Forall_forall in HF. apply list_elem_of_In in Hin.
    destruct (HF _ Hin). by apply strip_name_piece.
Qed.

Lemma define_of_part_rmatch (part : string) :
  define_of_part part
  = match rmatch DEFINE_RE part with
    | Some m => Some (define_of_match m)
    | None => None
    end.
Proof. reflexivity. Qed.

(** The loop returns a list exactly when every part matches; the list
    is the one it started with and then one triple per part, in order. *)
Lemma parse_defines_loop_some (parts : list string) :
  forall (acc ds : list define),
    parse_defines_loop parts acc = Some ds <->
    exists ds', parts_defines parts ds' /\ ds = acc ++ ds'.
Proof.
  induction parts as [|part parts IH]; intros acc ds; simpl.
  - split.
    + intros [= <-]. exists []. by rewrite app_nil_r.
    + intros (ds' & HF & ->). inversion HF; subst. by rewrite app_nil_r.
  - pose proof (define_of_part_rmatch part) as Hp.
    destruct (rmatch DEFINE_RE part) as [m|].
    + rewrite IH. split.
      * intros (ds' & HF & ->). exists (define_of_match m :: ds').
        split; [by constructor|by rewrite <- app_assoc].
      * intros (ds' & HF & ->). inversion HF as [|? d ? ds'' Hd HF']; subst.
        rewrite Hp in Hd. injection Hd as <-.
        exists ds''. split; [done|by rewrite <- app_assoc].
    + split; [done|]. intros (ds' & HF & _). inversion HF; subst. congruence.
Qed.

(** The loop returns [None] exactly when some part does not match. *)
Lemma parse_defines_loop_none (parts : list string) :
  forall acc : list define,
    parse_defines_loop parts acc = None <->
    exists part, In part parts /\ rmatch DEFINE_RE part = None.
Proof.
  induction parts as [|part parts IH]; intros acc; simpl.
  - split; [done|]. by intros (? & [] & _).
  - destruct (rmatch DEFINE_RE part) as [m|] eqn:E.
    + rewrite IH. split.
      * intros (p & Hin & Hp). eauto.
      * intros (p & [<-|Hin] & Hp); [congruence|eauto].
    + split; [|done]. intros _. exists part. split; [by left|done].
Qed.

(** The triple made of a match: the scope is the keyword, [local]
    without one; the names are the 1-tuple of a bare name, or the list
    of the pieces between the commas of a parenthesised list, each
    stripped; the expression is group 3. *)
Lemma define_of_match_spec (part : string) (m : hit) :
  rmatch DEFINE_RE part = Some m ->
  exists (scope : string) (names : pyseq) (expr : string),
    define_of_match m = (scope, names, expr) /\
    (group 1 (caps m) = None -> scope = "local") /\
    (forall kw, group 1 (caps m) = Some kw -> scope = kw) /\
    (scope = "local" \/ scope = "global") /\
    ((matches NAME (group_str 2 m) /\ names = PyTuple [group_str 2 m]) \/
     (exists (n1 : string) (items : list (string * string)),
        group_str 2 m = "(" +:+ n1 +:+ name_tail items +:+ ")" /\
        Forall (fun item => all_in space (fst item) = true) items /\
        names = PyList (n1 :: map snd items))) /\
    Forall (matches NAME) (seq_items names) /\
    Forall trimmed (seq_items names) /\
    expr = group_str 3 m.
Proof.
  intros Hm.
  destruct (define_re_match _ _ Hm) as (name & expr & kw & Hc & Hkw & Hname).
  assert (Hscope : exists scope,
            match group 1 (caps m) with
            | Some c => if Str.is_empty c then "local" else c
            | None => "local"
            end = scope /\
            (group 1 (caps m) = None -> scope = "local") /\
            (forall k, group 1 (caps m) = Some k -> scope = k) /\
            (scope = "local" \/ scope = "global")).
  { rewrite Hc. cbn [group Nat.eqb].
    destruct Hkw as [->|[->| ->]]; simpl; eexists; (split; [reflexivity|]);
      repeat split; auto; congruence. }
  destruct Hscope as (scope & Escope & Hs1 & Hs2 & Hs3).
  assert (Hn2 : group_str 2 m = name) by (unfold group_str; by rewrite Hc).
  assert (Hn3 : group_str 3 m = expr) by (unfold group_str; by rewrite Hc).
  unfold define_of_match. rewrite Escope, Hn2, Hn3.
  destruct Hname as [Hn|Hn].
  - pose proof (matches_NAME_trimmed _ Hn) as Ht.
    assert (Hsw : Str.startswith "(" name = false).
    { apply matches_NAME in Hn as (c & r & -> & Hs & _).
      simpl. rewrite andb_true_r.
      destruct (Str.char_is "(" c) eqn:E; [|done].
      apply SplitFacts.char_is_true in E as <-. done. }
    rewrite Hsw. eexists _, _, _. split; [reflexivity|].
    repeat split; try done; [by left|by constructor|by constructor].
  - destruct (names_of_list _ Hn) as (n1 & items & En & Hws & Hnames & Hsplit).
    assert (Hsw : Str.startswith "(" name = true).
    { rewrite En. by rewrite sapp_cons, sapp_nil_l. }
    rewrite Hsw, Hsplit. eexists _, _, _. split; [reflexivity|].
    repeat split; try done.
    + right. exists n1, items. done.
    + cbn [seq_items]. eapply Forall_impl; [exact Hnames|].
      intros x. apply matches_NAME_trimmed.
Qed.

(** C7, as the code has it.  [parse_defines] returns [None], and
    raises nothing, when a part does not match [DEFINE_RE], and only
    then; when every part matches it returns one triple per part, in
    order.  In a triple the scope is the keyword, [local] when there is
    none; the names of a parenthesised list are the pieces between its
    commas, each stripped of whitespace, as a list, and a bare name is a
    1-tuple.  The example gives the tuple of [x] and the list of [a] and
    [b]. *)
Theorem parse_defines_grammar (clause : string) :
  let parts := split_parts clause in
  (forall part : string,
     In part parts -> rmatch DEFINE_RE part = None -> parse_defines clause = None) /\
  (parse_defines clause = None ->
   exists part, In part parts /\ rmatch DEFINE_RE part = None) /\
  (forall ds : list define,
     parse_defines clause = Some ds <-> parts_defines parts ds) /\
  (forall (part : string) (m : hit),
     rmatch DEFINE_RE part = Some m ->
     exists (scope : string) (names : pyseq) (expr : string),
       define_of_match m = (scope, names, expr) /\
       (group 1 (caps m) = None -> scope = "local") /\
       (forall kw, group 1 (caps m) = Some kw -> scope = kw) /\
       (scope = "local" \/ scope = "global") /\
       ((matches NAME (group_str 2 m) /\ names = PyTuple [group_str 2 m]) \/
        (exists (n1 : string) (items : list (string * string)),
           group_str 2 m = "(" +:+ n1 +:+ name_tail items +:+ ")" /\
           Forall (fun item => all_in space (fst item) = true) items /\
           names = PyList (n1 :: map snd items))) /\
       Forall (matches NAME) (seq_items names) /\
       Forall trimmed (seq_items names) /\
       expr = group_str 3 m) /\
  parse_defines "local x path1; global (a,b) path2"
  = Some [("local", PyTuple ["x"], "path1"); ("global", PyList ["a"; "b"], "path2")].
Proof.
  intros parts. unfold parse_defines. fold parts.
  split; [|split; [|split; [|split; [exact define_of_match_spec|reflexivity]]]].
  - intros part Hin Hp. apply parse_defines_loop_none. eauto.
  - apply parse_defines_loop_none.
  - intros ds. rewrite parse_defines_loop_some. split.
    + by intros (ds' & HF & ->).
    + intros HF. by exists ds.
Qed.

(** C7 as stated fails on its example: the names of the parenthesised
    form are a list, which Python's [==] does not take for a tuple of
    the same names. *)
Lemma parse_defines_example_not_tuple :
  parse_defines "local x path1; global (a,b) path2"
  = Some [("local", PyTuple ["x"], "path1"); ("global", PyList ["a"; "b"], "path2")] /\
  parse_defines "local x path1; global (a,b) path2"
  <> Some [("local", PyTuple ["x"], "path1"); ("global", PyTuple ["a"; "b"], "path2")].
Proof. split; [reflexivity|]. vm_compute. congruence. Qed.


(** ** [split_parts] on a text in two pieces *)

Lemma split_parts_raw (s : string) : split_parts s = drop_blank_last (raw_parts s).
Proof. reflexivity. Qed.

Lemma prefix_before (b : ascii) (w x t r : string) :
  Str.mem b w = false -> x +:+ String b t = w +:+ r -> exists r', x = w +:+ r'.
Proof.
  revert x. induction w as [|c w IH]; intros x Hw E.
  - by exists x.
  - apply mem_cons_false in Hw as [Hc Hw]. destruct x as [|d x].
    + rewrite sapp_nil_l, sapp_cons in E. injection E as E1 E2. congruence.
    + rewrite !sapp_cons in E. injection E as -> E.
      destruct (IH _ Hw E) as [r' ->]. exists r'. by rewrite sapp_cons.
Qed.

Lemma rmatch_entity (s : string) (h : hit) :
  rmatch ENTITY_RE s = Some h ->
  matches ENTITY_RE (consumed h) /\ s = consumed h +:+ rest h /\
  entity_template h = consumed h +:+ ";".
Proof.
  intros H. destruct (ReFacts.rmatch_sound _ _ _ H) as [Es Hm].
  split; [done|]. split; [done|]. by apply (entity_template_consumed s).
Qed.

(** A match that begins before a character no entity can hold lies
    before that character, and is there whatever follows. *)
Lemma entity_local (b c : ascii) (x t : string) :
  entity_char b = false -> b <> ";"%char ->
  match rmatch ENTITY_RE (String c x +:+ String b t) with
  | Some h =>
      exists h', rmatch ENTITY_RE (String c x) = Some h' /\
                 consumed h' = consumed h /\
                 (String.length (consumed h) <= S (String.length x))%nat
  | None => rmatch ENTITY_RE (String c x) = None
  end.
Proof.
  intros Hb Hs.
  destruct (rmatch ENTITY_RE (String c x +:+ String b t)) as [h|] eqn:E.
  - destruct (rmatch_entity _ _ E) as (Hm & Es & _).
    pose proof Hm as Hsh. apply entity_shape in Hsh as (body & Hc & Hbody).
    rewrite Hc in Es. rewrite !sapp_cons in Es. injection Es as -> Es.
    assert (Hmem : Str.mem b (body +:+ ";") = false).
    { rewrite mem_app, (all_in_not_mem entity_char b body Hb Hbody). simpl.
      rewrite orb_false_r. apply char_is_false. congruence. }
    destruct (prefix_before _ _ _ _ _ Hmem Es) as [r' ->].
    destruct (entity_match _ r' Hm) as (h' & Hh' & Hc' & _).
    exists h'. rewrite Hc in Hh' at 1. rewrite sapp_cons in Hh'.
    split; [done|]. split; [done|].
    rewrite Hc. simpl. rewrite !slength_app. lia.
  - destruct (rmatch ENTITY_RE (String c x)) as [h'|] eqn:E'; [|done]. exfalso.
    destruct (rmatch_entity _ _ E') as (Hm & Es & _).
    destruct (entity_match _ (rest h' +:+ String b t) Hm) as (h & Hh & _).
    rewrite <- sapp_assoc, <- Es in Hh. congruence.
Qed.

Lemma sub_from_0 (r : regex) (template : hit -> string) (c : ascii) (s : string) :
  sub_from r template 0 (String c s)
  = match rmatch r (String c s) with
    | Some h => template h +:+ sub_from r template (String.length (consumed h) - 1) s
    | None => String c (sub_from r template 0 s)
    end.
Proof. reflexivity. Qed.

Lemma sub_from_S (r : regex) (template : hit -> string) (k : nat) (c : ascii)
  (s : string) :
  sub_from r template (S k) (String c s) = sub_from r template k s.
Proof. reflexivity. Qed.

Lemma sub_from_app (b : ascii) (t : string) :
  entity_char b = false -> b <> ";"%char ->
  forall (x : string) (skip : nat), (skip <= String.length x)%nat ->
    sub_from ENTITY_RE entity_template skip (x +:+ String b t)
    = sub_from ENTITY_RE entity_template skip x
      +:+ sub_from ENTITY_RE entity_template 0 (String b t).
Proof.
  intros Hb Hs. induction x as [|c x IH]; intros skip Hk.
  - simpl in Hk. assert (skip = 0%nat) as -> by lia. by rewrite sapp_nil_l.
  - destruct skip as [|k].
    + pose proof (entity_local b c x t Hb Hs) as Hl.
      rewrite sapp_cons in Hl |- *. rewrite !sub_from_0.
      destruct (rmatch ENTITY_RE (String c (x +:+ String b t))) as [h|] eqn:E.
      * destruct Hl as (h' & Hh' & Hc & Hlen). rewrite Hh', Hc.
        rewrite (entity_template_consumed _ _ E), (entity_template_consumed _ _ Hh'), Hc.
        rewrite IH by lia. by rewrite !sapp_assoc.
      * rewrite Hl. by rewrite IH, sapp_cons by lia.
    + rewrite sapp_cons, !sub_from_S. apply IH. simpl in Hk. lia.
Qed.

(** [sub] on a NUL and on an entity, in any text. *)
Lemma sub_nul (x y : string) :
  Re.sub ENTITY_RE entity_template (x +:+ String Str.NUL y)
  = Re.sub ENTITY_RE entity_template x
    +:+ String Str.NUL (Re.sub ENTITY_RE entity_template y).
Proof.
  unfold Re.sub. rewrite (sub_from_app Str.NUL y) by (done || lia).
  f_equal; try (by rewrite sub_from_0, entity_miss).
Qed.


Lemma replace_from_0 (old new : string) (c : ascii) (s : string) :
  Str.replace_from old new 0 (String c s)
  = if Str.startswith old (String c s)
    then new +:+ Str.replace_from old new (String.length old - 1) s
    else String c (Str.replace_from old new 0 s).
Proof. reflexivity. Qed.

Lemma replace_from_S (old new : string) (k : nat) (c : ascii) (s : string) :
  Str.replace_from old new (S k) (String c s) = Str.replace_from old new k s.
Proof. reflexivity. Qed.

Lemma startswith2_app (d c : ascii) (u w : string) :
  c <> ";"%char ->
  Str.startswith ";;" (String d u +:+ String c w) = Str.startswith ";;" (String d u).
Proof.
  intros Hc. destruct u as [|d' u]; [|done].
  rewrite sapp_cons, sapp_nil_l. simpl.
  replace (Str.char_is ";" c) with false by (symmetry; apply char_is_false; congruence).
  by rewrite !andb_false_r.
Qed.

Lemma replace2_from_app (new : string) (c : ascii) (w : string) :
  c <> ";"%char ->
  forall (u : string) (skip : nat), (skip <= String.length u)%nat ->
    Str.replace_from ";;" new skip (u +:+ String c w)
    = Str.replace_from ";;" new skip u +:+ Str.replace_from ";;" new 0 (String c w).
Proof.
  intros Hc. induction u as [|d u IH]; intros skip Hk.
  - simpl in Hk. assert (skip = 0%nat) as -> by lia. by rewrite sapp_nil_l.
  - destruct skip as [|k].
    + pose proof (startswith2_app d c u w Hc) as Hsw.
      rewrite sapp_cons in Hsw |- *. rewrite !replace_from_0, Hsw.
      destruct (Str.startswith ";;" (String d u)) eqn:E.
      * assert (1 <= String.length u)%nat.
        { destruct u as [|d' u]; [|simpl; lia]. simpl in E.
          by rewrite andb_false_r in E. }
        rewrite IH by (simpl; lia). by rewrite sapp_assoc.
      * by rewrite IH, sapp_cons by lia.
    + rewrite sapp_cons, !replace_from_S. apply IH. simpl in Hk. lia.
Qed.

Lemma replace2_app (new : string) (c : ascii) (u w : string) :
  c <> ";"%char ->
  Str.replace ";;" new (u +:+ String c w)
  = Str.replace ";;" new u +:+ String c (Str.replace ";;" new w).
Proof.
  intros Hc. unfold Str.replace. rewrite replace2_from_app by (done || lia).
  f_equal. rewrite replace_from_0.
  replace (Str.startswith ";;" (String c w)) with false; [done|].
  symmetry. simpl.
  by replace (Str.char_is ";" c) with false by (symmetry; apply char_is_false; congruence).
Qed.

(** [split] on a text in two pieces: the last piece of the first and
    the first piece of the second are one piece. *)
Lemma split_app (sep : ascii) (u v : string) :
  Str.split sep (u +:+ v)
  = removelast (Str.split sep u)
    ++ (List.last (Str.split sep u) EmptyString +:+ hd EmptyString (Str.split sep v))
       :: tl (Str.split sep v).
Proof.
  induction u as [|d u IH].
  - rewrite sapp_nil_l. pose proof (split_not_nil sep v).
    by destruct (Str.split sep v).
  - rewrite sapp_cons. pose proof (split_not_nil sep u) as Hu.
    simpl Str.split. rewrite IH.
    destruct (Str.char_is sep d).
    + destruct (Str.split sep u) as [|p ps]; [done|]. reflexivity.
    + destruct (Str.split sep u) as [|p [|q ps]]; [done| |]; reflexivity.
Qed.

Lemma map_removelast {A B} (f : A -> B) (l : list A) :
  map f (removelast l) = removelast (map f l).
Proof.
  induction l as [|a [|b l] IH]; [done|done|].
  change (removelast (a :: b :: l)) with (a :: removelast (b :: l)).
  change (removelast (map f (a :: b :: l)))
    with (f a :: removelast (map f (b :: l))).
  by rewrite map_cons, IH.
Qed.

Lemma map_last_default {A B} (f : A -> B) (l : list A) (d : A) :
  List.last (map f l) (f d) = f (List.last l d).
Proof. induction l as [|a [|b l] IH]; [done|done|]. exact IH. Qed.

Lemma map_hd_default {A B} (f : A -> B) (l : list A) (d : A) :
  hd (f d) (map f l) = f (hd d l).
Proof. by destruct l. Qed.

Lemma map_tl {A B} (f : A -> B) (l : list A) : map f (tl l) = tl (map f l).
Proof. by destruct l. Qed.

(** The parts of a text [x m y] when the two replacements leave, for
    [m], a piece [M] without semicolon between what they make of [x]
    and of [y]. *)
Lemma raw_parts_glue (x m y M : string) :
  Str.mem ";" M = false ->
  Str.replace ";;" nul (Re.sub ENTITY_RE entity_template (x +:+ m +:+ y))
  = Str.replace ";;" nul (Re.sub ENTITY_RE entity_template x) +:+ M
    +:+ Str.replace ";;" nul (Re.sub ENTITY_RE entity_template y) ->
  raw_parts (x +:+ m +:+ y) = glue (Str.replace nul ";" M) (raw_parts x) (raw_parts y).
Proof.
  intros HM E. unfold raw_parts, glue. rewrite E.
  rewrite split_app, (split_app ";" M), (split_absent ";" M HM).
  cbn [removelast List.last hd tl app].
  rewrite map_app, map_cons, map_removelast, map_tl, !replace1_app.
  rewrite <- (map_last_default (Str.replace nul ";") _ EmptyString).
  rewrite <- (map_hd_default (Str.replace nul ";") _ EmptyString).
  reflexivity.
Qed.

Lemma raw_parts_not_nil (s : string) : raw_parts s <> [].
Proof.
  unfold raw_parts. pose proof (split_not_nil ";" (Str.replace ";;" nul
    (Re.sub ENTITY_RE entity_template s))). by destruct (Str.split _ _).
Qed.

Lemma raw_parts_nul (x y : string) :
  raw_parts (x +:+ String Str.NUL y) = glue ";" (raw_parts x) (raw_parts y).
Proof.
  apply (raw_parts_glue x nul y nul); [done|].
  change (nul +:+ y) with (String Str.NUL y).
  by rewrite sub_nul, replace2_app.
Qed.


Lemma not_blank (s : string) :
  all_in space s = false -> Str.is_empty (Str.strip s) = false.
Proof.
  intros H. unfold Str.strip, Str.strip_by.
  destruct (lstrip_by_head Str.isspace s) as [E|(c & r & E & Hc)].
  - assert (Ht : all_in space (Str.lstrip_by space s) = true)
      by (unfold space; by rewrite E).
    apply lstrip_by_all in Ht. congruence.
  - rewrite E. destruct (rstrip_by_head Str.isspace c r Hc) as [r' ->]. done.
Qed.

Lemma last_app_cons {A} (l : list A) (a : A) (l' : list A) (d : A) :
  List.last (l ++ a :: l') d = List.last (a :: l') d.
Proof.
  induction l as [|b l IH]; [done|].
  rewrite <- app_comm_cons. destruct (l ++ a :: l') eqn:E; [by destruct l|].
  exact IH.
Qed.

Lemma removelast_app_cons {A} (l : list A) (a : A) (l' : list A) :
  removelast (l ++ a :: l') = l ++ removelast (a :: l').
Proof. by apply removelast_app. Qed.

(** A blank last part is dropped from the second piece alone, when what
    joins the pieces is not blank. *)
Lemma drop_blank_last_glue (mid : string) (X Y : list string) :
  all_in space mid = false -> Y <> [] ->
  drop_blank_last (glue mid X Y) = glue mid X (drop_blank_last Y).
Proof.
  intros Hmid HY. destruct Y as [|q [|q' Y]]; [done| |].
  - unfold glue, drop_blank_last. cbn [hd tl length Nat.ltb Nat.leb andb].
    rewrite last_app_cons. cbn [List.last].
    rewrite not_blank; [by rewrite andb_false_r|].
    by rewrite !all_in_app, Hmid, andb_false_r.
  - unfold glue, drop_blank_last. cbn [hd tl].
    set (A := List.last X EmptyString +:+ mid +:+ q).
    replace (1 <? length (removelast X ++ A :: q' :: Y))%nat with true
      by (symmetry; apply Nat.ltb_lt; rewrite length_app; simpl; lia).
    replace (1 <? length (q :: q' :: Y))%nat with true by done.
    rewrite last_app_cons.
    change (List.last (A :: q' :: Y) EmptyString) with (List.last (q' :: Y) EmptyString).
    change (List.last (q :: q' :: Y) EmptyString) with (List.last (q' :: Y) EmptyString).
    cbn [andb].
    destruct (Str.is_empty (Str.strip (List.last (q' :: Y) EmptyString))); [|done].
    rewrite removelast_app_cons.
    change (removelast (A :: q' :: Y)) with (A :: removelast (q' :: Y)).
    change (removelast (q :: q' :: Y)) with (q :: removelast (q' :: Y)).
    reflexivity.
Qed.

Lemma split_parts_glue_nul (x y : string) :
  split_parts (x +:+ String Str.NUL y) = glue ";" (raw_parts x) (split_parts y).
Proof.
  rewrite !split_parts_raw, raw_parts_nul.
  apply drop_blank_last_glue; [done|apply raw_parts_not_nil].
Qed.


(** *** A text cut at its NULs *)

Lemma mem_split_first (c : ascii) (s : string) :
  Str.mem c s = true ->
  exists x y, s = x +:+ String c y /\ Str.mem c x = false.
Proof.
  induction s as [|d s IH]; [done|].
  change (Str.mem c (String d s)) with (Str.char_is d c || Str.mem c s).
  destruct (Str.char_is d c) eqn:E.
  - apply char_is_true in E as ->. intros _. by exists EmptyString, s.
  - simpl. intros H. destruct (IH H) as (x & y & -> & Hx).
    exists (String d x), y. split; [by rewrite sapp_cons|].
    change (Str.mem c (String d x)) with (Str.char_is d c || Str.mem c x).
    by rewrite E, Hx.
Qed.

(** The parts of any text are the parts of its pieces between the
    NULs, joined by a semicolon where a NUL was. *)
Lemma raw_parts_pieces (n : nat) :
  forall s : string,
    (String.length s <= n)%nat ->
    raw_parts s = glue_all ";" (map raw_parts (Str.split Str.NUL s)).
Proof.
  induction n as [|n IH]; intros s Hn.
  - destruct s; [done|simpl in Hn; lia].
  - destruct (Str.mem Str.NUL s) eqn:Em.
    + destruct (mem_split_first _ _ Em) as (x & y & -> & Hx).
      rewrite split_pass by done. rewrite raw_parts_nul.
      rewrite slength_app in Hn. simpl in Hn.
      rewrite (IH y) by lia. rewrite map_cons.
      pose proof (split_not_nil Str.NUL y) as Hy.
      by destruct (Str.split Str.NUL y).
    + by rewrite split_absent.
Qed.

(** C10: NUL is the placeholder of [split_parts], and every NUL of the
    input comes out as a semicolon in its place.  For every text [x]
    before a NUL and [y] after it, the parts of [x NUL y] are the parts
    of [x], as they are before a blank last one is dropped, and of [y],
    with the last part of [x], a semicolon and the first part of [y]
    as one part; so the parts of any input are the
    parts of its pieces between the NULs, joined by a semicolon where a
    NUL was.  [a NUL b] gives the one part [a;b], and [x NUL ;;y] the
    one part [x;;y].  No part of any result holds a NUL, and the parts
    hold at least as many semicolons as the input holds NULs.  An input
    without semicolons gives one part, the input with each NUL replaced
    by a semicolon, and so is not returned unchanged if it has a NUL; a
    clause [a;b] without entity gives [a] and [b] with their NULs
    replaced. *)
Theorem split_parts_nul_becomes_semicolon :
  split_parts (String "a" (String Str.NUL "b")) = ["a;b"] /\
  split_parts (String "x" (String Str.NUL ";;y")) = ["x;;y"] /\
  (forall s : string, split_parts s = drop_blank_last (raw_parts s)) /\
  (forall x y : string,
     raw_parts (x +:+ String Str.NUL y) = glue ";" (raw_parts x) (raw_parts y) /\
     split_parts (x +:+ String Str.NUL y) = glue ";" (raw_parts x) (split_parts y)) /\
  (forall s : string,
     split_parts s
     = drop_blank_last (glue_all ";" (map raw_parts (Str.split Str.NUL s)))) /\
  (forall s p : string, In p (split_parts s) -> Str.mem Str.NUL p = false) /\
  (forall s : string,
     (Str.count Str.NUL s <= Str.count_all ";" (split_parts s))%nat) /\
  (forall s : string,
     Str.mem ";" s = false -> split_parts s = [Str.replace nul ";" s]) /\
  (forall (c : ascii) (s : string),
     Str.replace nul ";" (String c s)
     = String (if Str.char_is Str.NUL c then ";"%char else c)
              (Str.replace nul ";" s)) /\
  (forall s : string,
     Str.mem ";" s = false -> Str.mem Str.NUL s = true -> split_parts s <> [s]) /\
  (forall a b : string,
     Str.mem ";" a = false -> Str.mem ";" b = false ->
     found ENTITY_RE (a +:+ ";" +:+ b) = false ->
     split_parts (a +:+ ";" +:+ b)
     = if Str.is_empty (Str.strip (Str.replace nul ";" b))
       then [Str.replace nul ";" a]
       else [Str.replace nul ";" a; Str.replace nul ";" b]).
Proof.
  split; [reflexivity|]. split; [reflexivity|]. split; [reflexivity|].
  split; [intros x y; split; [apply raw_parts_nul|apply split_parts_glue_nul]|].
  split.
  { intros s. by rewrite split_parts_raw, (raw_parts_pieces (String.length s) s). }
  split.
  { intros s p. rewrite (split_parts_from s _ eq_refl).
    match goal with |- In _ (if _ then removelast ?l else ?l) -> _ =>
      intros H; assert (Hin : In p l) by
        (destruct (_ && _) in H; [by apply in_removelast|done]) end.
    apply in_map_iff in Hin as (x & <- & _). apply replace_nul_no_nul. }
  split; [exact split_parts_nul_count|].
  split; [exact split_parts_no_semicolon|].
  split.
  { intros c s. rewrite replace1_cons. by destruct (Str.char_is Str.NUL c). }
  split.
  - intros s Hs Hn. rewrite split_parts_no_semicolon by done.
    intros [= H]. rewrite <- H, replace_nul_no_nul in Hn. done.
  - intros a b Ha Hb Hf.
    rewrite (split_parts_from _ [Str.replace nul ";" a; Str.replace nul ";" b]).
    + simpl. by destruct (Str.is_empty _).
    + rewrite sub_not_found by done. by apply parts_two_nul.
Qed.





(** ** [parse_attributes] *)

(** What a match of [ATTR_RE] is made of: the two groups and the
    whitespace around the name. *)
Lemma attr_re_match (part : string) (m : hit) :
  rmatch ATTR_RE part = Some m ->
  exists ws name ws' expr : string,
    caps m = [(2%nat, expr); (1%nat, name)] /\
    part = ws +:+ name +:+ ws' +:+ expr /\
    all_in space ws = true /\
    (all_in nonspace name = true /\ name <> EmptyString) /\
    (all_in space ws' = true /\ ws' <> EmptyString) /\
    (exists c e, expr = String c e /\ nonspace c = true).
Proof.
  intros Hm. apply rmatch_in in Hm. unfold ATTR_RE in Hm.
  apply in_hits_cat in Hm as (h1 & t2 & Hh1 & Ht2 & ->).
  apply in_hits_cat in Ht2 as (g1 & t3 & Hg1 & Ht3 & ->).
  apply in_hits_cat in Ht3 as (h3 & t4 & Hh3 & Ht4 & ->).
  apply in_hits_cat in Ht4 as (g2 & h5 & Hg2 & Hh5 & ->).
  apply in_hits_grp in Hg1 as (b & Hb & ->).
  apply in_hits_grp in Hg2 as (d & Hd & ->).
  unfold then_hit in *. cbn [rest consumed caps] in *.
  apply in_hits_endz in Hh5 as [Hr5 ->].
  assert (C1 := hits_no_caps (Star (Cls space)) eq_refl _ _ Hh1).
  assert (Cb := hits_no_caps (Plus (Cls nonspace)) eq_refl _ _ Hb).
  assert (C3 := hits_no_caps (Plus (Cls space)) eq_refl _ _ Hh3).
  assert (Cd := hits_no_caps (Cat (Cls nonspace) (Star (Cls any))) eq_refl _ _ Hd).
  destruct (ReFacts.hits_sound _ _ _ Hh1) as [E1 M1].
  destruct (ReFacts.hits_sound _ _ _ Hb) as [Eb Mb].
  destruct (ReFacts.hits_sound _ _ _ Hh3) as [E3 M3].
  destruct (ReFacts.hits_sound _ _ _ Hd) as [Ed Md].
  exists (consumed h1), (consumed b), (consumed h3), (consumed d).
  split; [by rewrite C1, Cb, C3, Cd|]. cbn [rest consumed caps empty_hit].
  split.
  { rewrite E1 at 1. rewrite Eb at 1. rewrite E3 at 1. rewrite Ed at 1.
    by rewrite Hr5, sapp_nil_r. }
  split; [by apply matches_star_cls|].
  split; [by apply matches_plus_cls|].
  split; [by apply matches_plus_cls|].
  inversion Md as [| |? ? w1 w2 H1 H2| | | | | |]; subst.
  apply SplitFacts.matches_cls_inv in H1 as (c & -> & Hc).
  exists c, w2. by rewrite sapp_cons, sapp_nil_l.
Qed.

(** A part that [ATTR_RE] matches has the shape the specification
    describes, with the name and the expression the groups give. *)
Lemma attr_pair_shape (part name expr : string) :
  attr_pair part = Some (name, expr) -> attr_shape part name expr.
Proof.
  unfold attr_pair. destruct (rmatch ATTR_RE part) as [m|] eqn:E; [|done].
  destruct (attr_re_match _ _ E) as
    (ws & n & ws' & e & Hc & Hp & Hws & [Hn Hn0] & [Hws' Hws0] & (c & e' & -> & Hce)).
  unfold group_str. rewrite Hc. simpl. intros [= <- <-].
  exists ws, ws'. repeat split; try done. by exists c, e'.
Qed.

Lemma od_set_new {V} (d : odict V) (k : string) (v : V) :
  od_get d k = None -> od_set d k v = d ++ [(k, v)].
Proof.
  induction d as [|[k' v'] d IH]; simpl; [done|].
  destruct (bool_decide (k = k')); [done|]. intros H. by rewrite (IH H).
Qed.

Lemma od_get_snoc_None {V} (d : odict V) (k n : string) (v : V) :
  od_get (d ++ [(n, v)]) k = None <-> od_get d k = None /\ k <> n.
Proof.
  induction d as [|[k' v'] d IH]; simpl.
  - destruct (bool_decide (k = n)) eqn:E.
    + apply bool_decide_eq_true_1 in E. split; [done|]. intros [_ ?]. done.
    + apply bool_decide_eq_false_1 in E. done.
  - destruct (bool_decide (k = k')); [|done]. split; [done|]. by intros [? _].
Qed.

Lemma od_mem_false {V} (d : odict V) (k : string) :
  od_mem d k = false <-> od_get d k = None.
Proof. unfold od_mem. by destruct (od_get d k). Qed.

Lemma attr_pair_rmatch (part : string) :
  attr_pair part
  = match rmatch ATTR_RE part with
    | Some m => Some (group_str 1 m, group_str 2 m)
    | None => None
    end.
Proof. reflexivity. Qed.

(** The loop returns a mapping exactly when every part matches and no
    name comes twice; the mapping is the one it started with and then
    the pairs of the parts, in their order. *)
Lemma parse_attributes_loop_ok (clause : string) (parts : list string) :
  forall (acc attrs : odict string),
    parse_attributes_loop clause parts acc = Ok attrs <->
    exists pairs,
      parts_pairs parts pairs /\ attrs = acc ++ pairs /\
      NoDup (map fst pairs) /\
      (forall k, In k (map fst pairs) -> od_get acc k = None).
Proof.
  induction parts as [|part parts IH]; intros acc attrs; simpl.
  - split.
    + intros [= <-]. exists []. rewrite app_nil_r.
      repeat split; [constructor|constructor|done].
    + intros (pairs & HF & -> & _). inversion HF; subst. by rewrite app_nil_r.
  - pose proof (attr_pair_rmatch part) as Hp.
    destruct (rmatch ATTR_RE part) as [m|].
    2:{ split; [done|]. intros (pairs & HF & _). inversion HF; subst. congruence. }
    destruct (od_mem acc (group_str 1 m)) eqn:Em.
    + split; [done|]. intros (pairs & HF & _ & _ & Hacc).
      inversion HF as [|? pr ? ? Hpr]; subst. rewrite Hp in Hpr. injection Hpr as <-.
      specialize (Hacc (group_str 1 m) ltac:(by left)).
      apply od_mem_false in Hacc. congruence.
    + apply od_mem_false in Em. rewrite (od_set_new _ _ _ Em), IH. split.
      * intros (pairs & HF & -> & Hnd & Hacc).
        exists ((group_str 1 m, group_str 2 m) :: pairs).
        split; [by constructor|]. split; [by rewrite <- app_assoc|].
        split.
        -- simpl. apply NoDup_cons. split; [|done].
           rewrite list_elem_of_In. intros Hin.
           apply Hacc, od_get_snoc_None in Hin as [_ ?]. done.
        -- intros k [<-|Hin]; [done|].
           by apply Hacc, od_get_snoc_None in Hin as [? _].
      * intros (pairs & HF & -> & Hnd & Hacc).
        inversion HF as [|? pr ? pairs' Hpr HF']; subst.
        rewrite Hp in Hpr. injection Hpr as <-.
        exists pairs'. split; [done|]. split; [by rewrite <- app_assoc|].
        simpl in Hnd. apply NoDup_cons in Hnd as [Hn Hnd].
        rewrite list_elem_of_In in Hn.
        split; [done|]. intros k Hin. apply od_get_snoc_None. split.
        -- apply Hacc. by right.
        -- intros ->. done.
Qed.

(** Whatever the loop raises is a [LanguageError]. *)
Lemma parse_attributes_loop_raise (clause : string) (parts : list string) :
  forall (acc : odict string) (e : exn),
    parse_attributes_loop clause parts acc = Raise e ->
    exists msg arg, e = LanguageError msg arg.
Proof.
  induction parts as [|part parts IH]; intros acc e; simpl; [done|].
  destruct (rmatch ATTR_RE part) as [m|]; [|intros [= <-]; eauto].
  destruct (od_mem acc (group_str 1 m)); [intros [= <-]; eauto|].
  apply IH.
Qed.

(** The first part that breaks a rule decides the error. *)
Lemma parse_attributes_loop_first (clause : string) (pre : list string)
  (part : string) (post : list string) :
  forall (pairs acc : odict string),
    parts_pairs pre pairs -> NoDup (map fst pairs) ->
    (forall k, In k (map fst pairs) -> od_get acc k = None) ->
    (attr_pair part = None ->
     parse_attributes_loop clause (pre ++ part :: post) acc
     = Raise (LanguageError "Bad syntax in attributes." clause)) /\
    (forall n e, attr_pair part = Some (n, e) ->
       In n (map fst pairs) \/ od_get acc n <> None ->
       parse_attributes_loop clause (pre ++ part :: post) acc
       = Raise (LanguageError "Duplicate attribute name in attributes." part)).
Proof.
  induction pre as [|p pre IH]; intros pairs acc HF Hnd Hacc.
  - inversion HF; subst. simpl. rewrite (attr_pair_rmatch part).
    destruct (rmatch ATTR_RE part) as [m|]; split; try done.
    intros n e [= <- <-] [[]|Hn].
    unfold od_mem. by destruct (od_get acc (group_str 1 m)).
  - inversion HF as [|? pr ? pairs' Hpr HF']; subst. rewrite <- app_comm_cons.
    simpl parse_attributes_loop. rewrite (attr_pair_rmatch p) in Hpr.
    destruct (rmatch ATTR_RE p) as [m|]; [|done]. injection Hpr as <-.
    simpl in Hnd, Hacc. apply NoDup_cons in Hnd as [Hn Hnd].
    rewrite list_elem_of_In in Hn.
    assert (Em : od_get acc (group_str 1 m) = None) by (apply Hacc; by left).
    rewrite (proj2 (od_mem_false _ _) Em), (od_set_new _ _ _ Em).
    assert (Hacc' : forall k, In k (map fst pairs') ->
              od_get (acc ++ [(group_str 1 m, group_str 2 m)]) k = None).
    { intros k Hk. apply od_get_snoc_None. split; [apply Hacc; by right|].
      intros ->. done. }
    destruct (IH pairs' _ HF' Hnd Hacc') as [IH1 IH2].
    split; [done|]. intros n e Hp [[Heq|Hin]|Hn'].
    + apply (IH2 n e Hp). right. intros H. apply od_get_snoc_None in H as [_ ?].
      simpl in Heq. congruence.
    + apply (IH2 n e Hp). by left.
    + apply (IH2 n e Hp). right. intros H. by apply od_get_snoc_None in H as [? _].
Qed.

Lemma lookup_map {A B} (f : A -> B) (l : list A) (i : nat) (x : A) :
  l !! i = Some x -> map f l !! i = Some (f x).
Proof.
  revert i. induction l as [|a l IH]; intros [|i]; simpl; try done.
  - by intros [= ->].
  - apply IH.
Qed.

Lemma parts_pairs_in (parts : list string) (pairs : odict string) (part : string) :
  parts_pairs parts pairs -> In part parts -> exists pr, attr_pair part = Some pr.
Proof.
  induction 1 as [|p pr parts pairs Hp _ IH]; simpl; [done|].
  intros [<-|Hin]; eauto.
Qed.

(** ** The first hit *)

Module HeadFacts.

Lemma rmatch_none (r : regex) (s : string) : rmatch r s = None <-> hits r s = [].
Proof. unfold rmatch. by destruct (hits r s). Qed.

Lemma rmatch_some (r : regex) (s : string) (h : hit) :
  rmatch r s = Some h <-> exists l, hits r s = h :: l.
Proof.
  unfold rmatch. destruct (hits r s) as [|h0 l]; simpl.
  - split; [done|]. by intros [? ?].
  - split; [intros [= ->]; eauto|]. by intros [? [= -> _]].
Qed.

(** When the rest of the pattern matches after the first hit of its
    head, no backtracking takes place. *)
Lemma rmatch_cat (r1 r2 : regex) (s : string) (h1 h2 : hit) :
  rmatch r1 s = Some h1 -> rmatch r2 (rest h1) = Some h2 ->
  rmatch (Cat r1 r2) s = Some (then_hit h1 h2).
Proof.
  intros H1 H2. apply rmatch_some in H1 as [l1 E1], H2 as [l2 E2].
  unfold rmatch. simpl. by rewrite E1; simpl; rewrite E2.
Qed.

(** The first hit of a sequence is some hit of its head and the first
    hit of what follows. *)
Lemma rmatch_cat_inv (r1 r2 : regex) (s : string) (h : hit) :
  rmatch (Cat r1 r2) s = Some h ->
  exists h1 h2,
    In h1 (hits r1 s) /\ rmatch r2 (rest h1) = Some h2 /\ h = then_hit h1 h2.
Proof.
  unfold rmatch at 1. simpl. induction (hits r1 s) as [|a l IH]; simpl; [done|].
  destruct (hits r2 (rest a)) as [|h2 l2] eqn:E2; simpl.
  - intros H. destruct (IH H) as (h1 & h2 & Hin & Hm & ->). eauto 6.
  - intros [= <-]. exists a, h2. split; [by left|]. split; [|done].
    apply rmatch_some. eauto.
Qed.

Lemma rmatch_cat_none (r1 r2 : regex) (s : string) :
  rmatch r1 s = None -> rmatch (Cat r1 r2) s = None.
Proof. intros H. apply rmatch_none in H. unfold rmatch. simpl. by rewrite H. Qed.

Lemma rmatch_alt_l (r1 r2 : regex) (s : string) (h : hit) :
  rmatch r1 s = Some h -> rmatch (Alt r1 r2) s = Some h.
Proof. intros H. apply rmatch_some in H as [l E]. unfold rmatch. simpl. by rewrite E. Qed.

Lemma rmatch_alt_r (r1 r2 : regex) (s : string) :
  rmatch r1 s = None -> rmatch (Alt r1 r2) s = rmatch r2 s.
Proof. intros H. apply rmatch_none in H. unfold rmatch. simpl. by rewrite H. Qed.

Lemma rmatch_grp (i : nat) (r : regex) (s : string) :
  rmatch (Grp i r) s
  = match rmatch r s with
    | Some h => Some (Hit (consumed h) (rest h) ((i, consumed h) :: caps h))
    | None => None
    end.
Proof. unfold rmatch. simpl. by destruct (hits r s). Qed.

Lemma rmatch_endz (s : string) :
  rmatch EndZ s = if Str.is_empty s then Some (empty_hit EmptyString) else None.
Proof. by destruct s. Qed.

(** Iteration over a class is greedy: its first hit takes every leading
    character of the class. *)
Lemma rmatch_star_cls (p : ascii -> bool) (s : string) :
  exists w,
    rmatch (Star (Cls p)) s = Some (Hit w (Str.lstrip_by p s) []) /\
    s = w +:+ Str.lstrip_by p s /\ all_in p w = true.
Proof.
  induction s as [|c s IH].
  - exists EmptyString. done.
  - destruct IH as (w & Hm & Es & Hw). apply rmatch_some in Hm as [l El].
    simpl in El. unfold rmatch. simpl. destruct (p c) eqn:Ec.
    + exists (String c w). simpl.
      replace (String.length s <? S (String.length s))%nat with true
        by (symmetry; apply Nat.ltb_lt; lia).
      rewrite El, Hw. simpl. split; [done|].
      split; [by rewrite sapp_cons, <- Es|]. by rewrite Ec.
    + exists EmptyString. done.
Qed.

Lemma rmatch_plus_cls (p : ascii -> bool) (c : ascii) (s : string) :
  p c = true ->
  exists w,
    rmatch (Plus (Cls p)) (String c s)
    = Some (Hit (String c w) (Str.lstrip_by p s) []) /\
    s = w +:+ Str.lstrip_by p s /\ all_in p w = true.
Proof.
  intros Hc. destruct (rmatch_star_cls p s) as (w & Hm & Es & Hw).
  exists w. split; [|done]. unfold Plus.
  rewrite (rmatch_cat _ _ _ (Hit (String c EmptyString) s [])
             (Hit w (Str.lstrip_by p s) [])); [done| |done].
  unfold rmatch. simpl. by rewrite Hc.
Qed.

Lemma rmatch_plus_cls_none (p : ascii -> bool) (s : string) :
  Str.lstrip_by p s = s -> rmatch (Plus (Cls p)) s = None.
Proof.
  intros H. unfold Plus. apply rmatch_cat_none. unfold rmatch. simpl.
  destruct s as [|c s]; [done|]. simpl in H.
  destruct (p c) eqn:E; [|done]. exfalso.
  assert (Hlen : forall t, (String.length (Str.lstrip_by p t) <= String.length t)%nat).
  { induction t as [|d t IHt]; simpl; [done|]. destruct (p d); simpl; lia. }
  pose proof (Hlen s) as Hl. rewrite H in Hl. simpl in Hl. lia.
Qed.

Lemma lstrip_by_idempotent (p : ascii -> bool) (s : string) :
  Str.lstrip_by p (Str.lstrip_by p s) = Str.lstrip_by p s.
Proof.
  induction s as [|c s IH]; [done|]. simpl.
  destruct (p c) eqn:E; [done|]. simpl. by rewrite E.
Qed.

Lemma lstrip_by_any (s : string) : Str.lstrip_by any s = EmptyString.
Proof. by induction s. Qed.

(** A literal matches where the subject begins with it, once. *)
Lemma hits_lit_here (l t : string) : hits (Lit l) (l +:+ t) = [Hit l t []].
Proof.
  induction l as [|c l IH]; [done|]. rewrite sapp_cons. simpl.
  replace (Str.char_is c c) with true by (symmetry; by apply char_is_true).
  simpl. rewrite IH. done.
Qed.

Lemma in_hits_lit (l s : string) (h : hit) :
  In h (hits (Lit l) s) -> s = l +:+ rest h /\ h = Hit l (rest h) [].
Proof.
  revert s h. induction l as [|c l IH]; intros s h; simpl.
  - by intros [<-|[]].
  - destruct s as [|d s]; [done|].
    destruct (Str.char_is c d) eqn:E; [|done].
    apply char_is_true in E as <-. simpl. rewrite app_nil_r.
    intros Hin. apply in_map_iff in Hin as (h2 & <- & Hin).
    destruct (IH _ _ Hin) as [-> ->]. done.
Qed.

End HeadFacts.

(** ** [parse_substitution] *)

Import HeadFacts.

Module SubstFacts.

(** The last piece of [SUBST_RE] takes the whole of what is left. *)
Lemma expression_part (s : string) :
  rmatch EXPRESSION_PART s = Some (Hit (s +:+ EmptyString) EmptyString [(2%nat, s)]).
Proof.
  destruct (rmatch_star_cls any s) as (w & Hm & Es & _).
  rewrite lstrip_by_any in Hm, Es. rewrite sapp_nil_r in Es. subst w.
  rewrite (rmatch_cat _ _ _ (Hit s EmptyString [(2%nat, s)]) (empty_hit EmptyString));
    [done| |done].
  by rewrite rmatch_grp, Hm.
Qed.

Lemma rmatch_plus_nil (p : ascii -> bool) : rmatch (Plus (Cls p)) EmptyString = None.
Proof. by apply rmatch_plus_cls_none. Qed.

(** What the keyword part matches: a keyword, then whitespace, all of
    it. *)
Lemma keyword_part_inv (s : string) (h : hit) :
  rmatch KEYWORD_PART s = Some h ->
  exists kw ws e : string,
    (kw = "text" \/ kw = "structure") /\
    s = kw +:+ ws +:+ e /\ ws <> EmptyString /\ all_in space ws = true /\
    Str.lstrip_by space e = e /\
    rest h = e /\ caps h = [(1%nat, kw)].
Proof.
  intros H. apply rmatch_cat_inv in H as (k & ps & Hk & Hps & ->).
  apply in_hits_grp in Hk as (k0 & Hk0 & ->). cbn [rest] in Hps.
  assert (Hkw : exists kw, (kw = "text" \/ kw = "structure") /\
                  s = kw +:+ rest k0 /\ k0 = Hit kw (rest k0) []).
  { apply in_hits_alt in Hk0 as [Hl|Hl]; apply in_hits_lit in Hl as [-> ->];
      eexists; (split; [|split; reflexivity]); auto. }
  destruct Hkw as (kw & Hkw & -> & Ek0).
  destruct (rest k0) as [|c t] eqn:Er.
  { by rewrite rmatch_plus_nil in Hps. }
  destruct (space c) eqn:Ec.
  - destruct (rmatch_plus_cls space c t Ec) as (w & Hm & Et & Hw).
    rewrite Hm in Hps. injection Hps as <-.
    exists kw, (String c w), (Str.lstrip_by space t).
    split; [done|]. split; [by rewrite sapp_cons, <- Et|].
    split; [done|]. split; [simpl; by rewrite Ec, Hw|].
    split; [apply lstrip_by_idempotent|].
    split; [done|]. rewrite Ek0. done.
  - rewrite rmatch_plus_cls_none in Hps; [done|]. simpl. by rewrite Ec.
Qed.

(** After the leading whitespace: either the keyword part and the
    expression, or the expression alone. *)
Lemma subst_tail (s : string) :
  exists h,
    rmatch (Cat (Opt KEYWORD_PART) EXPRESSION_PART) s = Some h /\
    ((rmatch KEYWORD_PART s = None /\ caps h = [(2%nat, s)]) \/
     (exists kw ws e : string,
        (kw = "text" \/ kw = "structure") /\
        s = kw +:+ ws +:+ e /\ ws <> EmptyString /\ all_in space ws = true /\
        Str.lstrip_by space e = e /\
        caps h = [(2%nat, e); (1%nat, kw)])).
Proof.
  destruct (rmatch KEYWORD_PART s) as [hx|] eqn:Ex.
  - destruct (keyword_part_inv _ _ Ex) as (kw & ws & e & Hkw & Es & Hws & Hall & He & Hr & Hc).
    eexists. split.
    + eapply rmatch_cat; [by apply rmatch_alt_l|]. apply expression_part.
    + right. exists kw, ws, e. repeat split; try done.
      simpl. by rewrite Hr, Hc.
  - eexists. split.
    + eapply rmatch_cat.
      * unfold Opt. rewrite rmatch_alt_r by done. reflexivity.
      * apply expression_part.
    + left. done.
Qed.

(** The match of [SUBST_RE] on any clause. *)
Lemma subst_re_match (clause : string) :
  exists (h : hit) (ws : string),
    rmatch SUBST_RE clause = Some h /\
    clause = ws +:+ Str.lstrip_by space clause /\ all_in space ws = true /\
    ((rmatch KEYWORD_PART (Str.lstrip_by space clause) = None /\
      caps h = [(2%nat, Str.lstrip_by space clause)]) \/
     (exists kw ws' e : string,
        (kw = "text" \/ kw = "structure") /\
        Str.lstrip_by space clause = kw +:+ ws' +:+ e /\
        ws' <> EmptyString /\ all_in space ws' = true /\
        Str.lstrip_by space e = e /\
        caps h = [(2%nat, e); (1%nat, kw)])).
Proof.
  destruct (rmatch_star_cls space clause) as (ws & Hm & Es & Hws).
  destruct (subst_tail (Str.lstrip_by space clause)) as (t & Ht & Hcases).
  exists (then_hit (Hit ws (Str.lstrip_by space clause) []) t), ws.
  split; [by apply rmatch_cat|]. split; [done|]. split; [done|].
  simpl. by rewrite app_nil_r.
Qed.

End SubstFacts.

(** [parse_substitution] never raises: [SUBST_RE] matches every clause.
    The kind is [text] or [structure]; the expression does not begin
    with whitespace; the clause is whitespace and the expression, with
    the kind [text], or whitespace, the kind as a keyword, whitespace
    and the expression. *)
Theorem parse_substitution_total (clause : string) :
  exists key expr : string,
    parse_substitution clause = Ok (key, expr) /\
    Str.lstrip_by Str.isspace expr = expr /\
    ((key = "text" /\
      exists ws, clause = ws +:+ expr /\ all_in space ws = true) \/
     ((key = "text" \/ key = "structure") /\
      exists ws ws',
        clause = ws +:+ key +:+ ws' +:+ expr /\
        all_in space ws = true /\ all_in space ws' = true /\ ws' <> EmptyString)).
Proof.
  destruct (SubstFacts.subst_re_match clause) as (h & ws & Hm & Ec & Hws & Hcases).
  unfold parse_substitution, group_str. rewrite Hm.
  destruct Hcases as [[_ Hc]|(kw & ws' & e & Hkw & Es & Hws0 & Hws' & He & Hc)];
    rewrite Hc; cbn [group Nat.eqb default].
  - eexists _, _. split; [reflexivity|].
    split; [apply lstrip_by_idempotent|]. left. split; [done|]. eauto.
  - exists kw, e. split.
    { by destruct Hkw as [-> | ->]. }
    split; [done|]. right. split; [done|].
    exists ws, ws'. rewrite Ec at 1. by rewrite Es.
Qed.

Lemma lstrip_by_fixed_head (p : ascii -> bool) (c : ascii) (s : string) :
  p c = false -> Str.lstrip_by p (String c s) = String c s.
Proof. intros H. simpl. by rewrite H. Qed.

(** A clause written with a keyword gives that keyword and the
    expression back. *)
Theorem parse_substitution_keyword (ws kw ws' expr : string) :
  kw = "text" \/ kw = "structure" ->
  all_in space ws = true -> all_in space ws' = true -> ws' <> EmptyString ->
  Str.lstrip_by Str.isspace expr = expr ->
  parse_substitution (ws +:+ kw +:+ ws' +:+ expr) = Ok (kw, expr).
Proof.
  intros Hkw Hws Hws' Hne He. change Str.isspace with space in He.
  assert (Hl : Str.lstrip_by space (ws +:+ kw +:+ ws' +:+ expr)
               = kw +:+ ws' +:+ expr).
  { rewrite lstrip_by_pass by done. by destruct Hkw as [-> | ->]. }
  destruct ws' as [|c w']; [done|]. simpl in Hws'.
  apply andb_true_iff in Hws' as [Hc Hw'].
  destruct (rmatch_plus_cls space c (w' +:+ expr) Hc) as (w & Hp & _ & _).
  rewrite lstrip_by_pass, He in Hp by done.
  assert (Hk : rmatch (Cat (Grp 1 (Alt (Lit "text") (Lit "structure")))
                           (Plus (Cls space)))
                 (kw +:+ String c w' +:+ expr)
               = Some (then_hit (Hit kw (String c w' +:+ expr) [(1%nat, kw)])
                                (Hit (String c w) expr []))).
  { eapply rmatch_cat; [|cbn [rest]; rewrite sapp_cons; exact Hp].
    rewrite rmatch_grp. destruct Hkw as [-> | ->].
    - rewrite (rmatch_alt_l _ _ _ (Hit "text" (String c w' +:+ expr) []));
        [reflexivity|].
      unfold rmatch. by rewrite hits_lit_here.
    - rewrite rmatch_alt_r by done.
      unfold rmatch. by rewrite hits_lit_here. }
  destruct (rmatch_star_cls space (ws +:+ kw +:+ String c w' +:+ expr))
    as (w1 & Hm1 & _ & _).
  rewrite Hl in Hm1.
  pose proof (rmatch_cat _ _ _ _ _ Hm1
                (rmatch_cat _ _ _ _ _ (rmatch_alt_l _ Eps _ _ Hk)
                   (SubstFacts.expression_part _))) as Hfull.
  unfold parse_substitution, group_str. unfold SUBST_RE, Opt. rewrite Hfull.
  cbn [caps then_hit rest app group Nat.eqb default].
  by destruct Hkw as [-> | ->].
Qed.

Lemma parse_substitution_keyword_witness :
  parse_substitution (" " +:+ "structure" +:+ "  " +:+ "my/expr")
  = Ok ("structure", "my/expr").
Proof.
  apply (parse_substitution_keyword " " "structure" "  " "my/expr");
    [by right|reflexivity|reflexivity|discriminate|reflexivity].
Defined.

(** A clause that does not begin, after its whitespace, with a keyword
    and whitespace is an expression of kind [text]. *)
Theorem parse_substitution_plain (ws expr : string) :
  all_in space ws = true ->
  Str.lstrip_by Str.isspace expr = expr ->
  (forall (kw : string) (c : ascii) (t : string),
     kw = "text" \/ kw = "structure" -> Str.isspace c = true ->
     expr <> kw +:+ String c t) ->
  parse_substitution (ws +:+ expr) = Ok ("text", expr).
Proof.
  intros Hws He Hno. change Str.isspace with space in He.
  destruct (SubstFacts.subst_re_match (ws +:+ expr)) as (h & w0 & Hm & _ & _ & Hcases).
  rewrite lstrip_by_pass, He in Hcases by done.
  unfold parse_substitution, group_str. rewrite Hm.
  destruct Hcases as [[_ Hc]|(kw & ws' & e & Hkw & Es & Hne & Hall & _ & _)].
  - by rewrite Hc.
  - exfalso. destruct ws' as [|c w']; [done|]. simpl in Hall.
    apply andb_true_iff in Hall as [Hsp _].
    apply (Hno kw c (w' +:+ e) Hkw Hsp). by rewrite Es, sapp_cons.
Qed.

Lemma parse_substitution_plain_witness :
  parse_substitution ("  " +:+ "textual/expr") = Ok ("text", "textual/expr").
Proof.
  apply (parse_substitution_plain "  " "textual/expr"); [reflexivity|reflexivity|].
  intros kw c t [-> | ->] Hc E; vm_compute in E; [|discriminate E].
  inversion E; subst. vm_compute in Hc. discriminate Hc.
Defined.

(** ** Clauses written from their parts *)

Lemma sapp_inv_tail (s t u : string) : s +:+ u = t +:+ u -> s = t.
Proof.
  revert t. induction s as [|c s IH]; intros [|d t]; rewrite ?sapp_cons, ?sapp_nil_l.
  - done.
  - intros H. apply (f_equal String.length) in H. simpl in H.
    rewrite slength_app in H. lia.
  - intros H. apply (f_equal String.length) in H. simpl in H.
    rewrite slength_app in H. lia.
  - intros [= -> H]. by rewrite (IH _ H).
Qed.

(** The first hit of an iteration over a class is the whole run of the
    class. *)
Lemma rmatch_star_run (p : ascii -> bool) (w t : string) :
  all_in p w = true -> Str.lstrip_by p t = t ->
  rmatch (Star (Cls p)) (w +:+ t) = Some (Hit w t []).
Proof.
  intros Hw Ht. destruct (rmatch_star_cls p (w +:+ t)) as (w' & Hm & Es & _).
  rewrite lstrip_by_pass, Ht in Hm, Es by done.
  apply sapp_inv_tail in Es as <-. done.
Qed.

Lemma rmatch_plus_run (p : ascii -> bool) (c : ascii) (w t : string) :
  p c = true -> all_in p w = true -> Str.lstrip_by p t = t ->
  rmatch (Plus (Cls p)) (String c w +:+ t) = Some (Hit (String c w) t []).
Proof.
  intros Hc Hw Ht. unfold Plus. rewrite sapp_cons.
  rewrite (rmatch_cat _ _ _ (Hit (String c EmptyString) (w +:+ t) []) (Hit w t []));
    [done| |by apply rmatch_star_run].
  unfold rmatch. simpl. by rewrite Hc.
Qed.

Lemma all_in_any (s : string) : all_in any s = true.
Proof. by induction s. Qed.

Lemma lstrip_by_other (p : ascii -> bool) (s : string) :
  (forall c r, s = String c r -> p c = false) -> Str.lstrip_by p s = s.
Proof. destruct s as [|c r]; [done|]. intros H. simpl. by rewrite (H c r eq_refl). Qed.

Lemma attr_pair_of_written (ws name ws' expr : string) :
  all_in space ws = true ->
  name <> EmptyString -> all_in nonspace name = true ->
  ws' <> EmptyString -> all_in space ws' = true ->
  expr <> EmptyString -> Str.lstrip_by Str.isspace expr = expr ->
  attr_pair (ws +:+ name +:+ ws' +:+ expr) = Some (name, expr).
Proof.
  intros Hws Hn Hname Hw' Hws' He Hexpr. change Str.isspace with space in Hexpr.
  destruct name as [|n0 n']; [done|]. destruct ws' as [|s0 s']; [done|].
  destruct expr as [|e0 e']; [done|].
  simpl in Hname, Hws', Hexpr.
  apply andb_true_iff in Hname as [Hn0 Hn'], Hws' as [Hs0 Hs'].
  assert (He0 : nonspace e0 = true).
  { unfold nonspace. destruct (space e0) eqn:E; [|unfold space in E; by rewrite E].
    exfalso. apply (f_equal String.length) in Hexpr. simpl in Hexpr.
    assert (Hlen : forall t, (String.length (Str.lstrip_by space t) <= String.length t)%nat).
    { induction t as [|d t IHt]; simpl; [done|]. destruct (space d); simpl; lia. }
    pose proof (Hlen e'). lia. }
  assert (Hsp : forall c, space c = true -> nonspace c = false).
  { intros c Hc. unfold nonspace. unfold space in Hc. by rewrite Hc. }
  assert (Hnsp : forall c, nonspace c = true -> space c = false).
  { intros c Hc. unfold nonspace in Hc. unfold space. by destruct (Str.isspace c). }
  assert (M1 : rmatch (Star (Cls space))
                 (ws +:+ String n0 n' +:+ String s0 s' +:+ String e0 e')
               = Some (Hit ws (String n0 n' +:+ String s0 s' +:+ String e0 e') [])).
  { apply rmatch_star_run; [done|]. rewrite sapp_cons. simpl. by rewrite (Hnsp _ Hn0). }
  assert (M2 : rmatch (Grp 1 (Plus (Cls nonspace)))
                 (String n0 n' +:+ String s0 s' +:+ String e0 e')
               = Some (Hit (String n0 n') (String s0 s' +:+ String e0 e')
                           [(1%nat, String n0 n')])).
  { rewrite rmatch_grp, rmatch_plus_run; [done|done|done|].
    rewrite sapp_cons. simpl. by rewrite (Hsp _ Hs0). }
  assert (M3 : rmatch (Plus (Cls space)) (String s0 s' +:+ String e0 e')
               = Some (Hit (String s0 s') (String e0 e') [])).
  { apply rmatch_plus_run; [done|done|]. simpl. by rewrite (Hnsp _ He0). }
  assert (M4 : rmatch (Grp 2 (Cat (Cls nonspace) (Star (Cls any)))) (String e0 e')
               = Some (Hit (String e0 e') EmptyString [(2%nat, String e0 e')])).
  { rewrite rmatch_grp.
    rewrite (rmatch_cat _ _ _ (Hit (String e0 EmptyString) e' []) (Hit e' EmptyString [])).
    - done.
    - unfold rmatch. simpl. by rewrite He0.
    - rewrite <- (sapp_nil_r e') at 1.
      apply rmatch_star_run; [apply all_in_any|done]. }
  assert (M5 : rmatch EndZ EmptyString = Some (empty_hit EmptyString)) by done.
  pose proof (rmatch_cat _ _ _ _ _ M1
                (rmatch_cat _ _ _ _ _ M2
                   (rmatch_cat _ _ _ _ _ M3
                      (rmatch_cat _ _ _ _ _ M4 M5)))) as Hfull.
  unfold attr_pair, ATTR_RE. by rewrite Hfull.
Qed.

(** [ATTR_RE] finds the name and the expression a part was written
    with. *)
Theorem attr_pair_written (ws name ws' expr : string) :
  all_in space ws = true ->
  name <> EmptyString -> all_in nonspace name = true ->
  ws' <> EmptyString -> all_in space ws' = true ->
  expr <> EmptyString -> Str.lstrip_by Str.isspace expr = expr ->
  attr_pair (ws +:+ name +:+ ws' +:+ expr) = Some (name, expr).
Proof. apply attr_pair_of_written. Qed.

Lemma attr_pair_written_witness :
  attr_pair ("  " +:+ "class" +:+ " " +:+ "foo bar ") = Some ("class", "foo bar ").
Proof.
  apply (attr_pair_written "  " "class" " " "foo bar "); try reflexivity; discriminate.
Defined.

(** A part has the shape of [ATTR_RE] with a name and an expression
    exactly when these are what [ATTR_RE] finds in it. *)
Lemma attr_pair_iff_shape (part name expr : string) :
  attr_pair part = Some (name, expr) <-> attr_shape part name expr.
Proof.
  split; [apply attr_pair_shape|].
  intros (ws & ws' & -> & Hws & Hn & Hname & Hw' & Hws' & (c & r & -> & Hc)).
  apply attr_pair_of_written; try done.
  apply lstrip_by_fixed_head. unfold nonspace in Hc. by destruct (Str.isspace c).
Qed.

Lemma attr_shape_is_spec (part name expr : string) :
  attr_shape part name expr -> attr_shape_spec part name expr.
Proof.
  intros (ws & ws' & Hp & Hws & Hn & Hname & Hw' & Hws' & (c & r & -> & Hc)).
  exists ws, ws'. done.
Qed.

(** C8, as the code has it.  [parse_attributes] returns a mapping
    exactly when every part matches [ATTR_RE] and no name comes twice,
    and the mapping holds the name and expression of each part in part
    order.  A part matches [ATTR_RE] exactly when it is optional
    whitespace, a name of non-whitespace characters, whitespace and an
    expression that begins with a character that is not whitespace; the
    grammar as the specification words it, with an expression that is
    only not empty, is necessary and not sufficient: the part [a] with
    two blanks fits it and is a bad-syntax error.  A part that has not
    the shape of the grammar makes [parse_attributes] raise a
    [LanguageError]; so does a name that two parts share: nothing is
    overwritten.  Which [LanguageError] is decided by the first part, in
    order, that breaks a rule: the bad-syntax error with the clause if
    that part does not match, the duplicate-name error with the part if
    its name was met before. *)
Theorem parse_attributes_errors (clause : string) :
  let parts := split_parts clause in
  (forall attrs : odict string,
     parse_attributes clause = Ok attrs <->
     parts_pairs parts attrs /\ NoDup (map fst attrs)) /\
  (forall part name expr : string,
     (attr_pair part = Some (name, expr) <-> attr_shape part name expr) /\
     (attr_shape part name expr -> attr_shape_spec part name expr)) /\
  (attr_shape_spec "a  " "a" " " /\
   parse_attributes "a  " = Raise (LanguageError "Bad syntax in attributes." "a  ")) /\
  (forall part : string,
     In part parts ->
     (forall name expr, ~ attr_shape part name expr) \/
     (forall name expr, ~ attr_shape_spec part name expr) ->
     exists msg arg, parse_attributes clause = Raise (LanguageError msg arg)) /\
  (forall (i j : nat) (p1 p2 n e1 e2 : string),
     (i < j)%nat -> parts !! i = Some p1 -> parts !! j = Some p2 ->
     attr_pair p1 = Some (n, e1) -> attr_pair p2 = Some (n, e2) ->
     exists msg arg, parse_attributes clause = Raise (LanguageError msg arg)) /\
  (forall (pre : list string) (part : string) (post : list string)
          (pairs : odict string),
     parts = pre ++ part :: post -> parts_pairs pre pairs ->
     NoDup (map fst pairs) ->
     (attr_pair part = None ->
      parse_attributes clause
      = Raise (LanguageError "Bad syntax in attributes." clause)) /\
     (forall n e, attr_pair part = Some (n, e) -> In n (map fst pairs) ->
        parse_attributes clause
        = Raise (LanguageError "Duplicate attribute name in attributes." part))) /\
  parse_attributes "class foo;id bar" = Ok [("class", "foo"); ("id", "bar")] /\
  parse_attributes "class foo;class bar"
  = Raise (LanguageError "Duplicate attribute name in attributes." "class bar").
Proof.
  intros parts. unfold parse_attributes. fold parts.
  assert (Hok : forall attrs : odict string,
            parse_attributes_loop clause parts [] = Ok attrs <->
            parts_pairs parts attrs /\ NoDup (map fst attrs)).
  { intros attrs. rewrite parse_attributes_loop_ok. split.
    - intros (pairs & HF & -> & Hnd & _). done.
    - intros [HF Hnd]. exists attrs. done. }
  assert (Hraise : forall P : Prop,
            (forall attrs, parts_pairs parts attrs -> NoDup (map fst attrs) -> P -> False) ->
            P -> exists msg arg,
              parse_attributes_loop clause parts [] = Raise (LanguageError msg arg)).
  { intros P HP p.
    destruct (parse_attributes_loop clause parts []) as [attrs|e] eqn:E.
    - destruct (proj1 (Hok attrs) eq_refl) as [HF Hnd]. destruct (HP attrs HF Hnd p).
    - apply parse_attributes_loop_raise in E as (msg & arg & ->). eauto. }
  split; [exact Hok|].
  split; [intros part name expr; split;
            [apply attr_pair_iff_shape|apply attr_shape_is_spec]|].
  split.
  { split; [|reflexivity]. exists EmptyString, " ". repeat split; done. }
  split; [|split; [|split; [|split; reflexivity]]].
  - intros part Hin Hshape. apply (Hraise True); [|done].
    intros attrs HF _ _.
    destruct (parts_pairs_in _ _ _ HF Hin) as [[n e] Hpr].
    apply attr_pair_shape in Hpr.
    destruct Hshape as [Hshape|Hshape]; [exact (Hshape n e Hpr)|].
    exact (Hshape n e (attr_shape_is_spec _ _ _ Hpr)).
  - intros i j p1 p2 n e1 e2 Hij H1 H2 Hp1 Hp2. apply (Hraise True); [|done].
    intros attrs HF Hnd _.
    destruct (Forall2_lookup_l _ _ _ _ _ HF H1) as (pr1 & Ha1 & Hq1).
    destruct (Forall2_lookup_l _ _ _ _ _ HF H2) as (pr2 & Ha2 & Hq2).
    rewrite Hp1 in Hq1. rewrite Hp2 in Hq2.
    injection Hq1 as <-. injection Hq2 as <-.
    apply (lookup_map fst) in Ha1, Ha2.
    pose proof (NoDup_lookup _ _ _ _ Hnd Ha1 Ha2). lia.
  - intros pre part post pairs Hparts HF Hnd. rewrite Hparts.
    destruct (parse_attributes_loop_first clause pre part post pairs [] HF Hnd
                ltac:(done)) as [H1 H2].
    split; [done|]. intros n e Hp Hin. apply (H2 n e Hp). by left.
Qed.

(** C8 as stated fails: the name [a] is in two parts of this clause,
    and what is raised is the bad-syntax error of the first part, not
    the duplicate-name error. *)
Lemma parse_attributes_duplicate_not_reported :
  split_parts "x;a 1;a 2" = ["x"; "a 1"; "a 2"] /\
  attr_pair "a 1" = Some ("a", "1") /\
  attr_pair "a 2" = Some ("a", "2") /\
  parse_attributes "x;a 1;a 2"
  = Raise (LanguageError "Bad syntax in attributes." "x;a 1;a 2") /\
  ~ (exists part,
       parse_attributes "x;a 1;a 2"
       = Raise (LanguageError "Duplicate attribute name in attributes." part)).
Proof.
  repeat split; try reflexivity. intros [part H]. vm_compute in H. congruence.
Qed.


Lemma no_amp_not_found (s : string) :
  Str.mem "&" s = false -> found ENTITY_RE s = false.
Proof.
  induction s as [|c s IH]; [done|]. intros H.
  apply mem_cons_false in H as [Hc Hs]. simpl.
  rewrite entity_miss by congruence. by apply IH.
Qed.

Lemma join_cons (p q : string) (parts : list string) :
  join (p :: q :: parts) = p +:+ String ";" (join (q :: parts)).
Proof. reflexivity. Qed.

Lemma mem_cons (c d : ascii) (s : string) :
  Str.mem c (String d s) = Str.char_is d c || Str.mem c s.
Proof. reflexivity. Qed.

Lemma join_plain (c : ascii) (parts : list string) :
  Forall plain_part parts ->
  (c = ";"%char -> parts <> [] -> Str.startswith ";" (join parts) = false) /\
  (c = Str.NUL \/ c = "&"%char -> Str.mem c (join parts) = false).
Proof.
  induction 1 as [|p parts (Hne & Hs & Hn & Ha) HF [IH1 IH2]]; [done|].
  split.
  - intros -> _. destruct p as [|d p]; [done|].
    apply mem_cons_false in Hs as [Hd _].
    assert (Hh : forall t, Str.startswith ";" (String d p +:+ t) = false).
    { intros t. rewrite sapp_cons. simpl. rewrite andb_true_r.
      apply char_is_false. congruence. }
    destruct parts as [|q parts]; [|rewrite join_cons; apply Hh].
    simpl. rewrite andb_true_r. apply char_is_false. congruence.
  - intros Hc. destruct parts as [|q parts].
    + simpl. by destruct Hc as [-> | ->].
    + rewrite join_cons, mem_app, mem_cons, (IH2 Hc).
      destruct Hc as [-> | ->]; [by rewrite Hn|by rewrite Ha].
Qed.

Lemma replace2_join (parts : list string) :
  Forall plain_part parts -> Str.replace ";;" nul (join parts) = join parts.
Proof.
  induction 1 as [|p parts (Hne & Hs & Hn & Ha) HF IH]; [done|].
  destruct parts as [|q parts]; [by apply replace2_absent|].
  rewrite join_cons, replace2_pass by done.
  rewrite replace2_single, IH; [done|].
  by apply (join_plain ";" (q :: parts) HF).
Qed.

Lemma split_join (parts : list string) :
  parts <> [] -> Forall plain_part parts -> Str.split ";" (join parts) = parts.
Proof.
  intros Hne HF. induction HF as [|p parts (_ & Hs & _) HF IH]; [done|].
  destruct parts as [|q parts]; [by apply split_absent|].
  rewrite join_cons, split_pass by done. by rewrite IH.
Qed.

Lemma map_replace_nul (parts : list string) :
  Forall plain_part parts -> map (Str.replace nul ";") parts = parts.
Proof.
  induction 1 as [|p parts (_ & _ & Hn & _) HF IH]; [done|].
  simpl. by rewrite IH, replace1_absent.
Qed.

Lemma split_parts_of_join (parts : list string) :
  parts <> [] -> Forall plain_part parts ->
  Str.is_empty (Str.strip (List.last parts EmptyString)) = false ->
  split_parts (join parts) = parts.
Proof.
  intros Hne HF Hlast. rewrite (split_parts_from _ parts).
  - by rewrite Hlast, andb_false_r.
  - rewrite sub_not_found.
    2:{ apply no_amp_not_found. apply (join_plain "&" parts HF). by right. }
    by rewrite replace2_join, split_join, map_replace_nul.
Qed.

(** [split_parts] gives back the parts a clause was joined from, when
    they are plain and the last is not blank. *)
Theorem split_parts_join (parts : list string) :
  parts <> [] -> Forall plain_part parts ->
  Str.is_empty (Str.strip (List.last parts EmptyString)) = false ->
  split_parts (join parts) = parts.
Proof. apply split_parts_of_join. Qed.

Lemma split_parts_join_witness :
  split_parts (join ["class foo"; " id bar "; "x y"]) = ["class foo"; " id bar "; "x y"].
Proof.
  apply split_parts_join; [discriminate| |reflexivity].
  repeat constructor; discriminate.
Defined.

Lemma strip_by_all_blank (p : ascii -> bool) (s : string) :
  all_in p s = true -> Str.strip_by p s = EmptyString.
Proof.
  intros H. unfold Str.strip_by.
  assert (Hl : Str.lstrip_by p s = EmptyString).
  { induction s as [|c s IH]; [done|]. simpl in *.
    apply andb_true_iff in H as [Hc Hs]. rewrite Hc. by apply IH. }
  by rewrite Hl.
Qed.

(** A trailing semicolon, and blanks after it, change nothing. *)
Theorem split_parts_trailing (parts : list string) (blank : string) :
  parts <> [] -> Forall plain_part parts ->
  Str.is_empty (Str.strip (List.last parts EmptyString)) = false ->
  all_in space blank = true ->
  split_parts (join parts +:+ ";" +:+ blank) = parts.
Proof.
  intros Hne HF Hlast Hb.
  assert (Hbs : Str.mem ";" blank = false) by (by apply (all_in_not_mem space)).
  assert (Hbn : Str.mem Str.NUL blank = false) by (by apply (all_in_not_mem space)).
  assert (Hba : Str.mem "&" blank = false) by (by apply (all_in_not_mem space)).
  assert (Hblank : Str.is_empty (Str.strip blank) = true).
  { unfold Str.strip. change Str.isspace with space.
    by rewrite (strip_by_all_blank _ _ Hb). }
  rewrite (split_parts_from _ (parts ++ [blank])).
  - rewrite last_last, Hblank, andb_true_r.
    replace (1 <? length (parts ++ [blank]))%nat with true.
    + by rewrite removelast_last.
    + symmetry. apply Nat.ltb_lt. rewrite length_app. simpl.
      destruct parts; [done|simpl; lia].
  - rewrite sub_not_found.
    2:{ apply no_amp_not_found. rewrite !mem_app.
        rewrite (proj2 (join_plain "&" parts HF) ltac:(by right)). simpl.
        by rewrite Hba. }
    clear Hlast. induction HF as [|p parts (Hpne & Hs & Hn & Ha) HF IH]; [done|].
    destruct parts as [|q parts].
    + simpl join. change (p +:+ ";" +:+ blank) with (p +:+ String ";" blank).
      rewrite replace2_pass by done.
      rewrite replace2_single by (by apply startswith_semi_absent).
      rewrite replace2_absent by done.
      rewrite split_pass, split_absent by done.
      simpl. by rewrite !replace1_absent.
    + rewrite join_cons, sapp_assoc, sapp_cons.
      rewrite replace2_pass by done.
      rewrite replace2_single.
      2:{ destruct q as [|d q]; [by destruct (Forall_inv HF) as [? _]|].
          destruct (Forall_inv HF) as (_ & Hqs & _).
          apply mem_cons_false in Hqs as [Hd _].
          destruct parts; rewrite ?join_cons, !sapp_cons; simpl;
            rewrite andb_true_r; apply char_is_false; congruence. }
      rewrite split_pass by done. rewrite map_cons.
      rewrite replace1_absent by done.
      rewrite (IH ltac:(done)). done.
Qed.

Lemma split_parts_trailing_witness :
  split_parts (join ["class foo"; "id bar"] +:+ ";" +:+ "  ") = ["class foo"; "id bar"].
Proof.
  apply split_parts_trailing; [discriminate| |reflexivity|reflexivity].
  repeat constructor; discriminate.
Defined.

Lemma Forall_last {A} (P : A -> Prop) (l : list A) (d : A) :
  l <> [] -> Forall P l -> P (List.last l d).
Proof.
  intros Hne HF. induction HF as [|x l Hx HF IH]; [done|].
  destruct l as [|y l]; [done|]. apply IH. done.
Qed.

Lemma plain_attr_part (pair : string * string) :
  plain_attr pair ->
  plain_part (attr_part pair) /\
  Str.is_empty (Str.strip (attr_part pair)) = false /\
  attr_pair (attr_part pair) = Some pair.
Proof.
  destruct pair as [n e].
  intros ((Hn0 & Hns & Hnn & Hna) & Hnsp & (He0 & Hes & Hen & Hea) & Hel).
  simpl in *. unfold attr_part. simpl fst. simpl snd.
  split; [|split].
  - split; [by destruct n|].
    rewrite !mem_app, Hns, Hes, Hnn, Hen, Hna, Hea. done.
  - destruct n as [|c n]; [done|]. rewrite sapp_cons.
    apply strip_head_nonspace. simpl in Hnsp.
    apply andb_true_iff in Hnsp as [Hc _]. unfold nonspace in Hc.
    by destruct (Str.isspace c).
  - apply (attr_pair_of_written EmptyString n " " e); done.
Qed.

(** An attributes clause written from names and expressions parses to
    them, in order: distinct names without whitespace, expressions that
    do not begin with whitespace, all plain. *)
Theorem parse_attributes_written (pairs : list (string * string)) :
  pairs <> [] -> NoDup (map fst pairs) -> Forall plain_attr pairs ->
  parse_attributes (join (map attr_part pairs)) = Ok pairs.
Proof.
  intros Hne Hnd HF. unfold parse_attributes.
  assert (Hparts : Forall plain_part (map attr_part pairs)).
  { apply Forall_forall. intros p Hp. apply list_elem_of_In, in_map_iff in Hp as (pr & <- & Hin).
    rewrite Forall_forall in HF. apply list_elem_of_In in Hin.
    by destruct (plain_attr_part _ (HF _ Hin)). }
  rewrite split_parts_of_join; [| |done|].
  - apply parse_attributes_loop_ok. exists pairs. split; [|done].
    clear Hne Hnd Hparts. induction HF as [|pr pairs Hpr HF IH]; [constructor|].
    simpl. constructor; [|done]. by destruct (plain_attr_part _ Hpr) as (_ & _ & ?).
  - by destruct pairs.
  - assert (Hl : Forall (fun p => Str.is_empty (Str.strip p) = false)
                   (map attr_part pairs)).
    { apply Forall_forall. intros p Hp.
      apply list_elem_of_In, in_map_iff in Hp as (pr & <- & Hin).
      rewrite Forall_forall in HF. apply list_elem_of_In in Hin.
      by destruct (plain_attr_part _ (HF _ Hin)) as (_ & ? & _). }
    apply (Forall_last _ _ EmptyString) in Hl; [done|by destruct pairs].
Qed.

Lemma parse_attributes_written_witness :
  parse_attributes (join (map attr_part [("class", "foo"); ("id", "python: bar")]))
  = Ok [("class", "foo"); ("id", "python: bar")].
Proof.
  apply parse_attributes_written; [discriminate|compute_done|].
  repeat constructor; discriminate.
Defined.

(** ** [prepare_attributes]: the merge *)

Section MergeFacts.

Context {V : Type}.
Implicit Types (d : odict V) (k : string) (v : V).

Lemma od_mem_true d k : od_mem d k = true <-> In k (map fst d).
Proof.
  unfold od_mem. induction d as [|[k' v'] d IH]; simpl; [done|].
  destruct (bool_decide (k = k')) eqn:E.
  - apply bool_decide_eq_true_1 in E as ->. split; [by left|done].
  - apply bool_decide_eq_false_1 in E. rewrite IH. split; [by right|].
    intros [?|?]; [congruence|done].
Qed.

Lemma od_set_keys d k v :
  map fst (od_set d k v) = if od_mem d k then map fst d else map fst d ++ [k].
Proof.
  unfold od_mem. induction d as [|[k' v'] d IH]; simpl; [done|].
  destruct (bool_decide (k = k')) eqn:E; simpl.
  - by apply bool_decide_eq_true_1 in E as ->.
  - rewrite IH. by destruct (od_get d k).
Qed.

Lemma od_get_app_l d d' k :
  od_get d' k = None -> od_get (d ++ d') k = od_get d k.
Proof.
  intros H. induction d as [|[k' v'] d IH]; simpl; [done|].
  by destruct (bool_decide (k = k')).
Qed.

Lemma od_get_app_r d d' k :
  od_get d k = None -> od_get (d ++ d') k = od_get d' k.
Proof.
  induction d as [|[k' v'] d IH]; simpl; [done|].
  by destruct (bool_decide (k = k')).
Qed.

End MergeFacts.

Lemma od_get_NoDup_In {V} (d : odict V) (k : string) (v : V) :
  NoDup (map fst d) -> In (k, v) d -> od_get d k = Some v.
Proof.
  induction d as [|[k' v'] d IH]; simpl; [done|].
  intros Hnd [[= -> ->]|Hin].
  - by rewrite bool_decide_eq_true_2.
  - apply NoDup_cons in Hnd as [Hn Hnd].
    rewrite bool_decide_eq_false_2; [by apply IH|].
    intros ->. apply Hn, list_elem_of_In. by apply (in_map fst _ (k', v)).
Qed.

(** The static pass over attributes with distinct names stores the kept
    ones in their order. *)
Lemma static_loop_entries (drop : gset string) (attrs : list attribute) :
  NoDup (map attr_name attrs) ->
  forall acc : odict prepared,
    (forall a, In a attrs -> od_get acc (attr_name a) = None) ->
    static_loop drop attrs acc
    = acc ++ map static_entry (List.filter (kept drop) attrs).
Proof.
  induction attrs as [|a attrs IH]; intros Hnd acc Hacc; simpl.
  - by rewrite app_nil_r.
  - simpl in Hnd. apply NoDup_cons in Hnd as [Hn Hnd]. unfold kept at 1.
    destruct (bool_decide (attr_name a ∈ drop)); simpl.
    + apply IH; [done|]. intros b Hb. apply Hacc. by right.
    + rewrite IH; [|done|].
      * rewrite od_set_new by (apply Hacc; by left).
        by rewrite <- app_assoc.
      * intros b Hb. rewrite od_get_set_ne; [apply Hacc; by right|].
        intros E. apply Hn. rewrite E. apply list_elem_of_In. by apply in_map.
Qed.

(** The dynamic pass: what it leaves under a name, and the names in
    their order. *)
Lemma dynamic_loop_get (dyn : odict string) :
  NoDup (map fst dyn) ->
  forall (acc : odict prepared) (name : string),
    od_get (dynamic_loop dyn acc) name
    = match od_get dyn name with
      | Some expr => Some (with_expr (od_get acc name) expr)
      | None => od_get acc name
      end.
Proof.
  induction dyn as [|[n e] dyn IH]; intros Hnd acc name; simpl; [done|].
  simpl in Hnd. apply NoDup_cons in Hnd as [Hn Hnd].
  rewrite (IH Hnd). destruct (bool_decide (name = n)) eqn:E.
  - apply bool_decide_eq_true_1 in E as ->.
    destruct (od_get dyn n) eqn:Ed.
    { exfalso. apply Hn, list_elem_of_In.
      apply od_get_Some_In in Ed. by apply (in_map fst _ (n, s)). }
    rewrite od_get_set_eq. unfold with_expr. by destruct (od_get acc n) as [[]|].
  - apply bool_decide_eq_false_1 in E.
    by rewrite od_get_set_ne by congruence.
Qed.

Lemma dynamic_loop_keys (dyn : odict string) :
  NoDup (map fst dyn) ->
  forall acc : odict prepared,
    map fst (dynamic_loop dyn acc)
    = map fst acc ++ List.filter (fun n => negb (od_mem acc n)) (map fst dyn).
Proof.
  induction dyn as [|[n e] dyn IH]; intros Hnd acc; simpl; [by rewrite app_nil_r|].
  simpl in Hnd. apply NoDup_cons in Hnd as [Hn Hnd].
  rewrite (IH Hnd), od_set_keys.
  assert (Hf : List.filter (fun k => negb (od_mem (od_set acc n
                  match od_get acc n with
                  | Some (Prepared text quote space eq _) =>
                      Prepared text quote space eq (Some e)
                  | None => Prepared None dquote " " "=" (Some e)
                  end) k)) (map fst dyn)
               = List.filter (fun k => negb (od_mem acc k)) (map fst dyn)).
  { apply filter_ext_in. intros k Hk. f_equal. unfold od_mem.
    rewrite od_get_set_ne; [done|]. intros ->. apply Hn. by apply list_elem_of_In. }
  rewrite Hf. destruct (od_mem acc n) eqn:Em; simpl; [done|].
  by rewrite <- app_assoc.
Qed.

Lemma NoDup_map_filter {A B} (f : A -> B) (p : A -> bool) (l : list A) :
  NoDup (map f l) -> NoDup (map f (List.filter p l)).
Proof.
  induction l as [|a l IH]; simpl; [done|].
  intros Hnd. apply NoDup_cons in Hnd as [Hn Hnd].
  destruct (p a); simpl; [|by apply IH].
  apply NoDup_cons. split; [|by apply IH].
  intros Hin. apply Hn. apply list_elem_of_In in Hin. apply list_elem_of_In.
  apply in_map_iff in Hin as (b & Eb & Hb). apply in_map_iff. exists b.
  split; [done|]. by apply filter_In in Hb as [Hb _].
Qed.

(** [prepare_attributes] on static attributes with distinct names and a
    dictionary of expressions.  The names of the result are the kept
    static names in source order, then the names of the expressions that
    are no kept static name, in the order of the dictionary.  A kept
    static attribute keeps its value, quote, space and equals sign, with
    the expression of its name if there is one; an expression under
    another name has no static text and the default quote, space and
    equals sign. *)
Theorem prepare_attributes_merge (XMLNS_NS : string) (attrs : list attribute)
  (dyn_attributes : odict string) (ns_attributes : list (string * string))
  (drop_ns : gset string) :
  NoDup (map attr_name attrs) -> NoDup (map fst dyn_attributes) ->
  let drop := drop_set XMLNS_NS attrs ns_attributes drop_ns in
  let static := map static_entry (List.filter (kept drop) attrs) in
  let r := prepare_attributes XMLNS_NS attrs dyn_attributes ns_attributes drop_ns in
  map fst r
  = map fst static
    ++ List.filter (fun n => negb (od_mem static n)) (map fst dyn_attributes) /\
  (forall a : attribute,
     In a attrs -> kept drop a = true ->
     od_get r (attr_name a)
     = Some (Prepared (Some (attr_value a)) (attr_quote a) (attr_space a)
               (attr_eq a) (od_get dyn_attributes (attr_name a)))) /\
  (forall name expr : string,
     od_get dyn_attributes name = Some expr -> od_mem static name = false ->
     od_get r name = Some (Prepared None dquote " " "=" (Some expr))).
Proof.
  intros Hna Hnd drop static r. subst r. unfold prepare_attributes. fold drop.
  rewrite (static_loop_entries drop attrs Hna []) by done.
  rewrite app_nil_l. fold static.
  split; [by apply dynamic_loop_keys|]. split.
  - intros a Hin Hk. rewrite dynamic_loop_get by done.
    assert (Hs : od_get static (attr_name a) = Some (snd (static_entry a))).
    { apply od_get_NoDup_In.
      - subst static. rewrite map_map. simpl. by apply NoDup_map_filter.
      - subst static. apply in_map_iff. exists a. split; [done|].
        apply filter_In. by split. }
    rewrite Hs. simpl. by destruct (od_get dyn_attributes (attr_name a)).
  - intros name expr Hd Hm. rewrite dynamic_loop_get by done.
    by rewrite Hd, (proj1 (od_mem_false _ _) Hm).
Qed.

Lemma prepare_attributes_merge_witness :
  let attrs := [Attribute "class" "a" dquote " " "="; Attribute "id" "b" dquote " " "="] in
  let dyn := [("href", "url"); ("class", "cls")] in
  let r := prepare_attributes "xmlns" attrs dyn [("", "a"); ("", "b")] ∅ in
  map fst r = ["class"; "id"; "href"].
Proof.
  intros attrs dyn r.
  assert (Ha : NoDup (map attr_name attrs)).
  { apply NoDup_ListNoDup. repeat constructor; simpl; intuition discriminate. }
  assert (Hd : NoDup (map fst dyn)).
  { apply NoDup_ListNoDup. repeat constructor; simpl; intuition discriminate. }
  destruct (prepare_attributes_merge "xmlns" attrs dyn [("", "a"); ("", "b")] ∅ Ha Hd)
    as (Hk & _ & _).
  exact Hk.
Defined.

(** ** [RepeatItem]: the labels *)

Lemma chr_ord (n : Z) :
  0 <= n < 256 -> exists c, chr n = Ok c /\ ord c = n.
Proof.
  intros Hn. exists (ascii_of_nat (Z.to_nat n)). unfold chr, ord.
  replace ((0 <=? n) && (n <? 256)) with true
    by (symmetry; apply andb_true_iff; split; lia).
  split; [done|]. rewrite nat_ascii_embedding by lia. lia.
Qed.

Lemma letter_value_app (base acc : Z) (s t : string) :
  letter_value base acc (s +:+ t) = letter_value base (letter_value base acc s) t.
Proof.
  revert acc. induction s as [|c s IH]; intros acc; [done|].
  rewrite sapp_cons. simpl. apply IH.
Qed.

(** The digits the loop of [_letter] puts before the string it was
    given: base 26, most significant first, each a character from
    [base] to [base + 25]. *)
Lemma letter_loop_digits (base : Z) :
  0 <= base -> base + 26 <= 256 ->
  forall (fuel : nat) (i : Z) (s : string),
    0 <= i -> (Z.to_nat i < fuel)%nat ->
    exists d : string,
      letter_loop fuel base 26 i s = Some (Ok (d +:+ s)) /\
      d <> EmptyString /\
      all_in (fun c => (base <=? ord c) && (ord c <? base + 26)) d = true /\
      letter_value base 0 d = i.
Proof.
  intros Hb Hbr fuel. induction fuel as [|fuel IH]; intros i s Hi Hf; [lia|].
  simpl. pose proof (Z.mod_pos_bound i 26 ltac:(lia)) as Hm.
  destruct (chr_ord (base + i mod 26) ltac:(lia)) as (c & -> & Hc).
  assert (Hin : (base <=? ord c) && (ord c <? base + 26) = true)
    by (apply andb_true_iff; split; lia).
  destruct (i / 26 =? 0) eqn:E0.
  - exists (String c EmptyString). split; [done|]. split; [done|].
    split; [simpl; by rewrite Hin|]. simpl. rewrite Hc.
    pose proof (Z.div_mod i 26 ltac:(lia)). lia.
  - assert (0 <= i / 26) by (apply Z.div_pos; lia).
    assert (i <> 0) by (intros ->; discriminate E0).
    assert (i / 26 < i) by (apply Z.div_lt; lia).
    destruct (IH (i / 26) (String c s) ltac:(lia) ltac:(lia)) as (d & -> & Hne & Hall & Hv).
    exists (d +:+ String c EmptyString). split; [by rewrite sapp_assoc|].
    split; [by destruct d|]. split.
    + rewrite all_in_app, Hall. simpl. by rewrite Hin.
    + rewrite letter_value_app, Hv. simpl. rewrite Hc.
      pose proof (Z.div_mod i 26 ltac:(lia)). lia.
Qed.

Lemma lower_app (s t : string) : lower (s +:+ t) = lower s +:+ lower t.
Proof. induction s as [|c s IH]; [done|]. rewrite !sapp_cons. simpl. by rewrite IH. Qed.

Lemma lower_digit (off : Z) (C c : ascii) :
  0 <= off < 26 -> chr (ord "A" + off) = Ok C -> chr (ord "a" + off) = Ok c ->
  lower_char C = c.
Proof.
  intros Ho HC Hc.
  assert (Hcase : off = 0 \/ off = 1 \/ off = 2 \/ off = 3 \/ off = 4 \/ off = 5 \/
                  off = 6 \/ off = 7 \/ off = 8 \/ off = 9 \/ off = 10 \/ off = 11 \/
                  off = 12 \/ off = 13 \/ off = 14 \/ off = 15 \/ off = 16 \/
                  off = 17 \/ off = 18 \/ off = 19 \/ off = 20 \/ off = 21 \/
                  off = 22 \/ off = 23 \/ off = 24 \/ off = 25) by lia.
  repeat (destruct Hcase as [->|Hcase]); try subst off;
    vm_compute in HC, Hc; injection HC as <-; injection Hc as <-; reflexivity.
Qed.

(** The two loops of [Letter] and [letter] run in step. *)
Lemma letter_loop_lower (fuel : nat) :
  forall (i : Z) (S s : string),
    0 <= i -> (Z.to_nat i < fuel)%nat ->
    exists D d : string,
      letter_loop fuel (ord "A") 26 i S = Some (Ok (D +:+ S)) /\
      letter_loop fuel (ord "a") 26 i s = Some (Ok (d +:+ s)) /\
      lower D = d.
Proof.
  induction fuel as [|fuel IH]; intros i S s Hi Hf; [lia|].
  simpl. pose proof (Z.mod_pos_bound i 26 ltac:(lia)) as Hm.
  destruct (chr_ord (ord "A" + i mod 26) ltac:(vm_compute ord; lia)) as (C & HC & _).
  destruct (chr_ord (ord "a" + i mod 26) ltac:(vm_compute ord; lia)) as (c & Hc & _).
  pose proof (lower_digit _ _ _ Hm HC Hc) as Hl.
  rewrite HC, Hc.
  destruct (i / 26 =? 0) eqn:E0.
  - exists (String C EmptyString), (String c EmptyString).
    split; [done|]. split; [done|]. simpl. by rewrite Hl.
  - assert (0 <= i / 26) by (apply Z.div_pos; lia).
    assert (i <> 0) by (intros ->; discriminate E0).
    assert (i / 26 < i) by (apply Z.div_lt; lia).
    destruct (IH (i / 26) (String C S) (String c s) ltac:(lia) ltac:(lia))
      as (D & d & -> & -> & Hd).
    exists (D +:+ String C EmptyString), (d +:+ String c EmptyString).
    split; [by rewrite sapp_assoc|]. split; [by rewrite sapp_assoc|].
    rewrite lower_app, Hd. simpl. by rewrite Hl.
Qed.

Lemma in_range_digits (lo hi : ascii) (s : string) :
  ord hi = ord lo + 25 ->
  all_in (fun c => (ord lo <=? ord c) && (ord c <? ord lo + 26)) s = true ->
  all_in (Str.in_range lo hi) s = true.
Proof.
  intros Hhi. apply all_in_impl. intros c Hc.
  apply andb_true_iff in Hc as [H1 H2].
  unfold Str.in_range. unfold ord in *. apply andb_true_iff.
  split; apply Nat.leb_le; lia.
Qed.

Lemma letter_label (h : heap) (self : RepeatItem.t) (lo hi : ascii) (i : Z) :
  ord hi = ord lo + 25 ->
  index h self = Ok i -> 0 <= i ->
  exists s : string,
    _letter h self (ord lo) 26 = Some (Ok s) /\
    s <> EmptyString /\
    all_in (Str.in_range lo hi) s = true /\
    letter_value (ord lo) 0 s = i.
Proof.
  intros Hhi Hi Hpos. unfold _letter. rewrite Hi.
  replace (i <? 0) with false by lia.
  assert (Hlo : 0 <= ord lo) by (unfold ord; lia).
  assert (Hup : ord lo + 26 <= 256).
  { pose proof (nat_ascii_bounded hi). unfold ord in *. lia. }
  destruct (letter_loop_digits (ord lo) Hlo Hup (S (Z.to_nat i)) i EmptyString
              ltac:(lia) ltac:(lia)) as (d & -> & Hne & Hall & Hv).
  exists d. rewrite sapp_nil_r. repeat split; try done.
  by apply in_range_digits.
Qed.

(** At a position of the iteration (an index of 0 or more) [letter]
    returns the index written in base 26 with the digits [a] to [z],
    most significant first: the label is not empty, it holds nothing
    but these letters, and read back as a numeral it gives the index. *)
Theorem letter_numeral (h : heap) (self : RepeatItem.t) (i : Z) :
  index h self = Ok i -> 0 <= i ->
  exists s : string,
    letter h self = Some (Ok s) /\
    s <> EmptyString /\
    all_in (Str.in_range "a" "z") s = true /\
    letter_value (ord "a") 0 s = i.
Proof. by apply letter_label. Qed.

Lemma letter_numeral_witness :
  exists s : string,
    letter [OIter (TupleIterator [VInt 1; VInt 2] 2)] (RepeatItem.Make 2 0%nat)
    = Some (Ok s) /\
    s <> EmptyString /\
    all_in (Str.in_range "a" "z") s = true /\
    letter_value (ord "a") 0 s = 1.
Proof. apply letter_numeral; [reflexivity | lia]. Defined.

(** The same for [Letter], with the digits [A] to [Z]. *)
Theorem Letter_numeral (h : heap) (self : RepeatItem.t) (i : Z) :
  index h self = Ok i -> 0 <= i ->
  exists s : string,
    Letter h self = Some (Ok s) /\
    s <> EmptyString /\
    all_in (Str.in_range "A" "Z") s = true /\
    letter_value (ord "A") 0 s = i.
Proof. by apply letter_label. Qed.

Lemma Letter_numeral_witness :
  exists s : string,
    Letter [OIter (TupleIterator [VInt 1; VInt 2] 2)] (RepeatItem.Make 2 0%nat)
    = Some (Ok s) /\
    s <> EmptyString /\
    all_in (Str.in_range "A" "Z") s = true /\
    letter_value (ord "A") 0 s = 1.
Proof. apply Letter_numeral; [reflexivity | lia]. Defined.

(** Two items at positions with different indices never carry the same
    [letter] label, whatever their heaps and lengths. *)
Theorem letter_distinct (h h' : heap) (self self' : RepeatItem.t) (i j : Z) :
  index h self = Ok i -> index h' self' = Ok j -> 0 <= i -> 0 <= j -> i <> j ->
  letter h self <> letter h' self'.
Proof.
  intros Hi Hj Hpi Hpj Hne. unfold letter, descriptorstr.
  destruct (letter_label h self "a" "z" i eq_refl Hi Hpi) as (s1 & E1 & _ & _ & V1).
  destruct (letter_label h' self' "a" "z" j eq_refl Hj Hpj) as (s2 & E2 & _ & _ & V2).
  intros E. apply Hne. congruence.
Qed.

Lemma letter_distinct_witness :
  letter [OIter (TupleIterator [VInt 1; VInt 2] 1)] (RepeatItem.Make 2 0%nat)
  <> letter [OIter (TupleIterator [VInt 7; VInt 8; VInt 9] 3)] (RepeatItem.Make 3 0%nat).
Proof.
  apply (letter_distinct _ _ _ _ 0 2); [reflexivity | reflexivity | lia | lia | lia].
Defined.

(** At a position [Letter] is [letter] in upper case: lowering the one
    gives the other. *)
Theorem Letter_lower (h : heap) (self : RepeatItem.t) (i : Z) :
  index h self = Ok i -> 0 <= i ->
  exists S s : string,
    Letter h self = Some (Ok S) /\ letter h self = Some (Ok s) /\ lower S = s.
Proof.
  intros Hi Hpos. unfold Letter, letter, descriptorstr, _letter. rewrite Hi.
  replace (i <? 0) with false by lia.
  destruct (letter_loop_lower (S (Z.to_nat i)) i EmptyString EmptyString
              ltac:(lia) ltac:(lia)) as (D & d & -> & -> & Hl).
  exists D, d. by rewrite !sapp_nil_r.
Qed.

Lemma Letter_lower_witness :
  exists S s : string,
    Letter [OIter (TupleIterator [VInt 1; VInt 2] 2)] (RepeatItem.Make 2 0%nat)
    = Some (Ok S) /\
    letter [OIter (TupleIterator [VInt 1; VInt 2] 2)] (RepeatItem.Make 2 0%nat)
    = Some (Ok s) /\ lower S = s.
Proof. apply (Letter_lower _ _ 1); [reflexivity | lia]. Defined.

(** ** [RepeatItem]: Roman numerals *)

Lemma roman_loop_acc (l : list (Z * string)) :
  forall (n : Z) (s : string),
    roman_loop l n s = s +:+ roman_loop l n EmptyString.
Proof.
  induction l as [|[v r] l IH]; intros n s; simpl.
  - by rewrite sapp_nil_r.
  - rewrite IH, (IH _ (EmptyString +:+ _)), sapp_nil_l. by rewrite sapp_assoc.
Qed.

Lemma roman_symbol_le (c : ascii) : roman_symbol c <= 1000.
Proof.
  destruct c as [[] [] [] [] [] [] [] []]; vm_compute; congruence.
Qed.

Lemma roman_value_M (k : nat) (s : string) :
  roman_value (Str.repeat "M" k +:+ s) = 1000 * Z.of_nat k + roman_value s.
Proof.
  induction k as [|k IH]; [done|].
  change (Str.repeat "M" (S k)) with ("M" +:+ Str.repeat "M" k).
  rewrite sapp_assoc.
  change ("M" +:+ (Str.repeat "M" k +:+ s)) with (String "M" (Str.repeat "M" k +:+ s)).
  revert IH. generalize (Str.repeat "M" k +:+ s). intros t IH.
  transitivity (1000 + roman_value t); [|lia].
  destruct t as [|d t]; [done|].
  change (roman_value (String "M" (String d t)))
    with (if roman_symbol "M" <? roman_symbol d
          then roman_value (String d t) - roman_symbol "M"
          else roman_value (String d t) + roman_symbol "M").
  pose proof (roman_symbol_le d).
  change (roman_symbol "M") with 1000.
  replace (1000 <? roman_symbol d) with false by lia. lia.
Qed.

(** Below a thousand: every numeral the loop writes, read back. *)
Lemma roman_below_thousand (n : Z) :
  0 <= n < 1000 ->
  roman_value (roman_loop (tl rnvalues) n EmptyString) = n.
Proof.
  intros Hn.
  assert (Hall : forallb (fun k : nat =>
            roman_value (roman_loop (tl rnvalues) (Z.of_nat k) EmptyString)
            =? Z.of_nat k) (seq 0 1000) = true) by (vm_compute; reflexivity).
  rewrite forallb_forall in Hall.
  specialize (Hall (Z.to_nat n)). rewrite Z2Nat.id in Hall by lia.
  apply Z.eqb_eq, Hall, in_seq. lia.
Qed.

(** Before the first element and at every position (an index of -1 or
    more) [Roman] returns a numeral that, read by the subtractive rule,
    stands for the index plus one, however large the index. *)
Theorem Roman_numeral (h : heap) (self : RepeatItem.t) (i : Z) :
  index h self = Ok i -> -1 <= i ->
  exists s : string, Roman h self = Ok s /\ roman_value s = i + 1.
Proof.
  intros Hi Hpos. unfold Roman, descriptorstr. rewrite Hi.
  exists (roman_loop rnvalues (i + 1) EmptyString). split; [reflexivity|].
  unfold rnvalues.
  change (roman_loop ((1000, "M") :: ?l) (i + 1) EmptyString)
    with (roman_loop l ((i + 1) mod 1000)
            (EmptyString +:+ Str.repeat "M" (Z.to_nat ((i + 1) / 1000)))).
  rewrite sapp_nil_l, roman_loop_acc, roman_value_M.
  pose proof (Z.mod_pos_bound (i + 1) 1000 ltac:(lia)) as Hm.
  pose proof (Z.div_mod (i + 1) 1000 ltac:(lia)) as Hd.
  assert (0 <= (i + 1) / 1000) by (apply Z.div_pos; lia).
  pose proof (roman_below_thousand _ Hm) as Hb.
  unfold rnvalues in Hb. cbn [tl] in Hb. rewrite Hb. lia.
Qed.

Lemma Roman_numeral_witness :
  exists s : string,
    Roman [OIter (TupleIterator [VInt 1; VInt 2] 2)] (RepeatItem.Make 2 0%nat) = Ok s /\
    roman_value s = 1 + 1.
Proof. apply Roman_numeral; [reflexivity | lia]. Defined.

Lemma all_in_repeat (p : ascii -> bool) (r : string) (n : nat) :
  all_in p r = true -> all_in p (Str.repeat r n) = true.
Proof.
  intros Hr. induction n as [|n IH]; [done|].
  change (Str.repeat r (S n)) with (r +:+ Str.repeat r n).
  by rewrite all_in_app, Hr, IH.
Qed.

Lemma roman_loop_chars (p : ascii -> bool) (l : list (Z * string)) :
  Forall (fun vr => all_in p (snd vr) = true) l ->
  forall (n : Z) (s : string),
    all_in p s = true -> all_in p (roman_loop l n s) = true.
Proof.
  induction 1 as [|[v r] l Hr HF IH]; intros n s Hs; simpl; [done|].
  apply IH. rewrite all_in_app, Hs. by apply all_in_repeat.
Qed.

Lemma all_in_lower (p q : ascii -> bool) (s : string) :
  (forall c, p c = true -> q (lower_char c) = true) ->
  all_in p s = true -> all_in q (lower s) = true.
Proof.
  intros Hpq. induction s as [|c s IH]; [done|]. simpl.
  intros H. apply andb_true_iff in H as [Hc Hs]. by rewrite (Hpq _ Hc), IH.
Qed.

(** [roman] is [Roman] in lower case.  Whatever the index, [Roman] is
    written with the seven symbols [MDCLXVI] alone and [roman] with
    [mdclxvi] alone. *)
Theorem roman_lowercase (h : heap) (self : RepeatItem.t) (i : Z) :
  index h self = Ok i ->
  exists s : string,
    Roman h self = Ok s /\ roman h self = Ok (lower s) /\
    all_in (fun c => Str.mem c "MDCLXVI") s = true /\
    all_in (fun c => Str.mem c "mdclxvi") (lower s) = true.
Proof.
  intros Hi. unfold roman, Roman, descriptorstr. rewrite Hi.
  exists (roman_loop rnvalues (i + 1) EmptyString).
  split; [reflexivity|]. split; [reflexivity|].
  assert (Hup : all_in (fun c => Str.mem c "MDCLXVI")
                  (roman_loop rnvalues (i + 1) EmptyString) = true).
  { apply roman_loop_chars; [|done]. unfold rnvalues. repeat constructor. }
  split; [done|]. revert Hup. apply all_in_lower.
  intros c. destruct c as [[] [] [] [] [] [] [] []]; vm_compute; congruence.
Qed.

Lemma roman_lowercase_witness :
  exists s : string,
    let h := [OIter (TupleIterator [VInt 1; VInt 2] 2)] in
    let self := RepeatItem.Make 2 0%nat in
    Roman h self = Ok s /\ roman h self = Ok (lower s) /\
    all_in (fun c => Str.mem c "MDCLXVI") s = true /\
    all_in (fun c => Str.mem c "mdclxvi") (lower s) = true.
Proof. apply (roman_lowercase _ _ 1). reflexivity. Defined.

(** ** [RepeatItem]: odd and even *)

(** Whatever the index, exactly one of [odd] and [even] is a non-empty
    string; [odd] is the one for an index of -1, before the first
    element. *)
Theorem odd_even_exclusive (h : heap) (self : RepeatItem.t) (i : Z) :
  index h self = Ok i ->
  (Z.odd i = true /\ odd h self = Ok "odd" /\ even h self = Ok EmptyString) \/
  (Z.even i = true /\ odd h self = Ok EmptyString /\ even h self = Ok "even").
Proof.
  intros Hi. unfold odd, even, descriptorstr. rewrite Hi. unfold bind.
  rewrite Zmod_odd. rewrite <- Z.negb_odd.
  destruct (Z.odd i); [left|right]; done.
Qed.

Lemma odd_even_exclusive_witness :
  let h := [OIter (TupleIterator [VInt 1; VInt 2] 0)] in
  let self := RepeatItem.Make 2 0%nat in
  (Z.odd (-1) = true /\ odd h self = Ok "odd" /\ even h self = Ok EmptyString) \/
  (Z.even (-1) = true /\ odd h self = Ok EmptyString /\ even h self = Ok "even").
Proof. apply odd_even_exclusive. reflexivity. Defined.

(** ** [RepeatDict]: the invariant *)

Lemma wf_entry_grow (h : heap) (o : obj) (e : addr * Z * option addr) :
  wf_entry h e -> wf_entry (h ++ [o]) e.
Proof.
  destruct e as [[it len] rep]. intros [(items & pos & Hl & Hlen & Hpos) Hrep].
  split.
  - exists items, pos. split; [by apply lookup_app_l_Some|done].
  - destruct rep; [by apply lookup_app_l_Some|done].
Qed.


Lemma wf_getitem (st : state) (key : string) :
  wf_state st -> wf_state (snd (__getitem__ st key)).
Proof.
  intros Hwf. unfold __getitem__.
  destruct (st_dict st !! key) as [[[it len] [a|]]|] eqn:E; simpl; try exact Hwf.
  intros k e. simpl. destruct (decide (k = key)) as [->|Hne].
  - rewrite lookup_insert_eq. intros [= <-].
    destruct (Hwf key _ E) as [Hit _]. split.
    + destruct Hit as (items & pos & Hl & Hrest). exists items, pos.
      split; [by apply lookup_app_l_Some|done].
    + apply lookup_alloc.
  - rewrite lookup_insert_ne by done. intros He.
    apply wf_entry_grow, (Hwf k e He).
Qed.



Lemma wf_empty : wf_state empty_state.
Proof. intros k e H. simpl in H. by rewrite lookup_empty in H. Qed.



(** In a state of the invariant the item a lookup returns always has an
    index: reading it does not raise, and it lies between -1 and the
    length minus one; so [number] lies between 0 and the length. *)
Theorem index_in_bounds (st : state) (key : string) (a : addr) (st' : state) :
  wf_state st -> __getitem__ st key = (Ok a, st') ->
  exists (item : RepeatItem.t) (i : Z),
    item_at (st_heap st') a = Some item /\
    index (st_heap st') item = Ok i /\
    -1 <= i <= RepeatItem.length item - 1 /\
    number (st_heap st') item = Ok (i + 1).
Proof.
  intros Hwf Hget. pose proof (wf_getitem st key Hwf) as Hwf'.
  rewrite Hget in Hwf'. simpl in Hwf'.
  assert (Hk : exists it len, st_dict st' !! key = Some (it, len, Some a)).
  { revert Hget. unfold __getitem__.
    destruct (st_dict st !! key) as [[[it len] [b|]]|] eqn:E; simpl; intros [= <- <-].
    - eauto.
    - exists it, len. simpl. apply lookup_insert_eq. }
  destruct Hk as (it & len & Hk).
  destruct (Hwf' key _ Hk) as [(items & pos & Hl & Hlen & Hpos) Ha].
  exists (RepeatItem.Make len it), (len - Z.of_nat (List.length items - pos) - 1).
  unfold item_at, number, descriptorint, index, cursor_len. simpl.
  rewrite Ha, Hl. simpl. repeat split; lia.
Qed.

Lemma index_in_bounds_witness :
  exists (item : RepeatItem.t) (i : Z),
    let st' := State [OIter (TupleIterator [VInt 1] 0); OItem (RepeatItem.Make 1 0%nat)]
                 {[ "x" := (0%nat, 1, Some 1%nat) ]} in
    item_at (st_heap st') 1%nat = Some item /\
    index (st_heap st') item = Ok i /\
    -1 <= i <= RepeatItem.length item - 1 /\
    number (st_heap st') item = Ok (i + 1).
Proof.
  apply (index_in_bounds
           (State [OIter (TupleIterator [VInt 1] 0)] {[ "x" := (0%nat, 1, None) ]}) "x").
  - intros k e H. simpl in H. apply lookup_singleton_Some in H as [<- <-].
    split; [|done]. exists [VInt 1], 0%nat. simpl. repeat split; lia.
  - reflexivity.
Defined.

(** ** The render loop *)

(** [n] steps on a cursor at [pos] give the next [n] elements, or those
    that are left, and move the cursor by as many. *)
Lemma advance_spec (xs : list value) (it : addr) :
  forall (n : nat) (h : heap) (pos : nat),
    h !! it = Some (OIter (TupleIterator xs pos)) -> (pos <= List.length xs)%nat ->
    advance n h it
    = (take n (drop pos xs),
       <[it := OIter (TupleIterator xs (pos + Nat.min n (List.length xs - pos)))]> h).
Proof.
  induction n as [|n IH]; intros h pos Hl Hpos.
  - simpl. rewrite Nat.add_0_r. by rewrite list_insert_id.
  - pose proof (lookup_lt_Some _ _ _ Hl) as Hit.
    simpl. unfold cursor_next. rewrite Hl. simpl.
    destruct (xs !! pos) as [v|] eqn:Ev.
    + pose proof (lookup_lt_Some _ _ _ Ev) as Hlt.
      rewrite (IH _ (S pos)); [|by rewrite list_lookup_insert_eq|lia].
      rewrite list_insert_insert_eq, (drop_S _ _ _ Ev).
      replace (S pos + Nat.min n (List.length xs - S pos))%nat
        with (pos + Nat.min (S n) (List.length xs - pos))%nat by lia.
      done.
    + apply lookup_ge_None_1 in Ev.
      rewrite drop_ge by done. rewrite take_nil.
      replace (List.length xs - pos)%nat with 0%nat by lia.
      rewrite Nat.add_0_r. by rewrite list_insert_id.
Qed.

(** The protocol of a repeat: a sequence is registered under a key, the
    item of the key is looked up, and the render loop steps the cursor
    [n] times.  The steps give the first [n] elements, all of them if
    [n] is larger; the item stays where it was, and read after the steps
    its index is the number of elements given minus one, [start] holds
    after exactly one element of a non-empty sequence and [end] after
    the last.  A step on the cursor after the last element raises
    [StopIteration] and changes nothing. *)
Theorem repeat_protocol (st : state) (key : string) (xs : list value)
  (it : addr) (len : Z) (st1 st2 : state) (a : addr) (n : nat) :
  __call__ st key (VSeq xs) = (Ok (it, len), st1) ->
  __getitem__ st1 key = (Ok a, st2) ->
  let item := RepeatItem.Make len it in
  let k := Nat.min n (List.length xs) in
  let '(vs, h) := advance n (st_heap st2) it in
  vs = take n xs /\
  item_at (st_heap st2) a = Some item /\
  item_at h a = Some item /\
  index h item = Ok (Z.of_nat k - 1) /\
  start h item = Ok (bool_decide (k = 1%nat)) /\
  end_ h item = Ok (bool_decide (k = List.length xs)) /\
  ((List.length xs <= n)%nat -> cursor_next h it = (Raise StopIteration, h)).
Proof.
  intros Hcall Hget item k.
  destruct (call_ok _ _ _ _ _ _ Hcall) as (items & Hit & Hlen & Hheap & Hdict).
  assert (items = xs) as ->.
  { assert (Hs : st_heap st1 = st_heap st ++ [OIter (TupleIterator xs 0)])
      by (revert Hcall; unfold __call__; simpl; by intros [= _ _ <-]).
    rewrite Hs in Hheap. by apply app_inv_head in Hheap as [= ->]. }
  assert (Hk1 : st_dict st1 !! key = Some (it, len, None))
    by (rewrite Hdict; apply lookup_insert_eq).
  rewrite (getitem_first _ _ _ _ Hk1) in Hget. injection Hget as <- <-.
  simpl st_heap. rewrite Hheap.
  set (h0 := st_heap st ++ [OIter (TupleIterator xs 0)]).
  assert (Hl : (h0 ++ [OItem item]) !! it = Some (OIter (TupleIterator xs 0))).
  { subst h0 it. rewrite lookup_app_l by (rewrite length_app; simpl; lia).
    apply lookup_alloc. }
  fold item. rewrite (advance_spec xs it n _ 0%nat Hl) by lia.
  rewrite drop_0, Nat.sub_0_r, Nat.add_0_l. fold k.
  assert (Hit' : (it < List.length (h0 ++ [OItem item]))%nat)
    by (apply (lookup_lt_Some _ _ _ Hl)).
  assert (Hne : it <> List.length h0).
  { subst h0 it. rewrite length_app. simpl. lia. }
  assert (Hidx : index (<[it := OIter (TupleIterator xs k)]> (h0 ++ [OItem item])) item
                 = Ok (Z.of_nat k - 1)).
  { unfold index, cursor_len. simpl. rewrite list_lookup_insert_eq by done.
    simpl. f_equal. subst k. lia. }
  split; [done|]. split; [apply item_at_alloc|]. split.
  { unfold item_at. rewrite list_lookup_insert_ne by done. by rewrite lookup_alloc. }
  split; [done|]. split.
  { unfold start. rewrite Hidx. simpl. f_equal.
    destruct (decide (k = 1%nat)) as [E|E].
    - rewrite bool_decide_eq_true_2 by done. apply Z.eqb_eq. lia.
    - rewrite bool_decide_eq_false_2 by done. apply Z.eqb_neq. lia. }
  split.
  { unfold end_. rewrite Hidx. simpl. f_equal.
    destruct (decide (k = List.length xs)) as [E|E].
    - rewrite bool_decide_eq_true_2 by done. apply Z.eqb_eq. lia.
    - rewrite bool_decide_eq_false_2 by done. apply Z.eqb_neq. lia. }
  intros Hn. unfold cursor_next. rewrite list_lookup_insert_eq by done. simpl.
  replace k with (List.length xs) by (subst k; lia).
  by rewrite lookup_ge_None_2.
Qed.

Lemma repeat_protocol_witness :
  let xs := [VStr "apple"; VStr "pear"] in
  let item := RepeatItem.Make 2 0%nat in
  let '(vs, h) :=
    advance 1 [OIter (TupleIterator xs 0); OItem item] 0%nat in
  vs = take 1 xs /\
  item_at [OIter (TupleIterator xs 0); OItem item] 1%nat = Some item /\
  item_at h 1%nat = Some item /\
  index h item = Ok (Z.of_nat 1 - 1) /\
  start h item = Ok (bool_decide (1%nat = 1%nat)) /\
  end_ h item = Ok (bool_decide (1%nat = 2%nat)) /\
  ((2 <= 1)%nat -> cursor_next h 0%nat = (Raise StopIteration, h)).
Proof.
  apply (repeat_protocol empty_state "x" [VStr "apple"; VStr "pear"] 0%nat 2
           (State [OIter (TupleIterator [VStr "apple"; VStr "pear"] 0)]
                  {[ "x" := (0%nat, 2, None) ]})
           (State [OIter (TupleIterator [VStr "apple"; VStr "pear"] 0);
                   OItem (RepeatItem.Make 2 0%nat)]
                  {[ "x" := (0%nat, 2, Some 1%nat) ]})
           1%nat 1%nat); reflexivity.
Defined.

(** ** [RepeatDict]: what an operation leaves alone *)


(** [get] never raises.  For a key that is not registered it returns the
    default and changes nothing; for a registered key it returns the
    item that a lookup returns, in the state the lookup leaves. *)
Theorem get_never_raises (st : state) (key : string) (default : option addr) :
  match st_dict st !! key with
  | None => get st key default = (Ok default, st) /\
            __getitem__ st key = (Raise (KeyError key), st)
  | Some _ => exists (a : addr) (st' : state),
      get st key default = (Ok (Some a), st') /\ __getitem__ st key = (Ok a, st')
  end.
Proof.
  unfold get, __getitem__.
  destruct (st_dict st !! key) as [[[it len] [b|]]|]; simpl; eauto.
Qed.

(** ** Define clauses written from their parts *)

Lemma rmatch_NAME_run (c : ascii) (r t : string) :
  name_start c = true -> all_in name_char r = true -> Str.lstrip_by name_char t = t ->
  rmatch NAME (String c r +:+ t) = Some (Hit (String c r) t []).
Proof.
  intros Hc Hr Ht. unfold NAME. rewrite sapp_cons.
  rewrite (rmatch_cat _ _ _ (Hit (String c EmptyString) (r +:+ t) []) (Hit r t []));
    [done| |by apply rmatch_star_run].
  unfold rmatch. simpl. by rewrite Hc.
Qed.

Lemma space_not_name_char (c : ascii) : space c = true -> name_char c = false.
Proof.
  intros Hc. destruct (name_char c) eqn:E; [|done].
  apply name_char_nonspace in E. unfold nonspace in E. unfold space in Hc.
  by rewrite Hc in E.
Qed.

Lemma lstrip_fixed (p : ascii -> bool) (s : string) :
  Str.lstrip_by p s = s -> forall c r, s = String c r -> p c = false.
Proof.
  intros H c r ->. simpl in H. destruct (p c) eqn:E; [|done]. exfalso.
  assert (Hlen : forall t, (String.length (Str.lstrip_by p t) <= String.length t)%nat).
  { induction t as [|d t IHt]; simpl; [done|]. destruct (p d); simpl; lia. }
  pose proof (Hlen r) as Hl. rewrite H in Hl. simpl in Hl. lia.
Qed.

(** The last piece of [DEFINE_RE] takes the whole of what is left. *)
Lemma define_expression (s : string) :
  rmatch (Cat (Grp 3 (Star (Cls any))) EndZ) s
  = Some (Hit (s +:+ EmptyString) EmptyString [(3%nat, s)]).
Proof.
  destruct (rmatch_star_cls any s) as (w & Hm & Es & _).
  rewrite lstrip_by_any in Hm, Es. rewrite sapp_nil_r in Es. subst w.
  rewrite (rmatch_cat _ _ _ (Hit s EmptyString [(3%nat, s)]) (empty_hit EmptyString));
    [done| |done].
  by rewrite rmatch_grp, Hm.
Qed.

(** [DEFINE_RE] after the optional keyword, on a name, whitespace and an
    expression. *)
Lemma define_name_part (c : ascii) (r : string) (s0 : ascii) (s' expr : string) :
  name_start c = true -> all_in name_char r = true ->
  space s0 = true -> all_in space s' = true -> Str.lstrip_by space expr = expr ->
  exists w,
    rmatch (Cat (Grp 2 (Alt NAME NAME_LIST))
           (Cat (Plus (Cls space))
           (Cat (Grp 3 (Star (Cls any))) EndZ)))
      (String c r +:+ String s0 s' +:+ expr)
    = Some (Hit w EmptyString [(3%nat, expr); (2%nat, String c r)]).
Proof.
  intros Hc Hr Hs0 Hs' He.
  assert (M2 : rmatch (Grp 2 (Alt NAME NAME_LIST)) (String c r +:+ String s0 s' +:+ expr)
               = Some (Hit (String c r) (String s0 s' +:+ expr) [(2%nat, String c r)])).
  { rewrite rmatch_grp.
    rewrite (rmatch_alt_l _ _ _ (Hit (String c r) (String s0 s' +:+ expr) [])); [done|].
    apply rmatch_NAME_run; [done|done|]. rewrite sapp_cons. simpl.
    by rewrite (space_not_name_char _ Hs0). }
  assert (M3 : rmatch (Plus (Cls space)) (String s0 s' +:+ expr)
               = Some (Hit (String s0 s') expr [])).
  { by apply rmatch_plus_run. }
  eexists.
  rewrite (rmatch_cat _ _ _ _ _ M2 (rmatch_cat _ _ _ _ _ M3 (define_expression expr))).
  reflexivity.
Qed.

(** Two runs of a class that end at a character outside it, in the same
    string, are the same run. *)
Lemma run_unique (p : ascii -> bool) (a b : string) (c d : ascii) (t u : string) :
  all_in p a = true -> all_in p b = true -> p c = false -> p d = false ->
  a +:+ String c t = b +:+ String d u -> a = b.
Proof.
  revert b. induction a as [|x a IH]; intros [|y b] Ha Hb Hc Hd;
    rewrite ?sapp_cons, ?sapp_nil_l; simpl in Ha, Hb.
  - done.
  - intros [= -> _]. apply andb_true_iff in Hb as [Hy _]. congruence.
  - intros [= -> _]. apply andb_true_iff in Ha as [Hx _]. congruence.
  - intros [= -> E]. apply andb_true_iff in Ha as [_ Ha], Hb as [_ Hb].
    by rewrite (IH b Ha Hb Hc Hd E).
Qed.

(** The keyword part of [DEFINE_RE] matches only at a keyword followed
    by whitespace. *)
Lemma define_keyword_inv (s : string) (h : hit) :
  rmatch (Cat (Grp 1 (Alt (Lit "global") (Lit "local"))) (Plus (Cls space))) s = Some h ->
  exists (kw : string) (d : ascii) (u : string),
    (kw = "global" \/ kw = "local") /\ s = kw +:+ String d u /\ space d = true.
Proof.
  intros H. apply rmatch_cat_inv in H as (k & ps & Hk & Hps & ->).
  apply in_hits_grp in Hk as (k0 & Hk0 & ->). cbn [rest] in Hps.
  assert (Hkw : exists kw, (kw = "global" \/ kw = "local") /\ s = kw +:+ rest k0).
  { apply in_hits_alt in Hk0 as [Hl|Hl]; apply in_hits_lit in Hl as [-> _];
      eexists; (split; [|reflexivity]); auto. }
  destruct Hkw as (kw & Hkw & ->).
  destruct (rest k0) as [|d u].
  { by rewrite SubstFacts.rmatch_plus_nil in Hps. }
  destruct (space d) eqn:Ed.
  - exists kw, d, u. done.
  - rewrite rmatch_plus_cls_none in Hps; [done|]. simpl. by rewrite Ed.
Qed.

Lemma define_scope_written (ws kw ws1 name ws2 expr : string) :
  kw = "global" \/ kw = "local" ->
  all_in space ws = true ->
  ws1 <> EmptyString -> all_in space ws1 = true ->
  (exists c r, name = String c r /\ name_start c = true /\ all_in name_char r = true) ->
  ws2 <> EmptyString -> all_in space ws2 = true ->
  Str.lstrip_by Str.isspace expr = expr ->
  define_of_part (ws +:+ kw +:+ ws1 +:+ name +:+ ws2 +:+ expr)
  = Some (kw, PyTuple [name], expr).
Proof.
  intros Hkw Hws Hn1 Hws1 (c & r & -> & Hc & Hr) Hn2 Hws2 He.
  change Str.isspace with space in He.
  destruct ws1 as [|a1 w1]; [done|]. destruct ws2 as [|a2 w2]; [done|].
  simpl in Hws1, Hws2.
  apply andb_true_iff in Hws1 as [Ha1 Hw1], Hws2 as [Ha2 Hw2].
  destruct (define_name_part c r a2 w2 expr Hc Hr Ha2 Hw2 He) as (w & Mt).
  set (tail := String c r +:+ String a2 w2 +:+ expr) in *.
  assert (Hnsp : space c = false).
  { destruct (space c) eqn:E; [|done]. apply space_not_name_char in E.
    by rewrite (name_start_char _ Hc) in E. }
  assert (M1 : rmatch (Star (Cls space)) (ws +:+ kw +:+ String a1 w1 +:+ tail)
               = Some (Hit ws (kw +:+ String a1 w1 +:+ tail) [])).
  { apply rmatch_star_run; [done|]. by destruct Hkw as [-> | ->]. }
  assert (Mk : rmatch (Cat (Grp 1 (Alt (Lit "global") (Lit "local"))) (Plus (Cls space)))
                 (kw +:+ String a1 w1 +:+ tail)
               = Some (then_hit (Hit kw (String a1 w1 +:+ tail) [(1%nat, kw)])
                                (Hit (String a1 w1) tail []))).
  { eapply rmatch_cat.
    - rewrite rmatch_grp. destruct Hkw as [-> | ->].
      + rewrite (rmatch_alt_l _ _ _ (Hit "global" (String a1 w1 +:+ tail) []));
          [reflexivity|].
        unfold rmatch. by rewrite hits_lit_here.
      + rewrite rmatch_alt_r by done.
        unfold rmatch. by rewrite hits_lit_here.
    - cbn [rest]. apply rmatch_plus_run; [done|done|].
      subst tail. rewrite sapp_cons. simpl. by rewrite Hnsp. }
  pose proof (rmatch_cat _ _ _ _ _ M1
                (rmatch_cat _ _ _ _ _ (rmatch_alt_l _ Eps _ _ Mk) Mt)) as Hfull.
  unfold define_of_part. unfold DEFINE_RE, Opt.
  change (Cat (Chr "(") (Cat NAME (Cat (Star (Cat (Chr ",") (Cat (Star (Cls space)) NAME)))
            (Chr ")")))) with NAME_LIST.
  rewrite Hfull. unfold define_of_match, group_str.
  cbn [caps then_hit rest app group Nat.eqb default].
  assert (Hsw : Str.startswith "(" (String c r) = false).
  { simpl. rewrite andb_true_r. apply char_is_false. intros <-. done. }
  unfold id. rewrite Hsw. by destruct Hkw as [-> | ->].
Qed.

(** A define written with its scope parses to the scope, the 1-tuple of
    the name and the expression, whatever the whitespace between
    them. *)
Theorem define_scoped_written (ws kw ws1 name ws2 expr : string) :
  kw = "global" \/ kw = "local" ->
  all_in space ws = true ->
  ws1 <> EmptyString -> all_in space ws1 = true ->
  (exists c r, name = String c r /\ name_start c = true /\ all_in name_char r = true) ->
  ws2 <> EmptyString -> all_in space ws2 = true ->
  Str.lstrip_by Str.isspace expr = expr ->
  define_of_part (ws +:+ kw +:+ ws1 +:+ name +:+ ws2 +:+ expr)
  = Some (kw, PyTuple [name], expr).
Proof. apply define_scope_written. Qed.

Lemma define_scoped_written_witness :
  define_of_part (" " +:+ "global" +:+ "  " +:+ "x-1" +:+ " " +:+ "a + b")
  = Some ("global", PyTuple ["x-1"], "a + b").
Proof.
  apply (define_scoped_written " " "global" "  " "x-1" " " "a + b");
    try reflexivity; try discriminate; [by left|].
  exists "x"%char, "-1". done.
Defined.

(** A define written without a scope is local: a name that is not one
    of the two keywords, whitespace and the expression parse to [local],
    the 1-tuple of the name and the expression. *)
Theorem define_bare_written (ws name ws2 expr : string) :
  all_in space ws = true ->
  (exists c r, name = String c r /\ name_start c = true /\ all_in name_char r = true) ->
  name <> "global" -> name <> "local" ->
  ws2 <> EmptyString -> all_in space ws2 = true ->
  Str.lstrip_by Str.isspace expr = expr ->
  define_of_part (ws +:+ name +:+ ws2 +:+ expr) = Some ("local", PyTuple [name], expr).
Proof.
  intros Hws (c & r & -> & Hc & Hr) Hng Hnl Hn2 Hws2 He.
  change Str.isspace with space in He.
  destruct ws2 as [|a2 w2]; [done|]. simpl in Hws2.
  apply andb_true_iff in Hws2 as [Ha2 Hw2].
  destruct (define_name_part c r a2 w2 expr Hc Hr Ha2 Hw2 He) as (w & Mt).
  set (tail := String c r +:+ String a2 w2 +:+ expr) in *.
  assert (Hnsp : space c = false).
  { destruct (space c) eqn:E; [|done]. apply space_not_name_char in E.
    by rewrite (name_start_char _ Hc) in E. }
  assert (M1 : rmatch (Star (Cls space)) (ws +:+ tail) = Some (Hit ws tail [])).
  { apply rmatch_star_run; [done|]. subst tail. rewrite sapp_cons. simpl. by rewrite Hnsp. }
  assert (Mk : rmatch (Cat (Grp 1 (Alt (Lit "global") (Lit "local"))) (Plus (Cls space)))
                 tail = None).
  { destruct (rmatch (Cat (Grp 1 (Alt (Lit "global") (Lit "local"))) (Plus (Cls space)))
                tail) as [h|] eqn:E; [|done]. exfalso.
    apply define_keyword_inv in E as (kw & d & u & Hkw & Et & Hd).
    subst tail.
    assert (String c r = kw).
    { apply (run_unique name_char _ _ a2 d (w2 +:+ expr) u).
      - simpl. by rewrite (name_start_char _ Hc), Hr.
      - by destruct Hkw as [-> | ->].
      - by apply space_not_name_char.
      - by apply space_not_name_char.
      - by rewrite <- sapp_cons. }
    destruct Hkw as [-> | ->]; congruence. }
  assert (Mo : rmatch (Opt (Cat (Grp 1 (Alt (Lit "global") (Lit "local")))
                                (Plus (Cls space)))) tail
               = Some (empty_hit tail)).
  { unfold Opt. by rewrite rmatch_alt_r. }
  pose proof (rmatch_cat _ _ _ _ _ M1 (rmatch_cat _ _ _ _ _ Mo Mt)) as Hfull.
  unfold define_of_part. unfold DEFINE_RE.
  change (Cat (Chr "(") (Cat NAME (Cat (Star (Cat (Chr ",") (Cat (Star (Cls space)) NAME)))
            (Chr ")")))) with NAME_LIST.
  rewrite Hfull. unfold define_of_match, group_str.
  cbn [caps then_hit empty_hit rest app group Nat.eqb default].
  assert (Hsw : Str.startswith "(" (String c r) = false).
  { simpl. rewrite andb_true_r. apply char_is_false. intros <-. done. }
  unfold id. by rewrite Hsw.
Qed.

Lemma define_bare_written_witness :
  define_of_part ("  " +:+ "globals" +:+ " " +:+ "a; b")
  = Some ("local", PyTuple ["globals"], "a; b").
Proof.
  apply (define_bare_written "  " "globals" " " "a; b");
    try reflexivity; try discriminate.
  exists "g"%char, "lobals". done.
Defined.

Lemma name_chars_plain (s : string) :
  all_in name_char s = true ->
  Str.mem ";" s = false /\ Str.mem Str.NUL s = false /\ Str.mem "&" s = false.
Proof.
  intros H. repeat split; by apply (all_in_not_mem name_char).
Qed.

Lemma plain_define_part (d : string * string * string) :
  plain_define d ->
  plain_part (define_part d) /\
  Str.is_empty (Str.strip (define_part d)) = false /\
  define_of_part (define_part d) = Some (define_triple d).
Proof.
  destruct d as [[scope name] expr].
  intros (Hkw & Hname & Hes & Hen & Hea & Hel).
  pose proof Hname as (c & r & -> & Hc & Hr).
  assert (Hn : all_in name_char (String c r) = true)
    by (simpl; by rewrite (name_start_char _ Hc), Hr).
  destruct (name_chars_plain _ Hn) as (Hns & Hnn & Hna).
  unfold define_part, define_triple. split; [|split].
  - split; [by destruct Hkw as [-> | ->]|].
    rewrite !mem_app, Hns, Hnn, Hna, Hes, Hen, Hea.
    by destruct Hkw as [-> | ->].
  - destruct Hkw as [-> | ->]; rewrite sapp_cons; by apply strip_head_nonspace.
  - apply (define_scope_written EmptyString scope " " (String c r) " " expr); done.
Qed.

(** A define clause written from scopes, names and expressions parses
    to them, in order, each name as a 1-tuple. *)
Theorem parse_defines_written (ds : list (string * string * string)) :
  ds <> [] -> Forall plain_define ds ->
  parse_defines (join (map define_part ds)) = Some (map define_triple ds).
Proof.
  intros Hne HF. unfold parse_defines.
  assert (Hparts : Forall plain_part (map define_part ds)).
  { apply Forall_forall. intros p Hp.
    apply list_elem_of_In, in_map_iff in Hp as (d & <- & Hin).
    rewrite Forall_forall in HF. apply list_elem_of_In in Hin.
    by destruct (plain_define_part _ (HF _ Hin)). }
  rewrite split_parts_of_join; [| |done|].
  - apply parse_defines_loop_some. exists (map define_triple ds). split; [|done].
    clear Hne Hparts. induction HF as [|d ds Hd HF IH]; [constructor|].
    simpl. constructor; [|done]. by destruct (plain_define_part _ Hd) as (_ & _ & ?).
  - by destruct ds.
  - assert (Hl : Forall (fun p => Str.is_empty (Str.strip p) = false)
                   (map define_part ds)).
    { apply Forall_forall. intros p Hp.
      apply list_elem_of_In, in_map_iff in Hp as (d & <- & Hin).
      rewrite Forall_forall in HF. apply list_elem_of_In in Hin.
      by destruct (plain_define_part _ (HF _ Hin)) as (_ & ? & _). }
    apply (Forall_last _ _ EmptyString) in Hl; [done|by destruct ds].
Qed.

Lemma parse_defines_written_witness :
  parse_defines (join (map define_part [("local", "x", "a/b"); ("global", "y_2", "python: 1")]))
  = Some [("local", PyTuple ["x"], "a/b"); ("global", PyTuple ["y_2"], "python: 1")].
Proof.
  apply (parse_defines_written [("local", "x", "a/b"); ("global", "y_2", "python: 1")]);
    [discriminate|].
  repeat constructor; try discriminate; try (by left); try (by right);
    eexists _, _; (split; [reflexivity|done]).
Defined.
